(** * t3f/riemannian.py: projection onto the tangent space of a TT manifold

    The three public functions of [riemannian.py] ([project_sum], [project],
    [project_matmul]) are graph builders: every [tf.*] call adds one node to
    the TensorFlow graph and returns a tensor handle whose static shape is
    inferred on the spot; a shape that cannot be inferred raises at once.

    The embedding follows that reading.  A [tensor] is the expression that
    defines a graph node together with its static shape; the Python code is
    written in a small monad [tf] that records the operations added so far and
    may raise.  Shapes are fully static (no unknown dimension). *)

From Stdlib Require Import String Ascii.
From stdpp Require Import base option list.

Local Open Scope char_scope.
Local Open Scope nat_scope.

(** ** Strings: [str.format] and the subscripts of [tf.einsum] *)

(** Strings as character lists, shapes as lists of dimensions. *)
Abbreviation chars := (list ascii).
Abbreviation shape := (list nat).

Module Str.

Definition digit_value (c : ascii) : nat := nat_of_ascii c - 48.

(** [fmt.format(a0, a1, ...)] for positional fields [{0}] .. [{9}]. *)
Fixpoint format_chars (fmt : chars) (args : list chars) : chars :=
  match fmt with
  | [] => []
  | c :: rest =>
      if Ascii.eqb c "{" then
        match rest with
        | d :: close :: rest' =>
            if Ascii.eqb close "}"
            then nth (digit_value d) args [] ++ format_chars rest' args
            else c :: format_chars rest args
        | _ => c :: format_chars rest args
        end
      else c :: format_chars rest args
  end.

Definition format (fmt : string) (args : list string) : string :=
  string_of_list_ascii
    (format_chars (list_ascii_of_string fmt) (list_ascii_of_string <$> args)).

(** [s.split(sep)] for a one-character separator. *)
Fixpoint split_on (sep : ascii) (s : chars) : list chars :=
  match s with
  | [] => [[]]
  | c :: s' =>
      if Ascii.eqb c sep then [] :: split_on sep s'
      else match split_on sep s' with
           | [] => [[c]]
           | w :: ws => (c :: w) :: ws
           end
  end.

(** Splits [inputs->output] at the first arrow. *)
Fixpoint split_arrow (s : chars) : option (chars * chars) :=
  match s with
  | [] => None
  | c :: s' =>
      match s' with
      | c' :: out =>
          if Ascii.eqb c "-" && Ascii.eqb c' ">" then Some ([], out)
          else '(i, o) ← split_arrow s'; Some (c :: i, o)
      | [] => None
      end
  end.

End Str.

(** ** Static shape inference of the TensorFlow operations used *)

Module Shape.

(** Axis label -> dimension, most recent binding first. *)
Abbreviation dim_env := (list (ascii * nat)).

Fixpoint env_lookup (l : ascii) (e : dim_env) : option nat :=
  match e with
  | [] => None
  | (l', d) :: e' => if Ascii.eqb l l' then Some d else env_lookup l e'
  end.

(** One operand: as many labels as axes, and a label already bound must
    meet the same dimension. *)
Fixpoint bind_axes (labels : chars) (dims : shape) (e : dim_env)
  : option dim_env :=
  match labels, dims with
  | [], [] => Some e
  | l :: ls, d :: ds =>
      match env_lookup l e with
      | Some d' => if d =? d' then bind_axes ls ds e else None
      | None => bind_axes ls ds ((l, d) :: e)
      end
  | _, _ => None
  end.

Fixpoint bind_inputs (inputs : list chars) (shapes : list shape)
    (e : dim_env) : option dim_env :=
  match inputs, shapes with
  | [], [] => Some e
  | ls :: inputs', sh :: shapes' =>
      e' ← bind_axes ls sh e; bind_inputs inputs' shapes' e'
  | _, _ => None
  end.

Definition parse_equation (equation : string)
  : option (list chars * chars) :=
  '(ins, out) ← Str.split_arrow (list_ascii_of_string equation);
  Some (Str.split_on "," ins, out).

Definition einsum_env (equation : string) (shapes : list shape)
  : option (dim_env * chars) :=
  '(ins, out) ← parse_equation equation;
  e ← bind_inputs ins shapes [];
  Some (e, out).

(** [tf.einsum(equation, *inputs)]: the static shape of the result. *)
Definition einsum (equation : string) (shapes : list shape) : option shape :=
  '(e, out) ← einsum_env equation shapes;
  mapM (λ l, env_lookup l e) out.

(** NumPy-style broadcasting of two shapes, innermost axis first. *)
Fixpoint broadcast_rev (a b : shape) : option shape :=
  match a, b with
  | [], _ => Some b
  | _, [] => Some a
  | x :: a', y :: b' =>
      if x =? y then cons x <$> broadcast_rev a' b'
      else if x =? 1 then cons y <$> broadcast_rev a' b'
      else if y =? 1 then cons x <$> broadcast_rev a' b'
      else None
  end.

Definition broadcast (a b : shape) : option shape :=
  reverse <$> broadcast_rev (reverse a) (reverse b).

(** [tf.concat((a, b), axis)]: equal rank, equal dimensions off [axis]. *)
Fixpoint concat2 (a b : shape) (axis : nat) : option shape :=
  match a, b, axis with
  | x :: a', y :: b', 0 =>
      if decide (a' = b') then Some ((x + y) :: a') else None
  | x :: a', y :: b', S n =>
      if x =? y then cons x <$> concat2 a' b' n else None
  | _, _, _ => None
  end.

Fixpoint concat_from (acc : shape) (rest : list shape) (axis : nat)
  : option shape :=
  match rest with
  | [] => Some acc
  | sh :: rest' => acc' ← concat2 acc sh axis; concat_from acc' rest' axis
  end.

Definition concat (shapes : list shape) (axis : nat) : option shape :=
  match shapes with
  | [] => None
  | [sh] => if decide (axis < length sh) then Some sh else None
  | sh :: rest => concat_from sh rest axis
  end.

(** [tf.tile(t, multiples)]. *)
Fixpoint tile (sh : shape) (multiples : list nat) : option shape :=
  match sh, multiples with
  | [], [] => Some []
  | d :: sh', m :: ms => cons (d * m) <$> tile sh' ms
  | _, _ => None
  end.

(** [tf.expand_dims(t, axis)] for [0 <= axis <= rank]. *)
Definition expand_dims (sh : shape) (axis : nat) : option shape :=
  if decide (axis ≤ length sh) then Some (take axis sh ++ 1 :: drop axis sh)
  else None.

(** [tf.reduce_sum(t, axis=axis)]. *)
Definition reduce_sum (sh : shape) (axis : nat) : option shape :=
  if decide (axis < length sh) then Some (take axis sh ++ drop (S axis) sh)
  else None.

End Shape.

(** ** Tensors, graph operations and the [tf] monad *)

(** A tensor handle: the expression of the node and its static shape.
    [Placeholder] stands for a tensor the caller supplies (a TT-core of an
    argument, the weights). *)
#[local] Unset Elimination Schemes.
Inductive tensor : Type :=
| Placeholder (name : string) (sh : shape)
| Ones (sh : shape)
| Zeros (sh : shape)
| Einsum (sh : shape) (equation : string) (inputs : list tensor)
| Subtract (sh : shape) (a b : tensor)
| ReduceSum (sh : shape) (a : tensor) (axis : nat)
| ExpandDims (sh : shape) (a : tensor) (axis : nat)
| Tile (sh : shape) (a : tensor) (multiples : list nat)
| Concat (sh : shape) (values : list tensor) (axis : nat).
#[local] Set Elimination Schemes.

Definition get_shape (t : tensor) : shape :=
  match t with
  | Placeholder _ sh | Ones sh | Zeros sh | Einsum sh _ _ | Subtract sh _ _
  | ReduceSum sh _ _ | ExpandDims sh _ _ | Tile sh _ _ | Concat sh _ _ => sh
  end.

(** The kinds of node the three functions add to the graph. *)
Inductive tf_op : Type :=
| OpOnes | OpZeros | OpEinsum (equation : string) | OpSubtract | OpReduceSum
| OpExpandDims | OpTile | OpConcat.

Definition is_contraction (o : tf_op) : bool :=
  match o with OpEinsum _ => true | _ => false end.

Inductive DType : Type := float16 | float32 | float64 | int32 | int64.

#[global] Instance DType_eq_dec : EqDecision DType.
Proof. solve_decision. Defined.

(** [a.is_compatible_with(b)] on non-reference dtypes. *)
Definition is_compatible_with (a b : DType) : bool := bool_decide (a = b).

(** The TT containers.  Modelled from the spec: the classes [TensorTrain] and
    [TensorTrainBatch] are not part of riemannian.py; section 3 of the spec
    gives a sequence of cores, a raw-shape descriptor (one row of mode sizes
    for a TT-tensor, two rows for a TT-matrix), an element-type tag and, for
    batches, a batch size. *)
Inductive tt_object : Type :=
| TensorTrain (tt_cores : list tensor) (raw_shape : list (list nat))
    (dtype : DType)
| TensorTrainBatch (tt_cores : list tensor) (raw_shape : list (list nat))
    (batch_size : nat) (dtype : DType).

Definition tt_cores (tt : tt_object) : list tensor :=
  match tt with TensorTrain c _ _ | TensorTrainBatch c _ _ _ => c end.

Definition get_raw_shape (tt : tt_object) : list (list nat) :=
  match tt with TensorTrain _ r _ | TensorTrainBatch _ r _ _ => r end.

Definition dtype (tt : tt_object) : DType :=
  match tt with TensorTrain _ _ d | TensorTrainBatch _ _ _ d => d end.

Definition ndims (tt : tt_object) : nat := length (tt_cores tt).

Definition is_tt_matrix (tt : tt_object) : bool :=
  length (get_raw_shape tt) =? 2.

(** [isinstance(tt, TensorTrain)] and [isinstance(tt, TensorTrainBatch)]. *)
Definition is_TensorTrain (tt : tt_object) : bool :=
  match tt with TensorTrain _ _ _ => true | TensorTrainBatch _ _ _ _ => false end.

Definition is_TensorTrainBatch (tt : tt_object) : bool :=
  negb (is_TensorTrain tt).

(** Every failure is a Python exception; the three raised by the argument
    checks carry the values their messages are formatted with. *)
Inductive error : Type :=
| NotATensorTrain (where_ : tt_object)
| ShapesDoNotMatch (where_shape what_shape : list (list nat))
| DtypesDoNotCoincide (where_dtype what_dtype : DType)
| OpShapeError (op : tf_op) (input_shapes : list shape)
| IndexError
| NoneOperand
| BatchSizeUnavailable
| CoresNotValid.

Inductive result (A : Type) : Type :=
| Ok (a : A)
| Raise (e : error).
Arguments Ok {A} a.
Arguments Raise {A} e.

(** A computation yields a result or an exception, and the list of nodes it
    added to the graph, oldest first. *)
Definition tf (A : Type) : Type := result A * list tf_op.

#[global] Instance tf_ret : MRet tf := λ A a, (Ok a, []).

#[global] Instance tf_bind : MBind tf := λ A B f m,
  match m with
  | (Ok a, ops) => let '(r, ops') := f a in (r, ops ++ ops')
  | (Raise e, ops) => (Raise e, ops)
  end.

Definition raise {A} (e : error) : tf A := (Raise e, []).

Definition outcome {A} (m : tf A) : result A := m.1.
Definition graph {A} (m : tf A) : list tf_op := m.2.

(** A node is added only when its shape can be inferred. *)
Definition add_node (op : tf_op) (ins : list shape) (sh : option shape)
    (mk : shape → tensor) : tf tensor :=
  match sh with
  | Some s => (Ok (mk s), [op])
  | None => raise (OpShapeError op ins)
  end.

Module tf_.

Definition ones (sh : shape) : tf tensor := add_node OpOnes [] (Some sh) Ones.

Definition zeros (sh : shape) : tf tensor :=
  add_node OpZeros [] (Some sh) Zeros.

Definition einsum (equation : string) (inputs : list tensor) : tf tensor :=
  let ins := get_shape <$> inputs in
  add_node (OpEinsum equation) ins (Shape.einsum equation ins)
    (λ sh, Einsum sh equation inputs).

Definition subtract (a b : tensor) : tf tensor :=
  add_node OpSubtract [get_shape a; get_shape b]
    (Shape.broadcast (get_shape a) (get_shape b)) (λ sh, Subtract sh a b).

Definition reduce_sum (a : tensor) (axis : nat) : tf tensor :=
  add_node OpReduceSum [get_shape a] (Shape.reduce_sum (get_shape a) axis)
    (λ sh, ReduceSum sh a axis).

Definition expand_dims (a : tensor) (axis : nat) : tf tensor :=
  add_node OpExpandDims [get_shape a] (Shape.expand_dims (get_shape a) axis)
    (λ sh, ExpandDims sh a axis).

Definition tile (a : tensor) (multiples : list nat) : tf tensor :=
  add_node OpTile [get_shape a] (Shape.tile (get_shape a) multiples)
    (λ sh, Tile sh a multiples).

Definition concat (values : list tensor) (axis : nat) : tf tensor :=
  let ins := get_shape <$> values in
  add_node OpConcat ins (Shape.concat ins axis)
    (λ sh, Concat sh values axis).

End tf_.

(** ** Python lists and loops *)

(** [l[i]]. *)
Definition getitem {A} (l : list A) (i : nat) : tf A :=
  match l !! i with Some x => mret x | None => raise IndexError end.

(** [l[i] = x]. *)
Definition setitem {A} (l : list A) (i : nat) (x : A) : tf (list A) :=
  if decide (i < length l) then mret (<[i := x]> l) else raise IndexError.

(** Reading a slot of [lhs] or [rhs], which start as [[None] * (ndims + 1)]. *)
Definition getslot (l : list (option tensor)) (i : nat) : tf tensor :=
  o ← getitem l i;
  match o with Some t => mret t | None => raise NoneOperand end.

(** [for i in idxs: s = body(i, s)]. *)
Fixpoint for_ {S} (idxs : list nat) (body : nat → S → tf S) (s : S) : tf S :=
  match idxs with
  | [] => mret s
  | i :: rest => s' ← body i s; for_ rest body s'
  end.

(** [range(n)] and [range(start, stop, -1)]. *)
Definition range (n : nat) : list nat := seq 0 n.

Definition range_down (start stop : nat) : list nat :=
  reverse (seq (S stop) (start - stop)).

(** Reading a Python variable that an earlier branch may have left unbound. *)
Definition getvar (o : option tensor) : tf tensor :=
  match o with Some t => mret t | None => raise NoneOperand end.

(** ** The collaborators of riemannian.py *)

(** Modelled from the spec: [shapes.lazy_raw_shape] is not part of
    riemannian.py; it exposes the static raw mode shape. *)
Definition lazy_raw_shape (tt : tt_object) : list (list nat) := get_raw_shape tt.

(** Modelled from the spec: [shapes.lazy_tt_ranks] is not part of
    riemannian.py; it exposes the static TT-rank sequence, the boundary
    dimensions between consecutive cores: the leading rank of every core,
    then the trailing rank of the last one. *)
Definition rank_axis (tt : tt_object) : nat :=
  if is_TensorTrainBatch tt then 1 else 0.

Definition lazy_tt_ranks (tt : tt_object) : list nat :=
  ((λ c, default 0 (get_shape c !! rank_axis tt)) <$> tt_cores tt)
  ++ [default 0 (last (tt_cores tt) ≫= λ c, last (get_shape c))].

(** Modelled from the spec: [shapes.expand_batch_dim] is not part of
    riemannian.py; it promotes a TT object to a batch of one and is a no-op
    on a batch. *)
Definition expand_batch_dim (tt : tt_object) : tf tt_object :=
  match tt with
  | TensorTrainBatch _ _ _ _ => mret tt
  | TensorTrain cores raw dt =>
      cores' ← mapM (λ c, tf_.expand_dims c 0) cores;
      mret (TensorTrainBatch cores' raw 1 dt)
  end.

Section Riemannian.

Local Open Scope string_scope.
Local Open Scope nat_scope.
Local Open Scope list_scope.

(** [decompositions.orthogonalize_tt_cores(tt, left_to_right)], the
    orthogonal basis provider, is not part of riemannian.py. *)
Variable orthogonalize_tt_cores : tt_object → bool → tt_object.

(** [shapes.lazy_batch_size] is not part of riemannian.py.  Modelled from
    the spec: section 6 gives [batch_size(tt_batch)], defined on a batch,
    where it is the static batch size.  On a plain [TensorTrain] the helper
    raises: that is [plain_batch_size = None], the value at which the
    functions below are the code as it runs.  The parameter is kept so that
    what does not depend on the helper can be stated for every answer it
    could give. *)
Variable plain_batch_size : option nat.

Definition lazy_batch_size (tt : tt_object) : tf nat :=
  match tt with
  | TensorTrainBatch _ _ b _ => mret b
  | TensorTrain _ _ _ =>
      match plain_batch_size with
      | Some b => mret b
      | None => raise BatchSizeUnavailable
      end
  end.

(** The checks every function starts with (lines 36-50, 205-219,
    366-380). *)
Definition check_arguments (what where_ : tt_object) : tf unit :=
  if negb (is_TensorTrain where_) then raise (NotATensorTrain where_)
  else if bool_decide (get_raw_shape where_ ≠ get_raw_shape what) then
    raise (ShapesDoNotMatch (get_raw_shape where_) (get_raw_shape what))
  else if negb (is_compatible_with (dtype where_) (dtype what)) then
    raise (DtypesDoNotCoincide (dtype where_) (dtype what))
  else mret ().

(** "Prepare rhs vectors" (lines 83-90 and 249-256). *)
Definition prepare_rhs (what right_tangent_space_tens : tt_object)
    (ndims batch_size : nat) (mode_str : string)
  : tf (list (option tensor)) :=
  let rhs := replicate (ndims + 1) None in
  ones ← tf_.ones [batch_size; 1; 1];
  rhs ← setitem rhs ndims (Some ones);
  for_ (range_down (ndims - 1) 0) (λ core_idx rhs,
    tens_core ← getitem (tt_cores what) core_idx;
    right_tang_core ← getitem (tt_cores right_tangent_space_tens) core_idx;
    let einsum_str := Str.format "sa{0}b,sbd,c{0}d->sac" [mode_str] in
    next ← getslot rhs (core_idx + 1);
    t ← tf_.einsum einsum_str [tens_core; next; right_tang_core];
    setitem rhs core_idx (Some t)) rhs.

(** "Prepare lhs vectors" (lines 95-102 and 261-268). *)
Definition prepare_lhs (what left_tangent_space_tens : tt_object)
    (ndims batch_size : nat) (mode_str : string)
  : tf (list (option tensor)) :=
  let lhs := replicate (ndims + 1) None in
  ones ← tf_.ones [batch_size; 1; 1];
  lhs ← setitem lhs 0 (Some ones);
  for_ (range (ndims - 1)) (λ core_idx lhs,
    tens_core ← getitem (tt_cores what) core_idx;
    left_tang_core ← getitem (tt_cores left_tangent_space_tens) core_idx;
    let einsum_str := Str.format "sab,a{0}c,sb{0}d->scd" [mode_str] in
    prev ← getslot lhs core_idx;
    t ← tf_.einsum einsum_str [prev; left_tang_core; tens_core];
    setitem lhs (core_idx + 1) (Some t)) lhs.

(** The tangent cores with the output batch axis added (lines 135-152,
    295-312 and, with the TT-matrix branch only, 452-463). *)
Definition extend_tangent_cores (output_is_batch matrix_cores : bool)
    (output_batch_size : nat) (left_tang_core right_tang_core : tensor)
  : tf (tensor * tensor) :=
  if output_is_batch then
    extended_left_tang_core ← tf_.expand_dims left_tang_core 0;
    extended_right_tang_core ← tf_.expand_dims right_tang_core 0;
    if matrix_cores then
      extended_left_tang_core ←
        tf_.tile extended_left_tang_core [output_batch_size; 1; 1; 1; 1];
      extended_right_tang_core ←
        tf_.tile extended_right_tang_core [output_batch_size; 1; 1; 1; 1];
      mret (extended_left_tang_core, extended_right_tang_core)
    else
      extended_left_tang_core ←
        tf_.tile extended_left_tang_core [output_batch_size; 1; 1; 1];
      extended_right_tang_core ←
        tf_.tile extended_right_tang_core [output_batch_size; 1; 1; 1];
      mret (extended_left_tang_core, extended_right_tang_core)
  else mret (left_tang_core, right_tang_core).

(** The block assembly of one output core (lines 154-175, 314-335 and, with
    the TT-matrix branch only, 465-484). *)
Definition assemble_core (output_is_batch matrix_cores : bool)
    (output_batch_size ndims core_idx : nat)
    (raw_shape : list (list nat))
    (right_tangent_tt_ranks left_tangent_tt_ranks : list nat)
    (right_rank_dim left_rank_dim : nat)
    (proj_core : option tensor)
    (extended_left_tang_core extended_right_tang_core : tensor)
  : tf tensor :=
  if core_idx =? 0 then
    proj_core ← getvar proj_core;
    tf_.concat [proj_core; extended_left_tang_core] right_rank_dim
  else if core_idx =? ndims - 1 then
    proj_core ← getvar proj_core;
    tf_.concat [extended_right_tang_core; proj_core] left_rank_dim
  else
    rank_1 ← getitem right_tangent_tt_ranks core_idx;
    rank_2 ← getitem left_tangent_tt_ranks (core_idx + 1);
    shape ←
      (if matrix_cores then
         row ← getitem raw_shape 0;
         mode_size_n ← getitem row core_idx;
         row ← getitem raw_shape 1;
         mode_size_m ← getitem row core_idx;
         mret [rank_1; mode_size_n; mode_size_m; rank_2]
       else
         row ← getitem raw_shape 0;
         mode_size ← getitem row core_idx;
         mret [rank_1; mode_size; rank_2]);
    let shape := if output_is_batch then output_batch_size :: shape
                 else shape in
    zeros ← tf_.zeros shape;
    upper ← tf_.concat [extended_right_tang_core; zeros] right_rank_dim;
    proj_core ← getvar proj_core;
    lower ← tf_.concat [proj_core; extended_left_tang_core] right_rank_dim;
    tf_.concat [upper; lower] left_rank_dim.

(** The value returned (lines 178-182, 338-342, 488-492).  Modelled from the
    spec: the constructors take the cores and the raw shape of [where]; the
    element type is the one the cores share.  [make_result] is the object
    as it is handed to the constructor; the validation the constructors
    of the TT containers run on it is [constructor_accepts], applied by
    [constructed]: it refuses what the functions build with one mode. *)
Definition make_result (output_is_batch : bool) (output_batch_size : nat)
    (res_cores_list : list tensor) (where_ : tt_object) : tt_object :=
  if output_is_batch then
    TensorTrainBatch res_cores_list (get_raw_shape where_) output_batch_size
      (dtype where_)
  else TensorTrain res_cores_list (get_raw_shape where_) (dtype where_).

(** *** [project_sum] *)

(** The projection core of [project_sum] (lines 111-133). *)
Definition project_sum_proj_core (ndims core_idx : nat)
    (mode_str another_mode_str output_batch_str : string)
    (weights : option tensor) (lhs rhs : list (option tensor))
    (tens_core left_tang_core : tensor) : tf (option tensor) :=
  proj_core ←
    (if core_idx <? ndims - 1 then
       let einsum_str := Str.format "sad,sd{0}b,sbc->sa{0}c" [mode_str] in
       l ← getslot lhs core_idx;
       r ← getslot rhs (core_idx + 1);
       common_term ← tf_.einsum einsum_str [l; tens_core; r];
       let einsum_str :=
         Str.format "a{0}c,b{1}c->a{0}b{1}" [mode_str; another_mode_str] in
       u_proj ← tf_.einsum einsum_str [left_tang_core; left_tang_core];
       match weights with
       | None =>
           proj_core ← tf_.reduce_sum common_term 0;
           let einsum_str :=
             Str.format "a{0}b{1},sa{0}d->b{1}d"
               [mode_str; another_mode_str] in
           t ← tf_.einsum einsum_str [u_proj; common_term];
           proj_core ← tf_.subtract proj_core t;
           mret (Some proj_core)
       | Some weights =>
           let einsum_str :=
             Str.format "sa{0}b,s{1}->{1}a{0}b"
               [mode_str; output_batch_str] in
           proj_core ← tf_.einsum einsum_str [common_term; weights];
           let einsum_str :=
             Str.format "a{0}b{1},sa{0}d,s{2}->{2}b{1}d"
               [mode_str; another_mode_str; output_batch_str] in
           t ← tf_.einsum einsum_str [u_proj; common_term; weights];
           proj_core ← tf_.subtract proj_core t;
           mret (Some proj_core)
       end
     else mret None);
  if core_idx =? ndims - 1 then
    match weights with
    | None =>
        let einsum_str := Str.format "sab,sb{0}c->a{0}c" [mode_str] in
        l ← getslot lhs core_idx;
        proj_core ← tf_.einsum einsum_str [l; tens_core];
        mret (Some proj_core)
    | Some weights =>
        let einsum_str :=
          Str.format "sab,sb{0}c,s{1}->{1}a{0}c"
            [mode_str; output_batch_str] in
        l ← getslot lhs core_idx;
        proj_core ← tf_.einsum einsum_str [l; tens_core; weights];
        mret (Some proj_core)
    end
  else mret proj_core.

(** The rank of the weights decides the kind of the output (lines
    69-73). *)
Definition weights_output_is_batch (weights : option tensor) : bool :=
  match weights with
  | Some weights =>
      let weights_shape := get_shape weights in
      (1 <? length weights_shape) && (1 <? default 0 (weights_shape !! 1))
  | None => false
  end.

(** One turn of the left to right sweep of [project_sum] (lines 106-176);
    no turn reads the [proj_core] an earlier turn has bound, since one of
    the two guards holds at every index of [range(ndims)]. *)
Definition project_sum_step (what where_ : tt_object)
    (left_tangent_space_tens right_tangent_space_tens : tt_object)
    (weights : option tensor) (lhs rhs : list (option tensor))
    (core_idx : nat) (res_cores_list : list tensor) : tf (list tensor) :=
  let ndims := ndims where_ in
  let raw_shape := lazy_raw_shape where_ in
  let right_tangent_tt_ranks := lazy_tt_ranks right_tangent_space_tens in
  let left_tangent_tt_ranks := lazy_tt_ranks left_tangent_space_tens in
  let mode_str := if is_tt_matrix where_ then "ij" else "i" in
  let another_mode_str := if is_tt_matrix where_ then "rt" else "r" in
  let right_rank_dim := if is_tt_matrix where_ then 3 else 2 in
  let left_rank_dim := 0 in
  let output_is_batch := weights_output_is_batch weights in
  let output_batch_str := if output_is_batch then "o" else "" in
  let right_rank_dim :=
    if output_is_batch then right_rank_dim + 1 else right_rank_dim in
  let left_rank_dim := if output_is_batch then 1 else left_rank_dim in
  let output_batch_size :=
    default 0 (weights ≫= λ w, get_shape w !! 1) in
  tens_core ← getitem (tt_cores what) core_idx;
  left_tang_core ← getitem (tt_cores left_tangent_space_tens) core_idx;
  right_tang_core ← getitem (tt_cores right_tangent_space_tens) core_idx;
  proj_core ← project_sum_proj_core ndims core_idx mode_str another_mode_str
    output_batch_str weights lhs rhs tens_core left_tang_core;
  '(extended_left_tang_core, extended_right_tang_core) ←
    extend_tangent_cores output_is_batch (is_tt_matrix where_)
      output_batch_size left_tang_core right_tang_core;
  res_core ← assemble_core output_is_batch (is_tt_matrix where_)
    output_batch_size ndims core_idx raw_shape right_tangent_tt_ranks
    left_tangent_tt_ranks right_rank_dim left_rank_dim proj_core
    extended_left_tang_core extended_right_tang_core;
  mret (res_cores_list ++ [res_core]).

(** [weights] is passed as a [tf.Tensor]: on it [tf.convert_to_tensor]
    (lines 33-34) adds no node and returns its argument.  A Python list of
    numbers, which that call turns into a constant, is outside this
    model. *)
Definition project_sum (what where_ : tt_object) (weights : option tensor)
  : tf tt_object :=
  what ← expand_batch_dim what;
  _ ← check_arguments what where_;
  let left_tangent_space_tens := orthogonalize_tt_cores where_ true in
  let right_tangent_space_tens :=
    orthogonalize_tt_cores left_tangent_space_tens false in
  let ndims := ndims where_ in
  batch_size ← lazy_batch_size what;
  let mode_str := if is_tt_matrix where_ then "ij" else "i" in
  let output_is_batch := weights_output_is_batch weights in
  let output_batch_size :=
    default 0 (weights ≫= λ w, get_shape w !! 1) in
  rhs ← prepare_rhs what right_tangent_space_tens ndims batch_size mode_str;
  lhs ← prepare_lhs what left_tangent_space_tens ndims batch_size mode_str;
  res_cores_list ←
    for_ (range ndims)
      (project_sum_step what where_ left_tangent_space_tens
         right_tangent_space_tens weights lhs rhs) [];
  mret (make_result output_is_batch output_batch_size res_cores_list where_).

(** *** [project] *)

(** The projection core of [project] (lines 277-293). *)
Definition project_proj_core (ndims core_idx : nat) (mode_str : string)
    (output_is_batch : bool) (lhs rhs : list (option tensor))
    (tens_core left_tang_core : tensor) : tf (option tensor) :=
  proj_core ←
    (if core_idx <? ndims - 1 then
       let einsum_str := Str.format "sab,sb{0}c->sa{0}c" [mode_str] in
       l ← getslot lhs core_idx;
       proj_core ← tf_.einsum einsum_str [l; tens_core];
       let einsum_str := Str.format "a{0}b,sbc->sa{0}c" [mode_str] in
       l' ← getslot lhs (core_idx + 1);
       t ← tf_.einsum einsum_str [left_tang_core; l'];
       proj_core ← tf_.subtract proj_core t;
       let einsum_str :=
         if output_is_batch
         then Str.format "sa{0}b,sbc->sa{0}c" [mode_str]
         else Str.format "sa{0}b,sbc->a{0}c" [mode_str] in
       r ← getslot rhs (core_idx + 1);
       proj_core ← tf_.einsum einsum_str [proj_core; r];
       mret (Some proj_core)
     else mret None);
  if core_idx =? ndims - 1 then
    let einsum_str :=
      if output_is_batch
      then Str.format "sab,sb{0}c->sa{0}c" [mode_str]
      else Str.format "sab,sb{0}c->a{0}c" [mode_str] in
    l ← getslot lhs core_idx;
    proj_core ← tf_.einsum einsum_str [l; tens_core];
    mret (Some proj_core)
  else mret proj_core.

(** One turn of the left to right sweep of [project] (lines 272-336).
    [what] is the batch made of the argument, [output_is_batch] and
    [output_batch_size] were read off the argument itself. *)
Definition project_step (what where_ : tt_object)
    (left_tangent_space_tens right_tangent_space_tens : tt_object)
    (output_is_batch : bool) (output_batch_size : nat)
    (lhs rhs : list (option tensor))
    (core_idx : nat) (res_cores_list : list tensor) : tf (list tensor) :=
  let ndims := ndims where_ in
  let raw_shape := lazy_raw_shape where_ in
  let right_tangent_tt_ranks := lazy_tt_ranks right_tangent_space_tens in
  let left_tangent_tt_ranks := lazy_tt_ranks left_tangent_space_tens in
  let mode_str := if is_tt_matrix where_ then "ij" else "i" in
  let right_rank_dim := if is_tt_matrix where_ then 3 else 2 in
  let left_rank_dim := 0 in
  let right_rank_dim :=
    if output_is_batch then right_rank_dim + 1 else right_rank_dim in
  let left_rank_dim := if output_is_batch then 1 else left_rank_dim in
  tens_core ← getitem (tt_cores what) core_idx;
  left_tang_core ← getitem (tt_cores left_tangent_space_tens) core_idx;
  right_tang_core ← getitem (tt_cores right_tangent_space_tens) core_idx;
  proj_core ← project_proj_core ndims core_idx mode_str output_is_batch
    lhs rhs tens_core left_tang_core;
  '(extended_left_tang_core, extended_right_tang_core) ←
    extend_tangent_cores output_is_batch (is_tt_matrix where_)
      output_batch_size left_tang_core right_tang_core;
  res_core ← assemble_core output_is_batch (is_tt_matrix where_)
    output_batch_size ndims core_idx raw_shape right_tangent_tt_ranks
    left_tangent_tt_ranks right_rank_dim left_rank_dim proj_core
    extended_left_tang_core extended_right_tang_core;
  mret (res_cores_list ++ [res_core]).

(** [what.batch_size] (line 241), read only when [what] is a batch. *)
Definition batch_size_attr (tt : tt_object) : nat :=
  match tt with TensorTrainBatch _ _ b _ => b | TensorTrain _ _ _ => 0 end.

Definition project (what where_ : tt_object) : tf tt_object :=
  _ ← check_arguments what where_;
  let left_tangent_space_tens := orthogonalize_tt_cores where_ true in
  let right_tangent_space_tens :=
    orthogonalize_tt_cores left_tangent_space_tens false in
  let ndims := ndims where_ in
  batch_size ← lazy_batch_size what;
  let mode_str := if is_tt_matrix where_ then "ij" else "i" in
  let output_is_batch := is_TensorTrainBatch what in
  let output_batch_size := batch_size_attr what in
  what ← expand_batch_dim what;
  rhs ← prepare_rhs what right_tangent_space_tens ndims batch_size mode_str;
  lhs ← prepare_lhs what left_tangent_space_tens ndims batch_size mode_str;
  res_cores_list ←
    for_ (range ndims)
      (project_step what where_ left_tangent_space_tens
         right_tangent_space_tens output_is_batch output_batch_size
         lhs rhs) [];
  mret (make_result output_is_batch output_batch_size res_cores_list where_).

(** *** [project_matmul] *)

(** "Prepare rhs vectors" (lines 409-416). *)
Definition prepare_rhs_matmul (what right_tangent_space_tens matrix : tt_object)
    (ndims batch_size : nat) : tf (list (option tensor)) :=
  let rhs := replicate (ndims + 1) None in
  ones ← tf_.ones [batch_size; 1; 1; 1];
  rhs ← setitem rhs ndims (Some ones);
  for_ (range_down (ndims - 1) 0) (λ core_idx rhs,
    tens_core ← getitem (tt_cores what) core_idx;
    right_tang_core ← getitem (tt_cores right_tangent_space_tens) core_idx;
    matrix_core ← getitem (tt_cores matrix) core_idx;
    next ← getslot rhs (core_idx + 1);
    t ← tf_.einsum "bije,cikf,sdef,sajkd->sabc"
          [matrix_core; right_tang_core; next; tens_core];
    setitem rhs core_idx (Some t)) rhs.

(** "Prepare lhs vectors" (lines 420-428). *)
Definition prepare_lhs_matmul (what left_tangent_space_tens matrix : tt_object)
    (ndims batch_size : nat) : tf (list (option tensor)) :=
  let lhs := replicate (ndims + 1) None in
  ones ← tf_.ones [batch_size; 1; 1; 1];
  lhs ← setitem lhs 0 (Some ones);
  for_ (range (ndims - 1)) (λ core_idx lhs,
    tens_core ← getitem (tt_cores what) core_idx;
    left_tang_core ← getitem (tt_cores left_tangent_space_tens) core_idx;
    matrix_core ← getitem (tt_cores matrix) core_idx;
    prev ← getslot lhs core_idx;
    t ← tf_.einsum "bije,aikd,sabc,scjkf->sdef"
          [matrix_core; left_tang_core; prev; tens_core];
    setitem lhs (core_idx + 1) (Some t)) lhs.

(** The projection core of [project_matmul] (lines 438-450). *)
Definition project_matmul_proj_core (ndims core_idx : nat)
    (lhs rhs : list (option tensor))
    (tens_core matrix_core left_tang_core : tensor) : tf (option tensor) :=
  proj_core ←
    (if core_idx <? ndims - 1 then
       l ← getslot lhs core_idx;
       proj_core ← tf_.einsum "scjke,sabc,bijd->saikde"
                     [tens_core; l; matrix_core];
       l' ← getslot lhs (core_idx + 1);
       t ← tf_.einsum "aikb,sbcd->saikcd" [left_tang_core; l'];
       proj_core ← tf_.subtract proj_core t;
       r ← getslot rhs (core_idx + 1);
       proj_core ← tf_.einsum "saikcb,sbcd->saikd" [proj_core; r];
       mret (Some proj_core)
     else mret None);
  if core_idx =? ndims - 1 then
    l ← getslot lhs core_idx;
    proj_core ← tf_.einsum "sabc,bijd,scjke->saike"
                  [l; matrix_core; tens_core];
    mret (Some proj_core)
  else mret proj_core.

(** One turn of the left to right sweep of [project_matmul] (lines
    432-485). *)
Definition project_matmul_step (what where_ matrix : tt_object)
    (left_tangent_space_tens right_tangent_space_tens : tt_object)
    (output_is_batch : bool) (output_batch_size : nat)
    (lhs rhs : list (option tensor))
    (core_idx : nat) (res_cores_list : list tensor) : tf (list tensor) :=
  let ndims := ndims where_ in
  let raw_shape := lazy_raw_shape where_ in
  let right_tangent_tt_ranks := lazy_tt_ranks right_tangent_space_tens in
  let left_tangent_tt_ranks := lazy_tt_ranks left_tangent_space_tens in
  let right_rank_dim := 3 in
  let left_rank_dim := 0 in
  let right_rank_dim :=
    if output_is_batch then right_rank_dim + 1 else right_rank_dim in
  let left_rank_dim := if output_is_batch then 1 else left_rank_dim in
  tens_core ← getitem (tt_cores what) core_idx;
  matrix_core ← getitem (tt_cores matrix) core_idx;
  left_tang_core ← getitem (tt_cores left_tangent_space_tens) core_idx;
  right_tang_core ← getitem (tt_cores right_tangent_space_tens) core_idx;
  proj_core ← project_matmul_proj_core ndims core_idx lhs rhs tens_core
    matrix_core left_tang_core;
  '(extended_left_tang_core, extended_right_tang_core) ←
    extend_tangent_cores output_is_batch true output_batch_size
      left_tang_core right_tang_core;
  res_core ← assemble_core output_is_batch true output_batch_size ndims
    core_idx raw_shape right_tangent_tt_ranks left_tangent_tt_ranks
    right_rank_dim left_rank_dim proj_core extended_left_tang_core
    extended_right_tang_core;
  mret (res_cores_list ++ [res_core]).

Definition project_matmul (what where_ matrix : tt_object) : tf tt_object :=
  _ ← check_arguments what where_;
  let left_tangent_space_tens := orthogonalize_tt_cores where_ true in
  let right_tangent_space_tens :=
    orthogonalize_tt_cores left_tangent_space_tens false in
  let ndims := ndims where_ in
  batch_size ← lazy_batch_size what;
  let output_is_batch := is_TensorTrainBatch what in
  let output_batch_size := batch_size_attr what in
  what ← expand_batch_dim what;
  rhs ← prepare_rhs_matmul what right_tangent_space_tens matrix ndims
    batch_size;
  lhs ← prepare_lhs_matmul what left_tangent_space_tens matrix ndims
    batch_size;
  res_cores_list ←
    for_ (range ndims)
      (project_matmul_step what where_ matrix left_tangent_space_tens
         right_tangent_space_tens output_is_batch output_batch_size
         lhs rhs) [];
  mret (make_result output_is_batch output_batch_size res_cores_list where_).

End Riemannian.

(** * Specification vocabulary *)

(** [returns m P]: the computation [m] returns (it does not raise) and its
    value satisfies [P]. *)
Definition returns {A} (m : tf A) (P : A → Prop) : Prop :=
  ∃ a, outcome m = Ok a ∧ P a.

(** ** Well-formed TT objects *)

Definition batch_prefix (tt : tt_object) : list nat :=
  match tt with
  | TensorTrain _ _ _ => []
  | TensorTrainBatch _ _ b _ => [b]
  end.

(** [rk ranks k] is the rank [r_k]. *)
Definition rk (ranks : list nat) (k : nat) : nat := default 0 (ranks !! k).

Definition mode_sizes (raw : list (list nat)) (k : nat) : list nat :=
  (λ row, default 0 (row !! k)) <$> raw.

(** The shape of core [k]: [(r_k, n_k, r_{k+1})] for a TT-tensor,
    [(r_k, n_k, m_k, r_{k+1})] for a TT-matrix, behind the batch axis. *)
Definition core_shape (pre ranks : list nat) (raw : list (list nat)) (k : nat)
  : shape :=
  pre ++ rk ranks k :: mode_sizes raw k ++ [rk ranks (S k)].

(** Section 3 of the spec: at least one core, one or two rows of mode sizes
    of that length, boundary ranks 1, and every core of the shape its
    neighbours expect. *)
Record tt_wf (tt : tt_object) (ranks : list nat) : Prop := {
  wf_ndims : 0 < ndims tt;
  wf_ranks : length ranks = S (ndims tt);
  wf_first : rk ranks 0 = 1;
  wf_last : rk ranks (ndims tt) = 1;
  wf_raw : length (get_raw_shape tt) = 1 ∨ length (get_raw_shape tt) = 2;
  wf_rows : Forall (λ row, length row = ndims tt) (get_raw_shape tt);
  wf_cores :
    get_shape <$> tt_cores tt
    = core_shape (batch_prefix tt) ranks (get_raw_shape tt) <$> seq 0 (ndims tt)
}.

(** The assignment of dimensions to labels read off the operands. *)
Definition zip_env (ins : list chars) (shapes : list shape) : Shape.dim_env :=
  concat (zip_with zip ins shapes).

Definition has_shape (sh : shape) (o : option tensor) : Prop :=
  ∃ t, o = Some t ∧ get_shape t = sh.

(** The slots of [rhs] from [lo] on hold tensors of shape
    [(batch_size, tensor_rank_k, tangent_rank_k)]. *)
Definition rhs_filled (b d : nat) (tr rr : list nat) (lo : nat)
    (rhs : list (option tensor)) : Prop :=
  length rhs = d + 1 ∧
  ∀ k, lo ≤ k ≤ d →
       ∃ t, rhs !! k = Some (Some t) ∧ get_shape t = [b; rk tr k; rk rr k].

(** The slots of [lhs] up to [hi] hold tensors of shape
    [(batch_size, tangent_rank_k, tensor_rank_k)]. *)
Definition lhs_filled (b d : nat) (lr tr : list nat) (hi : nat)
    (lhs : list (option tensor)) : Prop :=
  length lhs = d + 1 ∧
  ∀ k, k ≤ hi →
       ∃ t, lhs !! k = Some (Some t) ∧ get_shape t = [b; rk lr k; rk tr k].

(** The shape of the projection core at index [k], behind the output batch
    axis [opre]: left tangent rank, mode sizes, right tangent rank. *)
Definition proj_shape (raw : list (list nat)) (lr rr opre : list nat) (k : nat)
  : shape :=
  opre ++ rk lr k :: mode_sizes raw k ++ [rk rr (S k)].

(** The shape of the output core at index [k] of [d]: the ranks of the two
    tangent cores add up on the leading axis, except at the first core, and
    on the trailing axis, except at a last core that is not the first. *)
Definition res_shape (raw : list (list nat)) (d : nat) (lr rr opre : list nat)
    (k : nat) : shape :=
  opre ++ (if k =? 0 then 1 else rk rr k + rk lr k)
       :: mode_sizes raw k
       ++ [if (0 <? k) && (k =? d - 1) then 1
           else rk rr (S k) + rk lr (S k)].

(** The first [j] output cores have been assembled. *)
Definition cores_ok (raw : list (list nat)) (d : nat) (lr rr opre : list nat)
    (j : nat) (res : list tensor) : Prop :=
  length res = j ∧
  ∀ k, k < j → ∃ c, res !! k = Some c ∧ get_shape c = res_shape raw d lr rr opre k.

(** The weights [project_sum] accepts for a batch of size [b]: none, one per
    batch element, or a [b x O] array with at least two columns. *)
Definition weights_ok (b : nat) (weights : option tensor) : Prop :=
  match weights with
  | None => True
  | Some w => get_shape w = [b] ∨ ∃ n, 2 ≤ n ∧ get_shape w = [b; n]
  end.

(** The batch axis of the output of [project_sum]. *)
Definition output_prefix (weights : option tensor) : list nat :=
  if weights_output_is_batch weights
  then [default 0 (weights ≫= λ w, get_shape w !! 1)] else [].

(** What the orthogonal basis provider must return for [where_]: a plain TT
    object of the same raw shape, with ranks of its own. *)
Definition tangent_of (where_ t : tt_object) (ranks : list nat) : Prop :=
  is_TensorTrain t = true ∧ get_raw_shape t = get_raw_shape where_ ∧
  tt_wf t ranks.

(** The batch size of [what] once it is promoted to a batch. *)
Definition promoted_batch_size (what : tt_object) : nat :=
  match what with
  | TensorTrain _ _ _ => 1
  | TensorTrainBatch _ _ b _ => b
  end.

(** The output of a projection onto the tangent space at [where_], with left
    and right tangent ranks [lr] and [rr] and output batch axis [opre]. *)
Definition projected (where_ : tt_object) (lr rr opre : list nat)
    (r : tt_object) : Prop :=
  batch_prefix r = opre ∧ get_raw_shape r = get_raw_shape where_ ∧
  cores_ok (get_raw_shape where_) (ndims where_) lr rr opre (ndims where_)
    (tt_cores r).

(** The slots of [rhs] and [lhs] in [project_matmul] carry the rank of the
    matrix as one more axis. *)
Definition rhs_filled_matmul (b d : nat) (tr mr rr : list nat) (lo : nat)
    (rhs : list (option tensor)) : Prop :=
  length rhs = d + 1 ∧
  ∀ k, lo ≤ k ≤ d →
       ∃ t, rhs !! k = Some (Some t) ∧
            get_shape t = [b; rk tr k; rk mr k; rk rr k].

Definition lhs_filled_matmul (b d : nat) (lr mr tr : list nat) (hi : nat)
    (lhs : list (option tensor)) : Prop :=
  length lhs = d + 1 ∧
  ∀ k, k ≤ hi →
       ∃ t, lhs !! k = Some (Some t) ∧
            get_shape t = [b; rk lr k; rk mr k; rk tr k].

(** ** The three public operations as one interface *)

Inductive call : Type :=
| Project (what where_ : tt_object)
| ProjectSum (what where_ : tt_object) (weights : option tensor)
| ProjectMatmul (what where_ matrix : tt_object).

Definition call_what (c : call) : tt_object :=
  match c with
  | Project what _ | ProjectSum what _ _ | ProjectMatmul what _ _ => what
  end.

Definition call_where (c : call) : tt_object :=
  match c with
  | Project _ where_ | ProjectSum _ where_ _ | ProjectMatmul _ where_ _ =>
      where_
  end.

Definition run (orthogonalize_tt_cores : tt_object → bool → tt_object)
    (plain_batch_size : option nat) (c : call) : tf tt_object :=
  match c with
  | Project what where_ =>
      project orthogonalize_tt_cores plain_batch_size what where_
  | ProjectSum what where_ weights =>
      project_sum orthogonalize_tt_cores plain_batch_size what where_ weights
  | ProjectMatmul what where_ matrix =>
      project_matmul orthogonalize_tt_cores plain_batch_size what where_ matrix
  end.

(** A TT-matrix whose row and column mode sizes are both the row mode sizes
    of [what]. *)
Definition matrix_for (what matrix : tt_object) : Prop :=
  ∃ ns ms mr, get_raw_shape what = [ns; ms] ∧ tt_wf matrix mr ∧
              batch_prefix matrix = [] ∧ get_raw_shape matrix = [ns; ns].

(** Core [k] of [matrix] is a four-axis core whose row and column mode
    sizes are both [ns !! k]. *)
Definition matrix_core_fits (matrix : tt_object) (ns : list nat) (k : nat) : bool :=
  match tt_cores matrix !! k with
  | Some c =>
      match get_shape c with
      | [_; i; j; _] =>
          (i =? default 0 (ns !! k)) && (j =? default 0 (ns !! k))
      | _ => false
      end
  | None => false
  end.

(** What each operation needs beside the shared contract: [project] on a
    plain [what] needs the batch-size helper to answer 1, which the helper
    as it runs ([plain_batch_size = None]) never does, so that there the
    valid calls of [project] are those on a batch; [project_sum] needs
    weights that fit the batch; [project_matmul] needs a batch and a
    matching matrix. *)
Definition call_extra (plain_batch_size : option nat) (c : call) : Prop :=
  match c with
  | Project what _ => is_TensorTrain what = true → plain_batch_size = Some 1
  | ProjectSum what _ weights => weights_ok (promoted_batch_size what) weights
  | ProjectMatmul what _ matrix =>
      is_TensorTrainBatch what = true ∧ matrix_for what matrix
  end.

(** The shared contract of section 4.1 on well-formed TT objects. *)
Record valid_call (plain_batch_size : option nat) (c : call) : Prop := {
  valid_where_plain : is_TensorTrain (call_where c) = true;
  valid_where_wf : ∃ wr, tt_wf (call_where c) wr;
  valid_what_wf : ∃ tr, tt_wf (call_what c) tr;
  valid_same_raw : get_raw_shape (call_where c) = get_raw_shape (call_what c);
  valid_same_dtype :
    is_compatible_with (dtype (call_where c)) (dtype (call_what c)) = true;
  valid_extra : call_extra plain_batch_size c
}.

(** The batch axis of the value an operation returns. *)
Definition call_output_prefix (c : call) : list nat :=
  match c with
  | Project what _ | ProjectMatmul what _ _ =>
      if is_TensorTrainBatch what then [batch_size_attr what] else []
  | ProjectSum _ _ weights => output_prefix weights
  end.



(** The TT-ranks of a projection for [d >= 2]: 1 at both ends, and at every
    interior cut the right tangent rank plus the left tangent rank of that
    same cut. *)
Definition tangent_sum_ranks (d : nat) (lr rr : list nat) : list nat :=
  (λ k, if (k =? 0) || (k =? d) then 1 else rk rr k + rk lr k) <$> seq 0 (S d).

(** A decision procedure for [tt_wf], for concrete TT objects. *)
Definition tt_wf_check (tt : tt_object) (ranks : list nat) : bool :=
  (0 <? ndims tt) && (length ranks =? S (ndims tt)) && (rk ranks 0 =? 1)
  && (rk ranks (ndims tt) =? 1)
  && ((length (get_raw_shape tt) =? 1) || (length (get_raw_shape tt) =? 2))
  && forallb (λ row, length row =? ndims tt) (get_raw_shape tt)
  && bool_decide
       (get_shape <$> tt_cores tt
        = core_shape (batch_prefix tt) ranks (get_raw_shape tt)
            <$> seq 0 (ndims tt)).

(** ** Sample arguments *)

Module Sample.

Local Open Scope string_scope.

(** Cores that the caller feeds, named after the argument and the index. *)
Definition cores (name : string) (shapes : list shape) : list tensor :=
  imap (λ i sh, Placeholder (name ++ String (ascii_of_nat (48 + i)) "") sh)
    shapes.

(** A stand-in for the orthogonal basis provider that keeps the cores:
    on a point whose TT-ranks are already minimal, orthogonalisation
    changes the entries of the cores and not their shapes. *)
Definition keep_cores (tt : tt_object) (left_to_right : bool) : tt_object :=
  tt.

(** The scenario of section 8: mode sizes [2,3,2], ranks [1,2,2,1]. *)
Definition where_232 : tt_object :=
  TensorTrain (cores "where" [[1; 2; 2]; [2; 3; 2]; [2; 2; 1]]) [[2; 3; 2]]
    float32.

Definition what_232 : tt_object :=
  TensorTrain (cores "what" [[1; 2; 3]; [3; 3; 3]; [3; 2; 1]]) [[2; 3; 2]]
    float32.

Definition what_batch_232 : tt_object :=
  TensorTrainBatch
    (cores "what" [[4; 1; 2; 3]; [4; 3; 3; 3]; [4; 3; 2; 1]]) [[2; 3; 2]] 4
    float32.

(** Two modes. *)
Definition where_23 : tt_object :=
  TensorTrain (cores "where" [[1; 2; 2]; [2; 3; 1]]) [[2; 3]] float32.

Definition what_batch_23 : tt_object :=
  TensorTrainBatch (cores "what" [[4; 1; 2; 3]; [4; 3; 3; 1]]) [[2; 3]] 4
    float32.

(** A one-mode TT-tensor: a vector of length 2 held in one core. *)
Definition where_2 : tt_object :=
  TensorTrain (cores "where" [[1; 2; 1]]) [[2]] float32.

(** TT-matrices: a point, a perturbation (plain and as a batch), and an
    identity matrix of matching mode sizes, whose TT-ranks are all 1. *)
Definition where_matrix : tt_object :=
  TensorTrain (cores "where" [[1; 2; 2; 2]; [2; 3; 3; 2]; [2; 2; 2; 1]])
    [[2; 3; 2]; [2; 3; 2]] float32.

Definition what_matrix : tt_object :=
  TensorTrain (cores "what" [[1; 2; 2; 3]; [3; 3; 3; 3]; [3; 2; 2; 1]])
    [[2; 3; 2]; [2; 3; 2]] float32.

Definition what_matrix_batch : tt_object :=
  TensorTrainBatch
    (cores "what"
       [[4; 1; 2; 2; 3]; [4; 3; 3; 3; 3]; [4; 3; 2; 2; 1]])
    [[2; 3; 2]; [2; 3; 2]] 4 float32.

Definition identity_matrix : tt_object :=
  TensorTrain (cores "eye" [[1; 2; 2; 1]; [1; 3; 3; 1]; [1; 2; 2; 1]])
    [[2; 3; 2]; [2; 3; 2]] float32.

(** A matrix whose first core has column mode size 5 instead of 2. *)
Definition ill_sized_matrix : tt_object :=
  TensorTrain (cores "matrix" [[1; 2; 5; 1]; [1; 3; 3; 1]; [1; 2; 2; 1]])
    [[2; 3; 2]; [5; 3; 2]] float32.

(** The accumulators of the sweeps over the two-mode arguments. *)
Definition slots (m : tf (list (option tensor))) : list (option tensor) :=
  match outcome m with Ok l => l | Raise _ => [] end.

Definition rhs_23 : list (option tensor) :=
  slots (prepare_rhs what_batch_23 where_23 2 4 "i").

Definition lhs_23 : list (option tensor) :=
  slots (prepare_lhs what_batch_23 where_23 2 4 "i").

End Sample.

(** ** Failures *)

(** The three failures of the argument checks of section 4.1. *)
Definition is_argument_error (e : error) : bool :=
  match e with
  | NotATensorTrain _ | ShapesDoNotMatch _ _ | DtypesDoNotCoincide _ _ => true
  | _ => false
  end.

(** [m] raises [e], and no contraction was added to the graph before. *)
Definition fails_before_contracting {A} (m : tf A) (e : error) : Prop :=
  outcome m = Raise e ∧ Forall (λ o, is_contraction o = false) (graph m).

(** Whatever [m] raises satisfies [P]. *)
Definition raises_only {A} (P : error → Prop) (m : tf A) : Prop :=
  ∀ e, outcome m = Raise e → P e.

(** Whatever [m] adds to the graph satisfies [P], whether it returns or
    raises. *)
Definition adds_only {A} (P : tf_op → Prop) (m : tf A) : Prop :=
  Forall P (graph m).

Definition not_argument_error (e : error) : Prop := is_argument_error e = false.

(** Whenever [m] returns, it has added [op] to the graph. *)
Definition adds {A} (op : tf_op) (m : tf A) : Prop :=
  ∀ a, outcome m = Ok a → op ∈ graph m.

(** ** The operations a call builds *)












(** ** What is built before the checks *)

(** The nodes the promotion of [what] to a batch adds: one [expand_dims] per
    core of a plain [what], none for a batch. *)
Definition promotion_nodes (what : tt_object) : list tf_op :=
  if is_TensorTrain what then replicate (ndims what) OpExpandDims else [].

(** What an operation has added to the graph when its checks run:
    [project_sum] has promoted [what] (line 31), [project] and
    [project_matmul] have done nothing yet. *)
Definition built_before_checks (c : call) : list tf_op :=
  match c with
  | ProjectSum what _ _ => promotion_nodes what
  | Project _ _ | ProjectMatmul _ _ _ => []
  end.

(** ** The constructors of the TT containers *)

(** Modelled from the spec: the constructors [TensorTrain] and
    [TensorTrainBatch] are not part of riemannian.py; they accept cores that
    meet the invariants of section 3 (boundary ranks 1, consecutive cores
    that agree on the rank between them, mode sizes of the raw shape) and
    raise on any others. *)
Definition constructor_accepts (r : tt_object) : bool :=
  tt_wf_check r (lazy_tt_ranks r).

(** An operation followed by the validation of the object it hands to the
    constructor in its [return] statement. *)
Definition constructed (m : tf tt_object) : tf tt_object :=
  r ← m; if constructor_accepts r then mret r else raise CoresNotValid.

(** * Properties *)

(** ** The [tf] monad *)

Section Monad.

Context {A B : Type}.
Implicit Types (m : tf A) (f : A → tf B).

Lemma outcome_ret (a : A) : outcome (mret a) = Ok a.
Proof. reflexivity. Qed.

Lemma outcome_bind_ok m f a :
  outcome m = Ok a → outcome (m ≫= f) = outcome (f a).
Proof.
  destruct m as [[a'|e] ops]; cbn; intros [= ->].
  unfold mbind, tf_bind, outcome. by destruct (f a).
Qed.

Lemma outcome_bind_raise m f e :
  outcome m = Raise e → outcome (m ≫= f) = Raise e.
Proof. destruct m as [[a'|e'] ops]; cbn; by intros [= ->]. Qed.

Lemma outcome_bind_inv m f b :
  outcome (m ≫= f) = Ok b → ∃ a, outcome m = Ok a ∧ outcome (f a) = Ok b.
Proof.
  destruct m as [[a|e] ops]; unfold mbind, tf_bind, outcome; cbn.
  - destruct (f a) eqn:E; cbn. intros ->. exists a. by rewrite E.
  - discriminate.
Qed.

Lemma graph_bind_ok m f a :
  outcome m = Ok a → graph (m ≫= f) = graph m ++ graph (f a).
Proof.
  destruct m as [[a'|e] ops]; cbn; intros [= ->].
  unfold mbind, tf_bind, graph. by destruct (f a).
Qed.

Lemma graph_bind_raise m f e :
  outcome m = Raise e → graph (m ≫= f) = graph m.
Proof. destruct m as [[a'|e'] ops]; cbn; by intros [= ->]. Qed.

End Monad.

Lemma outcome_raise {A} (e : error) : outcome (@raise A e) = Raise e.
Proof. reflexivity. Qed.

(** ** Shape inference of [tf.einsum] is sound and complete *)

Module ShapeFacts.
Import Shape.

(** [labelled e ls sh]: under [e] the labels [ls] name the axes [sh]. *)
Definition labelled (e : dim_env) (ls : chars) (sh : shape) : Prop :=
  Forall2 (λ l d, env_lookup l e = Some d) ls sh.

Definition extends (e e' : dim_env) : Prop :=
  ∀ l d, env_lookup l e = Some d → env_lookup l e' = Some d.

(** Every output label occurs in some operand. *)
Definition covered (ins : list chars) (out : chars) : bool :=
  forallb (λ l, existsb (λ ls, existsb (Ascii.eqb l) ls) ins) out.

Lemma extends_refl e : extends e e.
Proof. by intros l d. Qed.

Lemma extends_trans e1 e2 e3 : extends e1 e2 → extends e2 e3 → extends e1 e3.
Proof. intros H1 H2 l d ?. eauto. Qed.

Lemma labelled_extends e e' ls sh :
  extends e e' → labelled e ls sh → labelled e' ls sh.
Proof. intros He H. eapply Forall2_impl; [exact H|]. cbn. eauto. Qed.

Lemma extends_fresh e l d : env_lookup l e = None → extends e ((l, d) :: e).
Proof.
  intros Hl l0 d0 H0. cbn. destruct (Ascii.eqb l0 l) eqn:E; [|done].
  apply Ascii.eqb_eq in E. congruence.
Qed.

Lemma env_lookup_head e l d : env_lookup l ((l, d) :: e) = Some d.
Proof. cbn. by rewrite Ascii.eqb_refl. Qed.

Lemma bind_axes_sound ls : ∀ ds e e',
  bind_axes ls ds e = Some e' → extends e e' ∧ labelled e' ls ds.
Proof.
  induction ls as [|l ls IH]; intros [|d ds] e e'; cbn; try discriminate.
  - intros [= ->]. split; [apply extends_refl | constructor].
  - destruct (env_lookup l e) as [d'|] eqn:El.
    + destruct (d =? d') eqn:Ed; [|discriminate].
      apply Nat.eqb_eq in Ed as ->. intros H.
      destruct (IH _ _ _ H) as [Hx Hl]. split; [done|].
      constructor; [by apply Hx | done].
    + intros H. destruct (IH _ _ _ H) as [Hx Hl]. split.
      * eapply extends_trans; [by apply extends_fresh | done].
      * constructor; [apply Hx, env_lookup_head | done].
Qed.

Lemma bind_inputs_sound ins : ∀ shapes e e',
  bind_inputs ins shapes e = Some e' →
  extends e e' ∧ Forall2 (labelled e') ins shapes.
Proof.
  induction ins as [|ls ins IH]; intros [|sh shapes] e e'; cbn;
    try discriminate.
  - intros [= ->]. split; [apply extends_refl | constructor].
  - destruct (bind_axes ls sh e) as [e1|] eqn:E1; cbn; [|discriminate].
    intros H. destruct (bind_axes_sound _ _ _ _ E1) as [Hx1 Hl1].
    destruct (IH _ _ _ H) as [Hx Hl]. split.
    + by eapply extends_trans.
    + constructor; [by eapply labelled_extends | done].
Qed.

(** Soundness: an inferred shape comes with one assignment of dimensions
    to labels that explains every operand and the result. *)
Lemma einsum_sound equation shapes sh :
  einsum equation shapes = Some sh →
  ∃ ins out e,
    parse_equation equation = Some (ins, out) ∧
    Forall2 (labelled e) ins shapes ∧ labelled e out sh.
Proof.
  unfold einsum, einsum_env.
  destruct (parse_equation equation) as [[ins out]|]; cbn; [|discriminate].
  destruct (bind_inputs ins shapes []) as [e|] eqn:E; cbn; [|discriminate].
  intros H. exists ins, out, e. split; [done|].
  split; [by apply bind_inputs_sound in E as [_ ?]|].
  by apply mapM_Some in H.
Qed.

Lemma bind_axes_complete σ ls : ∀ ds e,
  labelled σ ls ds → extends e σ →
  ∃ e', bind_axes ls ds e = Some e' ∧ extends e' σ ∧ extends e e' ∧
        ∀ l, l ∈ ls → is_Some (env_lookup l e').
Proof.
  induction ls as [|l ls IH]; intros ds e Hl He; inversion Hl as [|? d ? ds' Hd Hl']; subst.
  - exists e. repeat split; [done | apply extends_refl |].
    intros l Hin. by apply elem_of_nil in Hin.
  - cbn. destruct (env_lookup l e) as [d'|] eqn:El.
    + apply He in El as El'. assert (d' = d) as -> by congruence.
      rewrite Nat.eqb_refl.
      destruct (IH _ _ Hl' He) as (e' & Hb & H1 & H2 & H3).
      exists e'. repeat split; [done..|].
      intros l0 [->|Hin]%elem_of_cons; [|by apply H3].
      exists d. by apply H2.
    + assert (extends ((l, d) :: e) σ) as He'.
      { intros l0 d0. cbn. destruct (Ascii.eqb l0 l) eqn:E.
        - apply Ascii.eqb_eq in E as ->. by intros [= <-].
        - apply He. }
      destruct (IH _ _ Hl' He') as (e' & Hb & H1 & H2 & H3).
      exists e'. repeat split; [done..| |].
      * eapply extends_trans; [by apply extends_fresh | done].
      * intros l0 [->|Hin]%elem_of_cons; [|by apply H3].
        exists d. apply H2, env_lookup_head.
Qed.

Lemma bind_inputs_complete σ ins : ∀ shapes e,
  Forall2 (labelled σ) ins shapes → extends e σ →
  ∃ e', bind_inputs ins shapes e = Some e' ∧ extends e' σ ∧
        ∀ ls l, ls ∈ ins → l ∈ ls → is_Some (env_lookup l e').
Proof.
  induction ins as [|ls ins IH]; intros shapes e Hl He;
    inversion Hl as [|? sh ? shapes' Hsh Hl']; subst.
  - exists e. repeat split; [done|].
    intros ls l Hin. by apply elem_of_nil in Hin.
  - cbn. destruct (bind_axes_complete σ ls sh e Hsh He)
      as (e1 & -> & H1 & H2 & H3). cbn.
    destruct (IH _ _ Hl' H1) as (e' & Hb & H4 & H5).
    exists e'. repeat split; [done..|].
    intros ls0 l [->|Hin]%elem_of_cons Hl0; [|by eapply H5].
    destruct (H3 _ Hl0) as [d Hd].
    apply bind_inputs_sound in Hb as [Hx _]. exists d. by apply Hx.
Qed.

(** Completeness: operands that agree with one assignment are accepted,
    and the result is read off that assignment. *)
Lemma einsum_complete σ equation shapes ins out :
  parse_equation equation = Some (ins, out) →
  Forall2 (labelled σ) ins shapes →
  covered ins out = true →
  einsum equation shapes = mapM (λ l, env_lookup l σ) out.
Proof.
  intros Hp Hl Hc. unfold einsum, einsum_env. rewrite Hp. cbn.
  destruct (bind_inputs_complete σ ins shapes [] Hl) as (e & -> & Hx & Hb).
  { by intros l d. }
  cbn. clear Hp Hl. unfold covered in Hc. rewrite forallb_forall in Hc.
  induction out as [|l out IH]; [done|]. cbn.
  assert (env_lookup l e = env_lookup l σ) as ->.
  { specialize (Hc l (or_introl eq_refl)).
    apply existsb_exists in Hc as (ls & Hin & Hc).
    apply existsb_exists in Hc as (l' & Hin' & ->%Ascii.eqb_eq).
    destruct (Hb ls l') as [d Hd]; [by apply list_elem_of_In..|].
    rewrite Hd. symmetry. by apply Hx. }
  rewrite IH; [done|]. intros l0 H0. apply Hc. by right.
Qed.

Lemma broadcast_rev_same sh : broadcast_rev sh sh = Some sh.
Proof.
  induction sh as [|x sh IH]; [done|]. cbn.
  by rewrite Nat.eqb_refl, IH.
Qed.

Lemma broadcast_same sh : broadcast sh sh = Some sh.
Proof.
  unfold broadcast. rewrite broadcast_rev_same. cbn.
  by rewrite reverse_involutive.
Qed.

Lemma concat2_at pre x y post :
  concat2 (pre ++ x :: post) (pre ++ y :: post) (length pre)
  = Some (pre ++ (x + y) :: post).
Proof.
  induction pre as [|p pre IH]; cbn.
  - by rewrite decide_True.
  - by rewrite Nat.eqb_refl, IH.
Qed.

Lemma concat_pair a b axis : concat [a; b] axis = concat2 a b axis.
Proof. cbn. by destruct (concat2 a b axis). Qed.

Lemma tile_batch sh b :
  tile (1 :: sh) (b :: replicate (length sh) 1) = Some (b :: sh).
Proof.
  cbn. rewrite Nat.add_0_r.
  assert (tile sh (replicate (length sh) 1) = Some sh) as ->; [|done].
  induction sh as [|d sh IH]; [done|]. cbn. by rewrite IH, Nat.mul_1_r.
Qed.

Lemma expand_dims_0 sh : expand_dims sh 0 = Some (1 :: sh).
Proof. unfold expand_dims. rewrite decide_True by lia. by rewrite take_0, drop_0. Qed.

Lemma reduce_sum_0 s sh : reduce_sum (s :: sh) 0 = Some sh.
Proof. unfold reduce_sum. by rewrite decide_True by (cbn; lia). Qed.

End ShapeFacts.

(** ** Well-formed TT objects *)

Lemma wf_core tt ranks k :
  tt_wf tt ranks → k < ndims tt →
  ∃ c, tt_cores tt !! k = Some c ∧
       get_shape c = core_shape (batch_prefix tt) ranks (get_raw_shape tt) k.
Proof.
  intros Hwf Hk. destruct (lookup_lt_is_Some_2 (tt_cores tt) k Hk) as [c Hc].
  exists c. split; [done|].
  assert ((get_shape <$> tt_cores tt) !! k = Some (get_shape c)) as H.
  { by rewrite list_lookup_fmap, Hc. }
  rewrite (wf_cores _ _ Hwf), list_lookup_fmap, lookup_seq_lt in H by done.
  by injection H.
Qed.

Lemma rk_lookup ranks k : k < length ranks → ranks !! k = Some (rk ranks k).
Proof.
  intros Hk. unfold rk. by destruct (lookup_lt_is_Some_2 ranks k Hk) as [r ->].
Qed.

Lemma lazy_tt_ranks_wf tt ranks : tt_wf tt ranks → lazy_tt_ranks tt = ranks.
Proof.
  intros Hwf. pose proof (wf_ndims _ _ Hwf) as Hd.
  pose proof (wf_ranks _ _ Hwf) as Hlen.
  assert (rank_axis tt = length (batch_prefix tt)) as Hax by by destruct tt.
  apply list_eq. intros k. unfold lazy_tt_ranks.
  destruct (decide (k < ndims tt)) as [Hk|Hk].
  - rewrite lookup_app_l by (rewrite length_fmap; exact Hk).
    destruct (wf_core _ _ k Hwf Hk) as (c & Hc & Hsh).
    rewrite list_lookup_fmap, Hc. cbn. rewrite Hsh, Hax. unfold core_shape.
    rewrite list_lookup_middle by done. cbn.
    symmetry. apply rk_lookup. lia.
  - rewrite lookup_app_r by (rewrite length_fmap; unfold ndims in Hk; lia).
    rewrite length_fmap. fold (ndims tt).
    destruct (decide (k = ndims tt)) as [->|Hne].
    + rewrite Nat.sub_diag. cbn. rewrite last_lookup. fold (ndims tt).
      destruct (wf_core _ _ (pred (ndims tt)) Hwf) as (c & Hc & Hsh); [lia|].
      rewrite Hc. cbn. rewrite Hsh. unfold core_shape.
      rewrite app_comm_cons, app_assoc, last_snoc. cbn.
      replace (S (pred (ndims tt))) with (ndims tt) by lia.
      symmetry. f_equal. apply rk_lookup. lia.
    + rewrite lookup_ge_None_2 by (cbn; lia).
      symmetry. apply lookup_ge_None_2. lia.
Qed.

(** ** The graph operations and Python helpers, on shapes they accept *)

Lemma add_node_ok op ins sh mk s :
  sh = Some s → outcome (add_node op ins sh mk) = Ok (mk s).
Proof. by intros ->. Qed.

Lemma add_node_inv op ins sh mk t :
  outcome (add_node op ins sh mk) = Ok t → ∃ s, sh = Some s ∧ t = mk s.
Proof. destruct sh as [s|]; cbn; [|done]. intros [= <-]. by exists s. Qed.

Lemma einsum_ok σ equation inputs ins out sh :
  Shape.parse_equation equation = Some (ins, out) →
  Forall2 (ShapeFacts.labelled σ) ins (get_shape <$> inputs) →
  ShapeFacts.covered ins out = true →
  mapM (λ l, Shape.env_lookup l σ) out = Some sh →
  outcome (tf_.einsum equation inputs) = Ok (Einsum sh equation inputs).
Proof.
  intros Hp Hl Hc Ho. unfold tf_.einsum.
  apply (add_node_ok _ _ _ (λ sh, Einsum sh equation inputs)).
  by rewrite (ShapeFacts.einsum_complete σ _ _ ins out).
Qed.

Lemma subtract_ok a b :
  get_shape a = get_shape b →
  outcome (tf_.subtract a b) = Ok (Subtract (get_shape a) a b).
Proof.
  intros H. unfold tf_.subtract.
  apply (add_node_ok _ _ _ (λ sh, Subtract sh a b)).
  rewrite <- H. apply ShapeFacts.broadcast_same.
Qed.

Lemma concat_ok a b pre x y post :
  get_shape a = pre ++ x :: post → get_shape b = pre ++ y :: post →
  outcome (tf_.concat [a; b] (length pre))
  = Ok (Concat (pre ++ (x + y) :: post) [a; b] (length pre)).
Proof.
  intros Ha Hb. unfold tf_.concat.
  apply (add_node_ok _ _ _ (λ sh, Concat sh [a; b] (length pre))).
  change (get_shape <$> [a; b]) with [get_shape a; get_shape b].
  rewrite ShapeFacts.concat_pair, Ha, Hb. apply ShapeFacts.concat2_at.
Qed.

Lemma expand_dims_ok a :
  outcome (tf_.expand_dims a 0) = Ok (ExpandDims (1 :: get_shape a) a 0).
Proof.
  apply (add_node_ok _ _ _ (λ sh, ExpandDims sh a 0)).
  apply ShapeFacts.expand_dims_0.
Qed.

Lemma tile_ok a b sh :
  get_shape a = 1 :: sh →
  outcome (tf_.tile a (b :: replicate (length sh) 1))
  = Ok (Tile (b :: sh) a (b :: replicate (length sh) 1)).
Proof.
  intros H. apply (add_node_ok _ _ _ (λ s, Tile s a _)).
  rewrite H. apply ShapeFacts.tile_batch.
Qed.

Lemma reduce_sum_ok a s sh :
  get_shape a = s :: sh →
  outcome (tf_.reduce_sum a 0) = Ok (ReduceSum sh a 0).
Proof.
  intros H. apply (add_node_ok _ _ _ (λ s, ReduceSum s a 0)).
  rewrite H. apply ShapeFacts.reduce_sum_0.
Qed.

Lemma getitem_ok {A} (l : list A) i x :
  l !! i = Some x → outcome (getitem l i) = Ok x.
Proof. unfold getitem. by intros ->. Qed.

Lemma setitem_ok {A} (l : list A) i x :
  i < length l → outcome (setitem l i x) = Ok (<[i := x]> l).
Proof. intros H. unfold setitem. by rewrite decide_True. Qed.

Lemma getslot_ok (l : list (option tensor)) i t :
  l !! i = Some (Some t) → outcome (getslot l i) = Ok t.
Proof.
  intros H. unfold getslot.
  by rewrite (outcome_bind_ok _ _ (Some t)) by by apply getitem_ok.
Qed.

(** *** Total-correctness rules for [returns] *)

Lemma returns_ret {A} (a : A) (P : A → Prop) : P a → returns (mret a) P.
Proof. intros H. by exists a. Qed.

Lemma returns_bind {A B} (m : tf A) (f : A → tf B) Q P :
  returns m Q → (∀ a, Q a → returns (f a) P) → returns (m ≫= f) P.
Proof.
  intros (a & Ha & HQ) Hf. destruct (Hf a HQ) as (b & Hb & HP).
  exists b. split; [|done]. by rewrite (outcome_bind_ok _ _ a).
Qed.

Lemma returns_step {A B} (m : tf A) (f : A → tf B) a P :
  outcome m = Ok a → returns (f a) P → returns (m ≫= f) P.
Proof.
  intros Ha (b & Hb & HP). exists b. split; [|done].
  by rewrite (outcome_bind_ok _ _ a).
Qed.

Lemma returns_ok {A} (m : tf A) a (P : A → Prop) :
  outcome m = Ok a → P a → returns m P.
Proof. intros. by exists a. Qed.

Lemma returns_conseq {A} (m : tf A) (P Q : A → Prop) :
  returns m P → (∀ a, P a → Q a) → returns m Q.
Proof. intros (a & Ha & HP) H. exists a. eauto. Qed.

Lemma returns_outcome {A} (m : tf A) (P : A → Prop) a :
  returns m P → outcome m = Ok a → P a.
Proof. intros (a' & Ha & HP) H. congruence. Qed.

(** A loop keeps an invariant indexed by the number of turns taken. *)
Lemma for_invariant {S} (I : nat → S → Prop) idxs body (s : S) :
  I 0 s →
  (∀ j i s, idxs !! j = Some i → I j s →
            returns (body i s) (I (Datatypes.S j))) →
  returns (for_ idxs body s) (I (length idxs)).
Proof.
  revert I s. induction idxs as [|i idxs IH]; intros I s H0 Hstep.
  - by exists s.
  - cbn. eapply returns_bind; [by apply (Hstep 0 i s)|].
    intros s1 H1. apply (IH (λ j, I (Datatypes.S j))); [done|].
    intros j i' s' Hj. by apply (Hstep (Datatypes.S j)).
Qed.

(** The result of a loop that succeeded is reached through its turns. *)
Lemma for_inv {S} (I : nat → S → Prop) idxs body (s r : S) :
  outcome (for_ idxs body s) = Ok r →
  I 0 s →
  (∀ j i s s', idxs !! j = Some i → I j s → outcome (body i s) = Ok s' →
               I (Datatypes.S j) s') →
  I (length idxs) r.
Proof.
  revert I s. induction idxs as [|i idxs IH]; intros I s Hr H0 Hstep.
  - cbn in Hr. by injection Hr as <-.
  - cbn in Hr. apply outcome_bind_inv in Hr as (s1 & Hb & Hr).
    apply (IH (λ j, I (Datatypes.S j)) s1 Hr).
    + by apply (Hstep 0 i s).
    + intros j i' s' s'' Hj. by apply (Hstep (Datatypes.S j)).
Qed.

Lemma range_lookup n j i : range n !! j = Some i → i = j ∧ j < n.
Proof. unfold range. intros H. apply lookup_seq in H. lia. Qed.

Lemma range_down_lookup m j i :
  range_down m 0 !! j = Some i → i = m - j ∧ j < m.
Proof.
  unfold range_down. rewrite Nat.sub_0_r. intros H.
  assert (j < m) as Hj.
  { apply lookup_lt_Some in H. by rewrite length_reverse, length_seq in H. }
  rewrite reverse_lookup in H by (by rewrite length_seq).
  rewrite length_seq in H. apply lookup_seq in H. lia.
Qed.

Lemma length_range n : length (range n) = n.
Proof. apply length_seq. Qed.

Lemma length_range_down m : length (range_down m 0) = m.
Proof. unfold range_down. by rewrite length_reverse, length_seq, Nat.sub_0_r. Qed.

(** ** The sweeps on well-formed arguments *)

Lemma einsum_ok_zip equation inputs ins out shapes sh :
  Shape.parse_equation equation = Some (ins, out) →
  get_shape <$> inputs = shapes →
  Forall2 (ShapeFacts.labelled (zip_env ins shapes)) ins shapes →
  ShapeFacts.covered ins out = true →
  mapM (λ l, Shape.env_lookup l (zip_env ins shapes)) out = Some sh →
  outcome (tf_.einsum equation inputs) = Ok (Einsum sh equation inputs).
Proof. intros Hp <-. by apply einsum_ok. Qed.

Ltac rew_shapes :=
  repeat match goal with
         | H : get_shape _ = _ |- _ => progress rewrite H
         end.

Ltac einsum_tac :=
  eapply einsum_ok_zip;
  [ vm_compute; reflexivity
  | cbn [fmap list_fmap get_shape]; rew_shapes; reflexivity
  | unfold ShapeFacts.labelled; repeat (constructor || reflexivity)
  | reflexivity
  | reflexivity ].

(** Step over one bind whose first computation succeeds. *)
Tactic Notation "tf_step" tactic3(tac) :=
  cbv beta zeta; eapply returns_step; [tac | cbv beta zeta].

Lemma wf_same_ndims t1 r1 t2 r2 :
  tt_wf t1 r1 → tt_wf t2 r2 → get_raw_shape t1 = get_raw_shape t2 →
  ndims t1 = ndims t2.
Proof.
  intros H1 H2 Heq. pose proof (wf_rows _ _ H1) as F1.
  pose proof (wf_rows _ _ H2) as F2. pose proof (wf_raw _ _ H1) as Hr.
  rewrite <- Heq in F2. destruct (get_raw_shape t1) as [|row raw]; [cbn in Hr; lia|].
  apply Forall_cons in F1 as [<- _]. by apply Forall_cons in F2 as [<- _].
Qed.

Lemma concat_ok' a b pre x y post axis :
  get_shape a = pre ++ x :: post → get_shape b = pre ++ y :: post →
  axis = length pre →
  outcome (tf_.concat [a; b] axis)
  = Ok (Concat (pre ++ (x + y) :: post) [a; b] axis).
Proof. intros Ha Hb ->. by apply concat_ok. Qed.

Lemma tile_ok' a b sh multiples :
  get_shape a = 1 :: sh → multiples = b :: replicate (length sh) 1 →
  outcome (tf_.tile a multiples) = Ok (Tile (b :: sh) a multiples).
Proof. intros Ha ->. by apply tile_ok. Qed.

(** Unfolds the mode sizes of a raw shape given by its rows. *)
Ltac simpl_modes :=
  cbn [mode_sizes fmap list_fmap app length Nat.eqb] in *.

Ltac shape_eq := cbn [get_shape]; rew_shapes; reflexivity.

Ltac shape_of a k :=
  lazymatch goal with
  | H : get_shape a = ?sh |- _ => k sh
  | _ => let sh := eval cbn [get_shape] in (get_shape a) in k sh
  end.

(** [tf.concat] of two tensors: the axes before [axis] are read off the
    first one. *)
Ltac concat_tac :=
  idtac;
  lazymatch goal with
  | |- outcome (tf_.concat [?a; _] ?axis) = _ =>
      shape_of a ltac:(fun sh =>
        let pre := eval cbn in (take axis sh) in
        eapply (concat_ok' _ _ pre); [shape_eq | shape_eq | reflexivity])
  end.

Ltac tile_tac := eapply tile_ok'; [shape_eq | reflexivity].

Lemma cores_ok_snoc raw d lr rr opre j res c :
  cores_ok raw d lr rr opre j res → get_shape c = res_shape raw d lr rr opre j →
  cores_ok raw d lr rr opre (S j) (res ++ [c]).
Proof.
  intros [Hlen Hres] Hc. split; [rewrite length_app; cbn; lia|].
  intros k Hk. destruct (decide (k = j)) as [->|Hne].
  - exists c. split; [|done]. by rewrite lookup_app_r, Hlen, Nat.sub_diag by lia.
  - rewrite lookup_app_l by lia. apply Hres. lia.
Qed.

Section Sweep.

Variables (what L R : tt_object) (raw : list (list nat)).
Variables (b d : nat) (tr lr rr : list nat).
Hypothesis what_wf : tt_wf what tr.
Hypothesis what_batch : batch_prefix what = [b].
Hypothesis what_raw : get_raw_shape what = raw.
Hypothesis what_ndims : ndims what = d.
Hypothesis L_wf : tt_wf L lr.
Hypothesis L_plain : batch_prefix L = [].
Hypothesis L_raw : get_raw_shape L = raw.
Hypothesis R_wf : tt_wf R rr.
Hypothesis R_plain : batch_prefix R = [].
Hypothesis R_raw : get_raw_shape R = raw.

Local Open Scope string_scope.
Local Open Scope nat_scope.
Local Open Scope list_scope.

Let mode_str : string := if length raw =? 2 then "ij" else "i".

Lemma L_ndims : ndims L = d.
Proof. rewrite <- what_ndims. eapply wf_same_ndims; eauto. congruence. Qed.

Lemma R_ndims : ndims R = d.
Proof. rewrite <- what_ndims. eapply wf_same_ndims; eauto. congruence. Qed.

Lemma what_core k : k < d →
  ∃ c, tt_cores what !! k = Some c ∧
       get_shape c = b :: rk tr k :: mode_sizes raw k ++ [rk tr (S k)].
Proof.
  intros Hk. destruct (wf_core what tr k what_wf) as (c & Hc & Hsh); [lia|].
  exists c. split; [done|]. by rewrite Hsh, what_batch, what_raw.
Qed.

Lemma L_core k : k < d →
  ∃ c, tt_cores L !! k = Some c ∧
       get_shape c = rk lr k :: mode_sizes raw k ++ [rk lr (S k)].
Proof.
  intros Hk. destruct (wf_core L lr k L_wf) as (c & Hc & Hsh).
  { rewrite L_ndims. lia. }
  exists c. split; [done|]. by rewrite Hsh, L_plain, L_raw.
Qed.

Lemma R_core k : k < d →
  ∃ c, tt_cores R !! k = Some c ∧
       get_shape c = rk rr k :: mode_sizes raw k ++ [rk rr (S k)].
Proof.
  intros Hk. destruct (wf_core R rr k R_wf) as (c & Hc & Hsh).
  { rewrite R_ndims. lia. }
  exists c. split; [done|]. by rewrite Hsh, R_plain, R_raw.
Qed.

Lemma raw_cases : (∃ ns, raw = [ns]) ∨ (∃ ns ms, raw = [ns; ms]).
Proof.
  pose proof (wf_raw _ _ what_wf) as H. rewrite what_raw in H.
  destruct raw as [|ns [|ms [|? ?]]]; cbn in H; try lia; eauto.
Qed.

Lemma prepare_rhs_ok :
  returns (prepare_rhs what R d b mode_str) (rhs_filled b d tr rr 1).
Proof.
  pose proof (wf_ndims _ _ what_wf) as Hd. rewrite what_ndims in Hd.
  unfold prepare_rhs.
  tf_step reflexivity.
  tf_step (apply setitem_ok; rewrite length_replicate; lia).
  eapply returns_conseq.
  - apply (for_invariant (λ j, rhs_filled b d tr rr (d - j))).
    + split; [by rewrite length_insert, length_replicate|].
      intros k Hk. assert (k = d) as -> by lia. eexists. split.
      * apply list_lookup_insert_eq. rewrite length_replicate. lia.
      * cbn. pose proof (wf_last _ _ what_wf) as H1.
        pose proof (wf_last _ _ R_wf) as H2.
        rewrite what_ndims in H1. rewrite R_ndims in H2. by rewrite H1, H2.
    + intros j i rhs Hi [Hlen Hslots].
      apply range_down_lookup in Hi as [-> Hj].
      destruct (what_core (d - 1 - j)) as (tens_core & Htc & Htsh); [lia|].
      destruct (R_core (d - 1 - j)) as (right_tang_core & Hrc & Hrsh); [lia|].
      destruct (Hslots (d - j)) as (next & Hn & Hnsh); [lia|].
      replace (S (d - 1 - j)) with (d - j) in * by lia.
      tf_step (by apply getitem_ok).
      tf_step (by apply getitem_ok).
      tf_step (apply getslot_ok; replace (d - 1 - j + 1) with (d - j) by lia; done).
      destruct raw_cases as [(ns & Hraw)|(ns & ms & Hraw)];
        subst mode_str; rewrite Hraw in *; cbn in Htsh, Hrsh |- *.
      all: tf_step einsum_tac.
      all: eapply returns_ok; [apply setitem_ok; lia|].
      all: split; [by rewrite length_insert|].
      all: intros k Hk; destruct (decide (k = d - 1 - j)) as [->|Hne];
        [ eexists; split; [apply list_lookup_insert_eq; lia | reflexivity]
        | rewrite list_lookup_insert_ne by done; apply Hslots; lia ].
  - intros rhs HI. rewrite length_range_down in HI.
    replace (d - (d - 1)) with 1 in HI by lia. exact HI.
Qed.

Lemma prepare_lhs_ok :
  returns (prepare_lhs what L d b mode_str) (lhs_filled b d lr tr (d - 1)).
Proof.
  pose proof (wf_ndims _ _ what_wf) as Hd. rewrite what_ndims in Hd.
  unfold prepare_lhs.
  tf_step reflexivity.
  tf_step (apply setitem_ok; rewrite length_replicate; lia).
  eapply returns_conseq.
  - apply (for_invariant (lhs_filled b d lr tr)).
    + split; [by rewrite length_insert, length_replicate|].
      intros k Hk. assert (k = 0) as -> by lia. eexists. split.
      * apply list_lookup_insert_eq. rewrite length_replicate. lia.
      * cbn. by rewrite (wf_first _ _ what_wf), (wf_first _ _ L_wf).
    + intros j i lhs Hi [Hlen Hslots].
      apply range_lookup in Hi as [-> Hj].
      destruct (what_core j) as (tens_core & Htc & Htsh); [lia|].
      destruct (L_core j) as (left_tang_core & Hlc & Hlsh); [lia|].
      destruct (Hslots j) as (prev & Hp & Hpsh); [lia|].
      tf_step (by apply getitem_ok).
      tf_step (by apply getitem_ok).
      tf_step (by apply getslot_ok).
      destruct raw_cases as [(ns & Hraw)|(ns & ms & Hraw)];
        subst mode_str; rewrite Hraw in *; cbn in Htsh, Hlsh |- *.
      all: tf_step einsum_tac.
      all: eapply returns_ok; [apply setitem_ok; lia|].
      all: split; [by rewrite length_insert|].
      all: intros k Hk; destruct (decide (k = j + 1)) as [->|Hne];
        [ eexists; split; [apply list_lookup_insert_eq; lia
                          | by rewrite Nat.add_1_r]
        | rewrite list_lookup_insert_ne by done; apply Hslots; lia ].
  - intros lhs HI. by rewrite length_range in HI.
Qed.

Lemma tr_last : rk tr d = 1.
Proof. rewrite <- what_ndims. apply (wf_last _ _ what_wf). Qed.

Lemma rr_last : rk rr d = 1.
Proof. rewrite <- R_ndims. apply (wf_last _ _ R_wf). Qed.

Lemma lr_last : rk lr d = 1.
Proof. rewrite <- L_ndims. apply (wf_last _ _ L_wf). Qed.

Section Core.

Variables (lhs rhs : list (option tensor)) (k : nat).
Variables (tens_core left_tang_core right_tang_core : tensor).
Hypothesis rhs_ok : rhs_filled b d tr rr 1 rhs.
Hypothesis lhs_ok : lhs_filled b d lr tr (d - 1) lhs.
Hypothesis k_lt : k < d.
Hypothesis tens_shape :
  get_shape tens_core = b :: rk tr k :: mode_sizes raw k ++ [rk tr (S k)].
Hypothesis left_shape :
  get_shape left_tang_core = rk lr k :: mode_sizes raw k ++ [rk lr (S k)].
Hypothesis right_shape :
  get_shape right_tang_core = rk rr k :: mode_sizes raw k ++ [rk rr (S k)].

Lemma project_proj_core_ok oib :
  returns
    (project_proj_core d k mode_str oib lhs rhs tens_core left_tang_core)
    (has_shape (proj_shape raw lr rr (if oib then [b] else []) k)).
Proof.
  destruct rhs_ok as [_ Hrhs]. destruct lhs_ok as [_ Hlhs].
  unfold project_proj_core, proj_shape.
  destruct (Hlhs k) as (l & Hl & Hlsh); [lia|].
  destruct (Nat.ltb_spec k (d - 1)) as [E1|E1];
    destruct (Nat.eqb_spec k (d - 1)) as [E2|E2]; try lia.
  - destruct (Hlhs (S k)) as (l' & Hl' & Hl'sh); [lia|].
    destruct (Hrhs (S k)) as (r & Hr & Hrsh); [lia|].
    rewrite !Nat.add_1_r.
    eapply (returns_bind _ _ (has_shape (proj_shape raw lr rr (if oib then [b] else []) k)));
      [|intros o Ho; by apply returns_ret].
    unfold proj_shape.
    destruct raw_cases as [(ns & Hraw)|(ns & ms & Hraw)];
      subst mode_str; rewrite Hraw in *; simpl_modes.
    all: tf_step (by apply getslot_ok).
    all: tf_step einsum_tac.
    all: tf_step (by apply getslot_ok).
    all: tf_step einsum_tac.
    all: tf_step (by apply subtract_ok).
    all: tf_step (by apply getslot_ok).
    all: destruct oib.
    all: tf_step einsum_tac.
    all: apply returns_ret; eexists; split; reflexivity.
  - tf_step reflexivity.
    assert (S k = d) as HS by lia.
    pose proof tr_last as Htr. pose proof rr_last as Hrr.
    destruct raw_cases as [(ns & Hraw)|(ns & ms & Hraw)];
      subst mode_str; rewrite Hraw in *; simpl_modes.
    all: tf_step (by apply getslot_ok).
    all: destruct oib.
    all: tf_step einsum_tac.
    all: apply returns_ret; eexists; split; [reflexivity|].
    all: cbn [get_shape app]; by rewrite HS, Htr, Hrr.
Qed.

Lemma project_sum_proj_core_ok weights :
  weights_ok b weights →
  returns
    (project_sum_proj_core d k mode_str
       (if length raw =? 2 then "rt" else "r")
       (if weights_output_is_batch weights then "o" else "")
       weights lhs rhs tens_core left_tang_core)
    (has_shape (proj_shape raw lr rr (output_prefix weights) k)).
Proof.
  intros Hw. destruct rhs_ok as [_ Hrhs]. destruct lhs_ok as [_ Hlhs].
  unfold project_sum_proj_core, proj_shape, output_prefix.
  destruct (Hlhs k) as (l & Hl & Hlsh); [lia|].
  destruct (Nat.ltb_spec k (d - 1)) as [E1|E1];
    destruct (Nat.eqb_spec k (d - 1)) as [E2|E2]; try lia.
  - destruct (Hrhs (S k)) as (r & Hr & Hrsh); [lia|].
    rewrite !Nat.add_1_r.
    eapply (returns_bind _ _
              (has_shape (proj_shape raw lr rr (output_prefix weights) k)));
      [|intros o Ho; by apply returns_ret].
    unfold proj_shape, output_prefix.
    destruct raw_cases as [(ns & Hraw)|(ns & ms & Hraw)];
      subst mode_str; rewrite Hraw in *; simpl_modes.
    all: tf_step (by apply getslot_ok).
    all: tf_step (by apply getslot_ok).
    all: tf_step einsum_tac.
    all: tf_step einsum_tac.
    all: destruct weights as [w|]; cbn [weights_ok] in Hw;
      [destruct Hw as [Hw|(n & Hn & Hw)]|];
      unfold weights_output_is_batch; cbn [mbind option_bind];
      try rewrite Hw; cbn [length lookup list_lookup default Nat.ltb Nat.leb andb].
    all: try (destruct n as [|[|n]]; [lia..|]).
    all: cbn [Nat.leb andb from_option id].
    all: try (tf_step einsum_tac; tf_step einsum_tac).
    all: try (tf_step (by eapply reduce_sum_ok); tf_step einsum_tac).
    all: tf_step (by apply subtract_ok).
    all: apply returns_ret; eexists; split; reflexivity.
  - tf_step reflexivity.
    assert (S k = d) as HS by lia.
    pose proof tr_last as Htr. pose proof rr_last as Hrr.
    destruct raw_cases as [(ns & Hraw)|(ns & ms & Hraw)];
      subst mode_str; rewrite Hraw in *; simpl_modes.
    all: destruct weights as [w|]; cbn [weights_ok] in Hw;
      [destruct Hw as [Hw|(n & Hn & Hw)]|];
      unfold weights_output_is_batch; cbn [mbind option_bind];
      try rewrite Hw; cbn [length lookup list_lookup default Nat.ltb Nat.leb andb].
    all: try (destruct n as [|[|n]]; [lia..|]).
    all: cbn [Nat.leb andb from_option id].
    all: tf_step (by apply getslot_ok).
    all: tf_step einsum_tac.
    all: apply returns_ret; eexists; split; [reflexivity|].
    all: cbn [get_shape app]; by rewrite HS, Htr, Hrr.
Qed.

Lemma extend_tangent_cores_ok (oib : bool) (n : nat) :
  returns
    (extend_tangent_cores oib (length raw =? 2) n
       left_tang_core right_tang_core)
    (λ p : tensor * tensor, get_shape p.1
          = (if oib then [n] else []) ++ get_shape left_tang_core ∧
          get_shape p.2
          = (if oib then [n] else []) ++ get_shape right_tang_core).
Proof.
  unfold extend_tangent_cores. destruct oib; [|by apply returns_ret].
  tf_step (apply expand_dims_ok).
  tf_step (apply expand_dims_ok).
  destruct raw_cases as [(ns & Hraw)|(ns & ms & Hraw)];
    rewrite Hraw in *; simpl_modes.
  all: tf_step tile_tac.
  all: tf_step tile_tac.
  all: apply returns_ret; cbn [fst snd get_shape app].
  all: by rewrite left_shape, right_shape.
Qed.

Lemma assemble_core_ok (oib : bool) (n : nat) proj_core el er :
  has_shape (proj_shape raw lr rr (if oib then [n] else []) k) proj_core →
  get_shape el = (if oib then [n] else []) ++ get_shape left_tang_core →
  get_shape er = (if oib then [n] else []) ++ get_shape right_tang_core →
  returns
    (assemble_core oib (length raw =? 2) n d k raw rr lr
       (if oib then (if length raw =? 2 then 3 else 2) + 1
        else if length raw =? 2 then 3 else 2)
       (if oib then 1 else 0) proj_core el er)
    (λ c, get_shape c = res_shape raw d lr rr (if oib then [n] else []) k).
Proof.
  intros (pc & -> & Hpc) Hel Her. rewrite left_shape in Hel.
  rewrite right_shape in Her.
  unfold assemble_core, res_shape, proj_shape in *.
  pose proof (wf_first _ _ L_wf) as Hl0.
  pose proof (wf_first _ _ R_wf) as Hr0.
  pose proof rr_last as Hrd. pose proof lr_last as Hld.
  pose proof (wf_ranks _ _ L_wf) as HlL. rewrite L_ndims in HlL.
  pose proof (wf_ranks _ _ R_wf) as HlR. rewrite R_ndims in HlR.
  pose proof (wf_rows _ _ what_wf) as Hrows.
  rewrite what_raw, what_ndims in Hrows.
  destruct (Nat.eqb_spec k 0) as [E0|E0];
    [|destruct (Nat.eqb_spec k (d - 1)) as [E1|E1]].
  - tf_step reflexivity. subst k. cbn [Nat.ltb Nat.leb andb].
    rewrite Hl0 in *.
    destruct raw_cases as [(ns & Hraw)|(ns & ms & Hraw)];
      rewrite Hraw in *; simpl_modes.
    all: destruct oib; cbn [app Nat.add] in *.
    all: eapply returns_ok; [concat_tac|done].
  - tf_step reflexivity.
    assert (S k = d) as HS by lia. rewrite HS, Hrd in *.
    assert ((0 <? k) = true) as -> by (apply Nat.ltb_lt; lia).
    cbn [andb].
    destruct raw_cases as [(ns & Hraw)|(ns & ms & Hraw)];
      rewrite Hraw in *; simpl_modes.
    all: destruct oib; cbn [app Nat.add] in *.
    all: eapply returns_ok; [concat_tac|done].
  - assert (S k < d) as HS by lia.
    assert ((0 <? k) && false = false) as -> by by rewrite andb_false_r.
    rewrite !Nat.add_1_r.
    tf_step (apply getitem_ok, rk_lookup; lia).
    tf_step (apply getitem_ok, rk_lookup; lia).
    destruct raw_cases as [(ns & Hraw)|(ns & ms & Hraw)];
      rewrite Hraw in *; simpl_modes.
    + apply Forall_cons in Hrows as [Hns _].
      eapply (returns_bind _ _
         (λ sh, sh = [rk rr k; default 0 (ns !! k); rk lr (S k)])).
      { tf_step reflexivity.
        tf_step (apply getitem_ok, rk_lookup; lia).
        by apply returns_ret. }
      intros ? ->.
      destruct oib; cbn [app Nat.add] in *.
      all: tf_step reflexivity.
      all: tf_step concat_tac.
      all: tf_step reflexivity.
      all: tf_step concat_tac.
      all: eapply returns_ok; [concat_tac|done].
    + apply Forall_cons in Hrows as [Hns Hrows].
      apply Forall_cons in Hrows as [Hms _].
      eapply (returns_bind _ _
         (λ sh, sh = [rk rr k; default 0 (ns !! k);
                      default 0 (ms !! k); rk lr (S k)])).
      { tf_step reflexivity.
        tf_step (apply getitem_ok, rk_lookup; lia).
        tf_step reflexivity.
        tf_step (apply getitem_ok, rk_lookup; lia).
        by apply returns_ret. }
      intros ? ->.
      destruct oib; cbn [app Nat.add] in *.
      all: tf_step reflexivity.
      all: tf_step concat_tac.
      all: tf_step reflexivity.
      all: tf_step concat_tac.
      all: eapply returns_ok; [concat_tac|done].
Qed.

End Core.

Variable where_ : tt_object.
Hypothesis where_raw : get_raw_shape where_ = raw.
Hypothesis where_ndims : ndims where_ = d.

Lemma project_step_ok (oib : bool) (n : nat) lhs rhs k res :
  rhs_filled b d tr rr 1 rhs → lhs_filled b d lr tr (d - 1) lhs → (oib = true → n = b) →
  cores_ok raw d lr rr (if oib then [n] else []) k res → k < d →
  returns (project_step what where_ L R oib n lhs rhs k res)
    (cores_ok raw d lr rr (if oib then [n] else []) (S k)).
Proof.
  intros Hrhs Hlhs Hn Hres Hk. unfold project_step, lazy_raw_shape, is_tt_matrix.
  rewrite where_raw, where_ndims.
  rewrite (lazy_tt_ranks_wf _ _ L_wf), (lazy_tt_ranks_wf _ _ R_wf).
  destruct (what_core k Hk) as (tens_core & Htc & Htsh).
  destruct (L_core k Hk) as (left_tang_core & Hlc & Hlsh).
  destruct (R_core k Hk) as (right_tang_core & Hrc & Hrsh).
  tf_step (by apply getitem_ok).
  tf_step (by apply getitem_ok).
  tf_step (by apply getitem_ok).
  eapply returns_bind.
  { eapply project_proj_core_ok; eassumption. }
  intros proj_core Hpc.
  assert ((if oib then [b] else []) = (if oib then [n] else [])) as Hpre.
  { destruct oib; [|done]. by rewrite Hn. }
  rewrite Hpre in Hpc.
  eapply returns_bind.
  { eapply (extend_tangent_cores_ok k); eassumption. }
  intros [el er] [Hel Her]. cbn [fst snd] in Hel, Her.
  eapply returns_bind.
  { eapply (assemble_core_ok k); eassumption. }
  intros c Hc. apply returns_ret. by apply cores_ok_snoc.
Qed.

Lemma project_sum_step_ok weights lhs rhs k res :
  rhs_filled b d tr rr 1 rhs → lhs_filled b d lr tr (d - 1) lhs →
  weights_ok b weights →
  cores_ok raw d lr rr (output_prefix weights) k res → k < d →
  returns (project_sum_step what where_ L R weights lhs rhs k res)
    (cores_ok raw d lr rr (output_prefix weights) (S k)).
Proof.
  intros Hrhs Hlhs Hw Hres Hk.
  unfold project_sum_step, lazy_raw_shape, is_tt_matrix.
  rewrite where_raw, where_ndims.
  rewrite (lazy_tt_ranks_wf _ _ L_wf), (lazy_tt_ranks_wf _ _ R_wf).
  destruct (what_core k Hk) as (tens_core & Htc & Htsh).
  destruct (L_core k Hk) as (left_tang_core & Hlc & Hlsh).
  destruct (R_core k Hk) as (right_tang_core & Hrc & Hrsh).
  tf_step (by apply getitem_ok).
  tf_step (by apply getitem_ok).
  tf_step (by apply getitem_ok).
  eapply returns_bind.
  { eapply project_sum_proj_core_ok; eassumption. }
  intros proj_core Hpc. unfold output_prefix in *.
  set (n := default 0 (weights ≫= λ w, get_shape w !! 1)) in *.
  eapply returns_bind.
  { eapply (extend_tangent_cores_ok k); eassumption. }
  intros [el er] [Hel Her]. cbn [fst snd] in Hel, Her.
  eapply returns_bind.
  { eapply (assemble_core_ok k); eassumption. }
  intros c Hc. apply returns_ret. by apply cores_ok_snoc.
Qed.

(** The left to right sweep of [project]. *)
Lemma project_sweep_ok (oib : bool) (n : nat) lhs rhs :
  rhs_filled b d tr rr 1 rhs → lhs_filled b d lr tr (d - 1) lhs →
  (oib = true → n = b) →
  returns (for_ (range d) (project_step what where_ L R oib n lhs rhs) [])
    (cores_ok raw d lr rr (if oib then [n] else []) d).
Proof.
  intros Hrhs Hlhs Hn. eapply returns_conseq.
  - apply (for_invariant (cores_ok raw d lr rr (if oib then [n] else []))).
    + split; [done|]. intros k Hk. lia.
    + intros j i res [-> Hj]%range_lookup Hres.
      by apply project_step_ok.
  - intros res. by rewrite length_range.
Qed.

(** The left to right sweep of [project_sum]. *)
Lemma project_sum_sweep_ok weights lhs rhs :
  rhs_filled b d tr rr 1 rhs → lhs_filled b d lr tr (d - 1) lhs →
  weights_ok b weights →
  returns
    (for_ (range d) (project_sum_step what where_ L R weights lhs rhs) [])
    (cores_ok raw d lr rr (output_prefix weights) d).
Proof.
  intros Hrhs Hlhs Hw. eapply returns_conseq.
  - apply (for_invariant (cores_ok raw d lr rr (output_prefix weights))).
    + split; [done|]. intros k Hk. lia.
    + intros j i res [-> Hj]%range_lookup Hres.
      by apply project_sum_step_ok.
  - intros res. by rewrite length_range.
Qed.

End Sweep.

(** ** The sweeps of [project_matmul] *)

Section SweepMatmul.

Variables (what L R matrix where_ : tt_object) (ns ms : list nat).
Variables (b d : nat) (tr lr rr mr : list nat).
Hypothesis what_wf : tt_wf what tr.
Hypothesis what_batch : batch_prefix what = [b].
Hypothesis what_raw : get_raw_shape what = [ns; ms].
Hypothesis what_ndims : ndims what = d.
Hypothesis L_wf : tt_wf L lr.
Hypothesis L_plain : batch_prefix L = [].
Hypothesis L_raw : get_raw_shape L = [ns; ms].
Hypothesis R_wf : tt_wf R rr.
Hypothesis R_plain : batch_prefix R = [].
Hypothesis R_raw : get_raw_shape R = [ns; ms].
Hypothesis matrix_wf : tt_wf matrix mr.
Hypothesis matrix_plain : batch_prefix matrix = [].
Hypothesis matrix_raw : get_raw_shape matrix = [ns; ns].
Hypothesis where_raw : get_raw_shape where_ = [ns; ms].
Hypothesis where_ndims : ndims where_ = d.

Local Open Scope string_scope.
Local Open Scope nat_scope.
Local Open Scope list_scope.

Lemma matrix_core k : k < d →
  ∃ c, tt_cores matrix !! k = Some c ∧
       get_shape c = [rk mr k; default 0 (ns !! k); default 0 (ns !! k);
                      rk mr (S k)].
Proof.
  intros Hk. destruct (wf_core matrix mr k matrix_wf) as (c & Hc & Hsh).
  { pose proof (wf_rows _ _ matrix_wf) as H1.
    pose proof (wf_rows _ _ what_wf) as H2.
    rewrite matrix_raw in H1. rewrite what_raw in H2.
    apply Forall_cons in H1 as [H1 _]. apply Forall_cons in H2 as [H2 _].
    lia. }
  exists c. split; [done|]. by rewrite Hsh, matrix_plain, matrix_raw.
Qed.

Lemma mr_first : rk mr 0 = 1.
Proof. apply (wf_first _ _ matrix_wf). Qed.

Lemma matrix_ndims : ndims matrix = d.
Proof.
  pose proof (wf_rows _ _ matrix_wf) as H1.
  pose proof (wf_rows _ _ what_wf) as H2.
  rewrite matrix_raw in H1. rewrite what_raw in H2.
  apply Forall_cons in H1 as [H1 _]. apply Forall_cons in H2 as [H2 _].
  lia.
Qed.

Lemma mr_last : rk mr d = 1.
Proof. rewrite <- matrix_ndims. apply (wf_last _ _ matrix_wf). Qed.

Lemma what_core_m k : k < d →
  ∃ c, tt_cores what !! k = Some c ∧
       get_shape c = [b; rk tr k; default 0 (ns !! k); default 0 (ms !! k);
                      rk tr (S k)].
Proof.
  intros Hk.
  change (∃ c, tt_cores what !! k = Some c ∧ get_shape c
            = b :: rk tr k :: mode_sizes [ns; ms] k ++ [rk tr (S k)]).
  eapply what_core; eauto.
Qed.

Lemma L_core_m k : k < d →
  ∃ c, tt_cores L !! k = Some c ∧
       get_shape c = [rk lr k; default 0 (ns !! k); default 0 (ms !! k);
                      rk lr (S k)].
Proof.
  intros Hk.
  change (∃ c, tt_cores L !! k = Some c ∧ get_shape c
            = rk lr k :: mode_sizes [ns; ms] k ++ [rk lr (S k)]).
  eapply (L_core what); eauto.
Qed.

Lemma R_core_m k : k < d →
  ∃ c, tt_cores R !! k = Some c ∧
       get_shape c = [rk rr k; default 0 (ns !! k); default 0 (ms !! k);
                      rk rr (S k)].
Proof.
  intros Hk.
  change (∃ c, tt_cores R !! k = Some c ∧ get_shape c
            = rk rr k :: mode_sizes [ns; ms] k ++ [rk rr (S k)]).
  eapply (R_core what); eauto.
Qed.

Lemma tr_last_m : rk tr d = 1.
Proof. eapply tr_last; eauto. Qed.

Lemma rr_last_m : rk rr d = 1.
Proof. eapply (rr_last what); eauto. Qed.

Lemma prepare_rhs_matmul_ok :
  returns (prepare_rhs_matmul what R matrix d b)
    (rhs_filled_matmul b d tr mr rr 1).
Proof.
  pose proof (wf_ndims _ _ what_wf) as Hd. rewrite what_ndims in Hd.
  unfold prepare_rhs_matmul.
  tf_step reflexivity.
  tf_step (apply setitem_ok; rewrite length_replicate; lia).
  eapply returns_conseq.
  - apply (for_invariant (λ j, rhs_filled_matmul b d tr mr rr (d - j))).
    + split; [by rewrite length_insert, length_replicate|].
      intros k Hk. assert (k = d) as -> by lia. eexists. split.
      * apply list_lookup_insert_eq. rewrite length_replicate. lia.
      * cbn. by rewrite tr_last_m, rr_last_m, mr_last.
    + intros j i rhs Hi [Hlen Hslots].
      apply range_down_lookup in Hi as [-> Hj].
      destruct (what_core_m (d - 1 - j)) as (tens_core & Htc & Htsh); [lia|].
      destruct (R_core_m (d - 1 - j)) as (right_tang_core & Hrc & Hrsh); [lia|].
      destruct (matrix_core (d - 1 - j)) as (matrix_core & Hmc & Hmsh); [lia|].
      destruct (Hslots (d - j)) as (next & Hn & Hnsh); [lia|].
      replace (S (d - 1 - j)) with (d - j) in * by lia.
      simpl_modes.
      tf_step (by apply getitem_ok).
      tf_step (by apply getitem_ok).
      tf_step (by apply getitem_ok).
      tf_step (apply getslot_ok; replace (d - 1 - j + 1) with (d - j) by lia; done).
      tf_step einsum_tac.
      eapply returns_ok; [apply setitem_ok; lia|].
      split; [by rewrite length_insert|].
      intros k Hk; destruct (decide (k = d - 1 - j)) as [->|Hne];
        [ eexists; split; [apply list_lookup_insert_eq; lia | reflexivity]
        | rewrite list_lookup_insert_ne by done; apply Hslots; lia ].
  - intros rhs HI. rewrite length_range_down in HI.
    replace (d - (d - 1)) with 1 in HI by lia. exact HI.
Qed.

Lemma prepare_lhs_matmul_ok :
  returns (prepare_lhs_matmul what L matrix d b)
    (lhs_filled_matmul b d lr mr tr (d - 1)).
Proof.
  pose proof (wf_ndims _ _ what_wf) as Hd. rewrite what_ndims in Hd.
  unfold prepare_lhs_matmul.
  tf_step reflexivity.
  tf_step (apply setitem_ok; rewrite length_replicate; lia).
  eapply returns_conseq.
  - apply (for_invariant (lhs_filled_matmul b d lr mr tr)).
    + split; [by rewrite length_insert, length_replicate|].
      intros k Hk. assert (k = 0) as -> by lia. eexists. split.
      * apply list_lookup_insert_eq. rewrite length_replicate. lia.
      * cbn. by rewrite (wf_first _ _ what_wf), (wf_first _ _ L_wf), mr_first.
    + intros j i lhs Hi [Hlen Hslots].
      apply range_lookup in Hi as [-> Hj].
      destruct (what_core_m j) as (tens_core & Htc & Htsh); [lia|].
      destruct (L_core_m j) as (left_tang_core & Hlc & Hlsh); [lia|].
      destruct (matrix_core j) as (matrix_core & Hmc & Hmsh); [lia|].
      destruct (Hslots j) as (prev & Hp & Hpsh); [lia|].
      tf_step (by apply getitem_ok).
      tf_step (by apply getitem_ok).
      tf_step (by apply getitem_ok).
      tf_step (by apply getslot_ok).
      tf_step einsum_tac.
      eapply returns_ok; [apply setitem_ok; lia|].
      split; [by rewrite length_insert|].
      intros k Hk; destruct (decide (k = j + 1)) as [->|Hne];
        [ eexists; split; [apply list_lookup_insert_eq; lia
                          | by rewrite Nat.add_1_r]
        | rewrite list_lookup_insert_ne by done; apply Hslots; lia ].
  - intros lhs HI. by rewrite length_range in HI.
Qed.

Lemma project_matmul_proj_core_ok lhs rhs k tens_core matrix_core
    left_tang_core :
  rhs_filled_matmul b d tr mr rr 1 rhs →
  lhs_filled_matmul b d lr mr tr (d - 1) lhs → k < d →
  get_shape tens_core
  = [b; rk tr k; default 0 (ns !! k); default 0 (ms !! k); rk tr (S k)] →
  get_shape matrix_core
  = [rk mr k; default 0 (ns !! k); default 0 (ns !! k); rk mr (S k)] →
  get_shape left_tang_core
  = [rk lr k; default 0 (ns !! k); default 0 (ms !! k); rk lr (S k)] →
  returns
    (project_matmul_proj_core d k lhs rhs tens_core matrix_core
       left_tang_core)
    (has_shape (proj_shape [ns; ms] lr rr [b] k)).
Proof.
  intros [_ Hrhs] [_ Hlhs] Hk Htsh Hmsh Hlsh.
  unfold project_matmul_proj_core, proj_shape. simpl_modes.
  destruct (Hlhs k) as (l & Hl & Hl_sh); [lia|].
  destruct (Nat.ltb_spec k (d - 1)) as [E1|E1];
    destruct (Nat.eqb_spec k (d - 1)) as [E2|E2]; try lia.
  - destruct (Hlhs (S k)) as (l' & Hl' & Hl'sh); [lia|].
    destruct (Hrhs (S k)) as (r & Hr & Hrsh); [lia|].
    rewrite !Nat.add_1_r.
    eapply (returns_bind _ _ (has_shape (proj_shape [ns; ms] lr rr [b] k)));
      [|intros o Ho; by apply returns_ret].
    tf_step (by apply getslot_ok).
    tf_step einsum_tac.
    tf_step (by apply getslot_ok).
    tf_step einsum_tac.
    tf_step (by apply subtract_ok).
    tf_step (by apply getslot_ok).
    tf_step einsum_tac.
    apply returns_ret; eexists; split; reflexivity.
  - tf_step reflexivity.
    assert (S k = d) as HS by lia.
    tf_step (by apply getslot_ok).
    tf_step einsum_tac.
    apply returns_ret; eexists; split; [reflexivity|].
    cbn [get_shape app]. by rewrite HS, tr_last_m, rr_last_m.
Qed.

Lemma project_matmul_step_ok lhs rhs k res :
  rhs_filled_matmul b d tr mr rr 1 rhs →
  lhs_filled_matmul b d lr mr tr (d - 1) lhs →
  cores_ok [ns; ms] d lr rr [b] k res → k < d →
  returns (project_matmul_step what where_ matrix L R true b lhs rhs k res)
    (cores_ok [ns; ms] d lr rr [b] (S k)).
Proof.
  intros Hrhs Hlhs Hres Hk. unfold project_matmul_step, lazy_raw_shape.
  rewrite where_raw, where_ndims.
  rewrite (lazy_tt_ranks_wf _ _ L_wf), (lazy_tt_ranks_wf _ _ R_wf).
  destruct (what_core_m k Hk) as (tens_core & Htc & Htsh).
  destruct (matrix_core k Hk) as (matrix_core & Hmc & Hmsh).
  destruct (L_core_m k Hk) as (left_tang_core & Hlc & Hlsh).
  destruct (R_core_m k Hk) as (right_tang_core & Hrc & Hrsh).
  tf_step (by apply getitem_ok).
  tf_step (by apply getitem_ok).
  tf_step (by apply getitem_ok).
  tf_step (by apply getitem_ok).
  eapply returns_bind.
  { eapply project_matmul_proj_core_ok; eassumption. }
  intros proj_core Hpc.
  eapply returns_bind.
  { eapply (extend_tangent_cores_ok what L R [ns; ms] b d tr lr rr); try eassumption.
    all: exact Hk || exact Htsh || exact Hlsh || exact Hrsh. }
  intros [el er] [Hel Her]. cbn [fst snd] in Hel, Her.
  eapply returns_bind.
  { eapply (assemble_core_ok what L R [ns; ms] b d tr lr rr); try eassumption.
    all: exact Hk || exact Htsh || exact Hlsh || exact Hrsh. }
  intros c Hc. apply returns_ret. by apply cores_ok_snoc.
Qed.

Lemma project_matmul_sweep_ok lhs rhs :
  rhs_filled_matmul b d tr mr rr 1 rhs →
  lhs_filled_matmul b d lr mr tr (d - 1) lhs →
  returns
    (for_ (range d)
       (project_matmul_step what where_ matrix L R true b lhs rhs) [])
    (cores_ok [ns; ms] d lr rr [b] d).
Proof.
  intros Hrhs Hlhs. eapply returns_conseq.
  - apply (for_invariant (cores_ok [ns; ms] d lr rr [b])).
    + split; [done|]. intros k Hk. lia.
    + intros j i res [-> Hj]%range_lookup Hres.
      by apply project_matmul_step_ok.
  - intros res. by rewrite length_range.
Qed.

End SweepMatmul.

(** ** The three functions on well-formed arguments *)

Lemma mapM_expand_dims cores :
  outcome (mapM (λ c, tf_.expand_dims c 0) cores)
  = Ok ((λ c, ExpandDims (1 :: get_shape c) c 0) <$> cores).
Proof.
  induction cores as [|c cores IH]; [done|]. cbn [mapM].
  rewrite (outcome_bind_ok _ _ _ (expand_dims_ok c)).
  by rewrite (outcome_bind_ok _ _ _ IH).
Qed.

Lemma expand_batch_dim_ok what tr :
  tt_wf what tr →
  returns (expand_batch_dim what)
    (λ w, tt_wf w tr ∧ batch_prefix w = [promoted_batch_size what] ∧
          is_TensorTrainBatch w = true ∧
          get_raw_shape w = get_raw_shape what ∧ dtype w = dtype what ∧
          ndims w = ndims what).
Proof.
  intros Hwf. destruct what as [cores raw dt|cores raw bs dt].
  - unfold expand_batch_dim.
    eapply returns_step; [apply mapM_expand_dims|]. apply returns_ret.
    destruct Hwf as [H1 H2 H3 H4 H5 H6 H7]. unfold ndims in *. cbn in *.
    split; [|by rewrite ?length_fmap].
    split; unfold ndims; cbn; rewrite ?length_fmap; try done.
    rewrite <- list_fmap_compose.
    rewrite (list_fmap_ext _ (cons 1 ∘ get_shape) cores) by done.
    rewrite list_fmap_compose, H7, <- list_fmap_compose.
    by apply list_fmap_ext.
  - apply returns_ret. split; [exact Hwf|done].
Qed.

Lemma check_arguments_ok what where_ :
  is_TensorTrain where_ = true →
  get_raw_shape where_ = get_raw_shape what →
  is_compatible_with (dtype where_) (dtype what) = true →
  outcome (check_arguments what where_) = Ok ().
Proof.
  intros H1 H2 H3. unfold check_arguments. rewrite H1, H3. cbn.
  by rewrite bool_decide_false by (by intros ?).
Qed.

Lemma tangent_plain where_ t ranks :
  tangent_of where_ t ranks → batch_prefix t = [].
Proof. intros (H & _ & _). by destruct t. Qed.

Lemma batch_prefix_attr what :
  is_TensorTrainBatch what = true →
  batch_size_attr what = promoted_batch_size what.
Proof. by destruct what. Qed.

Section Functions.

Variable orthogonalize_tt_cores : tt_object → bool → tt_object.
Variable plain_batch_size : option nat.
Variables (what where_ : tt_object) (tr wr lr rr : list nat).

Hypothesis where_plain : is_TensorTrain where_ = true.
Hypothesis where_wf : tt_wf where_ wr.
Hypothesis what_wf : tt_wf what tr.
Hypothesis same_raw : get_raw_shape where_ = get_raw_shape what.
Hypothesis same_dtype : is_compatible_with (dtype where_) (dtype what) = true.
Hypothesis left_ok :
  tangent_of where_ (orthogonalize_tt_cores where_ true) lr.
Hypothesis right_ok :
  tangent_of where_
    (orthogonalize_tt_cores (orthogonalize_tt_cores where_ true) false) rr.

Lemma same_ndims : ndims where_ = ndims what.
Proof. by eapply wf_same_ndims. Qed.

Lemma make_result_projected (oib : bool) (n : nat) cores opre :
  (if oib then [n] else []) = opre →
  cores_ok (get_raw_shape where_) (ndims where_) lr rr opre (ndims where_)
    cores →
  projected where_ lr rr opre (make_result oib n cores where_).
Proof. intros <- H. unfold make_result. by destruct oib. Qed.

Theorem project_ok :
  (is_TensorTrain what = true → plain_batch_size = Some 1) →
  returns (project orthogonalize_tt_cores plain_batch_size what where_)
    (projected where_ lr rr
       (if is_TensorTrainBatch what then [batch_size_attr what] else [])).
Proof.
  intros Hplain. unfold project.
  destruct left_ok as (HLp & HLraw & HLwf).
  destruct right_ok as (HRp & HRraw & HRwf).
  tf_step (by apply check_arguments_ok).
  eapply (returns_step _ _ (promoted_batch_size what)).
  { unfold lazy_batch_size. destruct what; [|done].
    by rewrite Hplain. }
  eapply returns_bind; [by apply (expand_batch_dim_ok what tr)|].
  intros w (Hw & Hwb & Hwbatch & Hwraw & Hwdt & Hwd).
  assert (ndims w = ndims where_) as Hd by (rewrite Hwd; symmetry; apply same_ndims).
  assert (get_raw_shape w = get_raw_shape where_) as Hraw by congruence.
  unfold is_tt_matrix.
  set (L := orthogonalize_tt_cores where_ true) in *.
  set (R := orthogonalize_tt_cores L false) in *.
  eapply returns_bind.
  { eapply (prepare_rhs_ok w L R); eauto using tangent_plain. }
  intros rhs Hrhs. eapply returns_bind.
  { eapply (prepare_lhs_ok w L R); eauto using tangent_plain. }
  intros lhs Hlhs. eapply returns_bind.
  { eapply (project_sweep_ok w L R); eauto using tangent_plain.
    intros Hb. by apply batch_prefix_attr. }
  intros cores Hcores. apply returns_ret.
  by apply make_result_projected.
Qed.

Theorem project_sum_ok weights :
  weights_ok (promoted_batch_size what) weights →
  returns
    (project_sum orthogonalize_tt_cores plain_batch_size what where_ weights)
    (projected where_ lr rr (output_prefix weights)).
Proof.
  intros Hweights. unfold project_sum.
  destruct left_ok as (HLp & HLraw & HLwf).
  destruct right_ok as (HRp & HRraw & HRwf).
  eapply returns_bind; [by apply (expand_batch_dim_ok what tr)|].
  intros w (Hw & Hwb & Hwbatch & Hwraw & Hwdt & Hwd).
  assert (ndims w = ndims where_) as Hd by (rewrite Hwd; symmetry; apply same_ndims).
  assert (get_raw_shape w = get_raw_shape where_) as Hraw by congruence.
  tf_step (apply check_arguments_ok; congruence).
  eapply (returns_step _ _ (promoted_batch_size what)).
  { destruct w; [done|]. cbn in Hwb. by injection Hwb as ->. }
  unfold is_tt_matrix.
  set (L := orthogonalize_tt_cores where_ true) in *.
  set (R := orthogonalize_tt_cores L false) in *.
  eapply returns_bind.
  { eapply (prepare_rhs_ok w L R); eauto using tangent_plain. }
  intros rhs Hrhs. eapply returns_bind.
  { eapply (prepare_lhs_ok w L R); eauto using tangent_plain. }
  intros lhs Hlhs. eapply returns_bind.
  { eapply (project_sum_sweep_ok w L R); eauto using tangent_plain. }
  intros cores Hcores. apply returns_ret.
  by apply make_result_projected.
Qed.

Theorem project_matmul_ok matrix ns ms mr :
  is_TensorTrainBatch what = true →
  get_raw_shape what = [ns; ms] →
  tt_wf matrix mr → batch_prefix matrix = [] →
  get_raw_shape matrix = [ns; ns] →
  returns
    (project_matmul orthogonalize_tt_cores plain_batch_size what where_
       matrix)
    (projected where_ lr rr [batch_size_attr what]).
Proof.
  intros Hbatch Hwraw Hm Hmp Hmraw. unfold project_matmul.
  destruct left_ok as (HLp & HLraw & HLwf).
  destruct right_ok as (HRp & HRraw & HRwf).
  tf_step (by apply check_arguments_ok).
  eapply (returns_step _ _ (promoted_batch_size what)).
  { unfold lazy_batch_size. by destruct what. }
  eapply returns_bind; [by apply (expand_batch_dim_ok what tr)|].
  intros w (Hw & Hwb & _ & Hwraw' & Hwdt & Hwd).
  assert (ndims w = ndims where_) as Hd by (rewrite Hwd; symmetry; apply same_ndims).
  assert (get_raw_shape where_ = [ns; ms]) as Hraw by congruence.
  rewrite Hwraw in Hwraw'. rewrite Hraw in HLraw, HRraw.
  rewrite Hbatch, (batch_prefix_attr what Hbatch).
  set (L := orthogonalize_tt_cores where_ true) in *.
  set (R := orthogonalize_tt_cores L false) in *.
  eapply returns_bind.
  { eapply prepare_rhs_matmul_ok; eauto using tangent_plain. }
  intros rhs Hrhs. eapply returns_bind.
  { eapply prepare_lhs_matmul_ok; eauto using tangent_plain. }
  intros lhs Hlhs. eapply returns_bind.
  { eapply project_matmul_sweep_ok; eauto using tangent_plain. }
  intros cores Hcores. apply returns_ret.
  apply (make_result_projected true); [done|]. by rewrite Hraw.
Qed.

End Functions.

(** ** What the shape of a projection implies *)

Lemma rank_axis_prefix tt : rank_axis tt = length (batch_prefix tt).
Proof. by destruct tt. Qed.




Lemma projected_ranks where_ lr rr opre r :
  2 ≤ ndims where_ → projected where_ lr rr opre r →
  lazy_tt_ranks r = tangent_sum_ranks (ndims where_) lr rr.
Proof.
  intros Hd (Hpre & Hraw & Hlen & Hcores).
  unfold lazy_tt_ranks, tangent_sum_ranks. apply list_eq. intros k.
  rewrite list_lookup_fmap.
  destruct (decide (k < ndims where_)) as [Hk|Hk].
  - rewrite lookup_app_l by (rewrite length_fmap; lia).
    destruct (Hcores k Hk) as (c & Hc & Hsh).
    rewrite list_lookup_fmap, Hc, lookup_seq_lt by lia. cbn.
    rewrite Hsh, rank_axis_prefix, Hpre. unfold res_shape.
    rewrite list_lookup_middle by done. cbn.
    destruct (Nat.eqb_spec k (ndims where_)) as [->|_]; [lia|].
    by rewrite orb_false_r.
  - rewrite lookup_app_r by (rewrite length_fmap; lia).
    rewrite length_fmap, Hlen.
    destruct (decide (k = ndims where_)) as [->|Hne].
    + rewrite Nat.sub_diag, lookup_seq_lt by lia. cbn.
      rewrite Nat.eqb_refl, orb_true_r.
      destruct (Hcores (pred (ndims where_))) as (c & Hc & Hsh); [lia|].
      rewrite last_lookup, Hlen, Hc. cbn. rewrite Hsh. unfold res_shape.
      rewrite app_comm_cons, app_assoc, last_snoc.
      destruct (Nat.ltb_spec 0 (pred (ndims where_))) as [_|?]; [|lia].
      destruct (Nat.eqb_spec (pred (ndims where_)) (ndims where_ - 1))
        as [_|?]; [done|lia].
    + rewrite lookup_ge_None_2 by (cbn; lia).
      by rewrite lookup_seq_ge by lia.
Qed.

(** With a single mode the only core is assembled by the first-core rule
    alone, and its trailing rank is 2. *)
Lemma projected_ranks_one_mode where_ lr rr opre r :
  ndims where_ = 1 → rk rr 1 = 1 → rk lr 1 = 1 →
  projected where_ lr rr opre r → lazy_tt_ranks r = [1; 2].
Proof.
  intros Hd Hrr Hlr (Hpre & Hraw & Hlen & Hcores). rewrite Hd in *.
  destruct (Hcores 0) as (c & Hc & Hsh); [lia|].
  unfold lazy_tt_ranks. destruct (tt_cores r) as [|c' [|? ?]]; try done.
  injection Hc as ->. cbn. rewrite Hsh, rank_axis_prefix, Hpre.
  unfold res_shape. rewrite list_lookup_middle by done.
  rewrite app_comm_cons, app_assoc, last_snoc. cbn. by rewrite Hrr, Hlr.
Qed.

(** ** The interface *)

Section Interface.

Variable orthogonalize_tt_cores : tt_object → bool → tt_object.
Variable plain_batch_size : option nat.
Variables (c : call) (lr rr : list nat).

Hypothesis valid : valid_call plain_batch_size c.
Hypothesis left_ok :
  tangent_of (call_where c) (orthogonalize_tt_cores (call_where c) true) lr.
Hypothesis right_ok :
  tangent_of (call_where c)
    (orthogonalize_tt_cores (orthogonalize_tt_cores (call_where c) true)
       false) rr.

(** Every operation returns on a valid call, and what it returns has the
    core shapes of a projection. *)
Theorem run_ok :
  returns (run orthogonalize_tt_cores plain_batch_size c)
    (projected (call_where c) lr rr (call_output_prefix c)).
Proof.
  destruct valid as [Hp [wr Hwr] [tr Htr] Hraw Hdt Hx].
  destruct c as [what where_|what where_ weights|what where_ matrix];
    cbn in *.
  - by eapply project_ok.
  - by eapply project_sum_ok.
  - destruct Hx as (Hb & ns & ms & mr & H1 & H2 & H3 & H4).
    rewrite Hb. by eapply project_matmul_ok.
Qed.

End Interface.

(** ** What may be raised, and what may be added to the graph *)

Section Effects.

Context {A B : Type}.
Implicit Types (m : tf A) (f : A → tf B).

Lemma raises_only_ret (P : error → Prop) (a : A) : raises_only P (mret a).
Proof. intros e [=]. Qed.

Lemma raises_only_raise (P : error → Prop) (e : error) :
  P e → raises_only P (@raise A e).
Proof. intros H e' [= <-]. exact H. Qed.

Lemma raises_only_bind (P : error → Prop) m f :
  raises_only P m → (∀ a, raises_only P (f a)) → raises_only P (m ≫= f).
Proof.
  intros Hm Hf e. destruct m as [[a|e'] ops] eqn:E.
  - rewrite (outcome_bind_ok _ _ a) by done. apply Hf.
  - rewrite (outcome_bind_raise _ _ e') by done. intros [= <-]. by apply Hm.
Qed.

Lemma adds_only_ret (P : tf_op → Prop) (a : A) : adds_only P (mret a).
Proof. constructor. Qed.

Lemma adds_only_raise (P : tf_op → Prop) (e : error) :
  adds_only P (@raise A e).
Proof. constructor. Qed.

Lemma adds_only_bind (P : tf_op → Prop) m f :
  adds_only P m → (∀ a, adds_only P (f a)) → adds_only P (m ≫= f).
Proof.
  unfold adds_only. intros Hm Hf. destruct m as [[a|e'] ops] eqn:E.
  - rewrite (graph_bind_ok _ _ a) by done. apply Forall_app. split; [done|apply Hf].
  - by rewrite (graph_bind_raise _ _ e').
Qed.

End Effects.

Lemma raises_only_for {S} (P : error → Prop) idxs body (s : S) :
  (∀ i s, raises_only P (body i s)) → raises_only P (for_ idxs body s).
Proof.
  intros Hb. revert s. induction idxs as [|i idxs IH]; intros s; cbn.
  - apply raises_only_ret.
  - apply raises_only_bind; [apply Hb | apply IH].
Qed.

Lemma adds_only_for {S} (P : tf_op → Prop) idxs body (s : S) :
  (∀ i s, adds_only P (body i s)) → adds_only P (for_ idxs body s).
Proof.
  intros Hb. revert s. induction idxs as [|i idxs IH]; intros s; cbn.
  - apply adds_only_ret.
  - apply adds_only_bind; [apply Hb | apply IH].
Qed.

Lemma raises_only_mapM {A B} (P : error → Prop) (f : A → tf B) l :
  (∀ a, raises_only P (f a)) → raises_only P (mapM f l).
Proof.
  intros Hf. induction l as [|a l IH]; cbn.
  - apply raises_only_ret.
  - apply raises_only_bind; [apply Hf|]. intros b.
    apply raises_only_bind; [apply IH|]. intros k. apply raises_only_ret.
Qed.

Lemma adds_only_mapM {A B} (P : tf_op → Prop) (f : A → tf B) l :
  (∀ a, adds_only P (f a)) → adds_only P (mapM f l).
Proof.
  intros Hf. induction l as [|a l IH]; cbn.
  - apply adds_only_ret.
  - apply adds_only_bind; [apply Hf|]. intros b.
    apply adds_only_bind; [apply IH|]. intros k. apply adds_only_ret.
Qed.

Lemma raises_only_add_node (P : error → Prop) op ins sh mk :
  P (OpShapeError op ins) → raises_only P (add_node op ins sh mk).
Proof. intros H. destruct sh; [apply raises_only_ret|by apply raises_only_raise]. Qed.

Lemma adds_only_add_node (P : tf_op → Prop) op ins sh mk :
  P op → adds_only P (add_node op ins sh mk).
Proof.
  intros H. destruct sh; [|apply adds_only_raise].
  by constructor.
Qed.

Lemma raises_only_getitem {A} (P : error → Prop) (l : list A) i :
  P IndexError → raises_only P (getitem l i).
Proof.
  intros H. unfold getitem.
  destruct (l !! i); [apply raises_only_ret|by apply raises_only_raise].
Qed.

Lemma adds_only_getitem {A} (P : tf_op → Prop) (l : list A) i :
  adds_only P (getitem l i).
Proof. unfold getitem. destruct (l !! i); constructor. Qed.

Lemma raises_only_setitem {A} (P : error → Prop) (l : list A) i x :
  P IndexError → raises_only P (setitem l i x).
Proof.
  intros H. unfold setitem.
  case_decide; [apply raises_only_ret|by apply raises_only_raise].
Qed.

Lemma adds_only_setitem {A} (P : tf_op → Prop) (l : list A) i x :
  adds_only P (setitem l i x).
Proof. unfold setitem. case_decide; constructor. Qed.

Lemma raises_only_getslot (P : error → Prop) l i :
  P IndexError → P NoneOperand → raises_only P (getslot l i).
Proof.
  intros H1 H2. unfold getslot.
  apply raises_only_bind; [by apply raises_only_getitem|].
  intros [t|]; [apply raises_only_ret|by apply raises_only_raise].
Qed.

Lemma adds_only_getslot (P : tf_op → Prop) l i : adds_only P (getslot l i).
Proof.
  unfold getslot. apply adds_only_bind; [apply adds_only_getitem|].
  intros [t|]; constructor.
Qed.

Lemma raises_only_getvar (P : error → Prop) o :
  P NoneOperand → raises_only P (getvar o).
Proof.
  intros H. destruct o; [apply raises_only_ret|by apply raises_only_raise].
Qed.

Lemma adds_only_getvar (P : tf_op → Prop) o : adds_only P (getvar o).
Proof. destruct o; constructor. Qed.

(** Walks through a computation built from the graph operations and the
    Python helpers. *)
Ltac effects_step :=
  first
    [ apply raises_only_ret | apply adds_only_ret
    | apply raises_only_raise; done | apply adds_only_raise
    | apply raises_only_add_node; done | apply adds_only_add_node; done
    | apply raises_only_getitem; done | apply adds_only_getitem
    | apply raises_only_setitem; done | apply adds_only_setitem
    | apply raises_only_getslot; done | apply adds_only_getslot
    | apply raises_only_getvar; done | apply adds_only_getvar
    | apply raises_only_for; intros ? ? | apply adds_only_for; intros ? ?
    | apply raises_only_mapM; intros ? | apply adds_only_mapM; intros ?
    | apply raises_only_bind; [|intros ?]
    | apply adds_only_bind; [|intros ?]
    | lazymatch goal with
      | |- raises_only _ (if ?b then _ else _) => destruct b
      | |- adds_only _ (if ?b then _ else _) => destruct b
      | |- raises_only _ (match ?x with _ => _ end) => destruct x
      | |- adds_only _ (match ?x with _ => _ end) => destruct x
      end ].

Ltac effects :=
  cbv beta zeta;
  unfold tf_.ones, tf_.zeros, tf_.einsum, tf_.subtract, tf_.reduce_sum,
    tf_.expand_dims, tf_.tile, tf_.concat;
  repeat (effects_step; cbv beta zeta).

Section AfterChecks.

Variable orthogonalize_tt_cores : tt_object → bool → tt_object.
Variable plain_batch_size : option nat.

Lemma lazy_batch_size_raises tt :
  raises_only not_argument_error (lazy_batch_size plain_batch_size tt).
Proof. unfold lazy_batch_size. effects. Qed.

Lemma expand_batch_dim_raises tt :
  raises_only not_argument_error (expand_batch_dim tt).
Proof. unfold expand_batch_dim. effects. Qed.

Lemma prepare_rhs_raises what R d b mode_str :
  raises_only not_argument_error (prepare_rhs what R d b mode_str).
Proof. unfold prepare_rhs. effects. Qed.

Lemma prepare_lhs_raises what L d b mode_str :
  raises_only not_argument_error (prepare_lhs what L d b mode_str).
Proof. unfold prepare_lhs. effects. Qed.

Lemma prepare_rhs_matmul_raises what R matrix d b :
  raises_only not_argument_error (prepare_rhs_matmul what R matrix d b).
Proof. unfold prepare_rhs_matmul. effects. Qed.

Lemma prepare_lhs_matmul_raises what L matrix d b :
  raises_only not_argument_error (prepare_lhs_matmul what L matrix d b).
Proof. unfold prepare_lhs_matmul. effects. Qed.

Lemma extend_tangent_cores_raises oib m n l r :
  raises_only not_argument_error (extend_tangent_cores oib m n l r).
Proof. unfold extend_tangent_cores. effects. Qed.

Lemma assemble_core_raises oib m n d k raw rr lr a b p el er :
  raises_only not_argument_error
    (assemble_core oib m n d k raw rr lr a b p el er).
Proof. unfold assemble_core. effects. Qed.

Lemma project_step_raises what where_ L R oib n lhs rhs k res :
  raises_only not_argument_error
    (project_step what where_ L R oib n lhs rhs k res).
Proof.
  unfold project_step, project_proj_core.
  pose proof extend_tangent_cores_raises. pose proof assemble_core_raises.
  effects; done.
Qed.

Lemma project_sum_step_raises what where_ L R w lhs rhs k res :
  raises_only not_argument_error
    (project_sum_step what where_ L R w lhs rhs k res).
Proof.
  unfold project_sum_step, project_sum_proj_core.
  pose proof extend_tangent_cores_raises. pose proof assemble_core_raises.
  effects; done.
Qed.

Lemma project_matmul_step_raises what where_ matrix L R oib n lhs rhs k res :
  raises_only not_argument_error
    (project_matmul_step what where_ matrix L R oib n lhs rhs k res).
Proof.
  unfold project_matmul_step, project_matmul_proj_core.
  pose proof extend_tangent_cores_raises. pose proof assemble_core_raises.
  effects; done.
Qed.

End AfterChecks.

(** ** The argument checks *)

Lemma check_not_plain what where_ :
  is_TensorTrain where_ = false →
  check_arguments what where_ = raise (NotATensorTrain where_).
Proof. intros H. unfold check_arguments. by rewrite H. Qed.

Lemma check_shapes what where_ :
  is_TensorTrain where_ = true →
  get_raw_shape where_ ≠ get_raw_shape what →
  check_arguments what where_
  = raise (ShapesDoNotMatch (get_raw_shape where_) (get_raw_shape what)).
Proof.
  intros H1 H2. unfold check_arguments. rewrite H1. cbn.
  by rewrite bool_decide_true.
Qed.

Lemma check_dtypes what where_ :
  is_TensorTrain where_ = true →
  get_raw_shape where_ = get_raw_shape what →
  is_compatible_with (dtype where_) (dtype what) = false →
  check_arguments what where_
  = raise (DtypesDoNotCoincide (dtype where_) (dtype what)).
Proof.
  intros H1 H2 H3. unfold check_arguments. rewrite H1, H3. cbn.
  by rewrite bool_decide_false by (by intros ?).
Qed.

Lemma check_pass what where_ :
  is_TensorTrain where_ = true →
  get_raw_shape where_ = get_raw_shape what →
  is_compatible_with (dtype where_) (dtype what) = true →
  check_arguments what where_ = mret ().
Proof.
  intros H1 H2 H3. unfold check_arguments. rewrite H1, H3. cbn.
  by rewrite bool_decide_false by (by intros ?).
Qed.

(** Promotion to a batch never fails, keeps the raw shape and the element
    type, and adds no contraction. *)
Lemma expand_batch_dim_run what :
  ∃ w g, expand_batch_dim what = (Ok w, g) ∧
         get_raw_shape w = get_raw_shape what ∧ dtype w = dtype what ∧
         Forall (λ o, is_contraction o = false) g.
Proof.
  destruct what as [cores raw dt|cores raw b dt].
  - pose proof (mapM_expand_dims cores) as Hok.
    assert (adds_only (λ o, is_contraction o = false)
              (mapM (λ c, tf_.expand_dims c 0) cores)) as Hg.
    { apply adds_only_mapM. intros c. by apply adds_only_add_node. }
    unfold expand_batch_dim.
    destruct (mapM (λ c, tf_.expand_dims c 0) cores) as [[cs|e] g];
      cbn in Hok; [|done].
    eexists _, _. split; [reflexivity|]. cbn. repeat split; try done.
    by rewrite app_nil_r.
  - by exists (TensorTrainBatch cores raw b dt), [].
Qed.

Lemma mapM_expand_dims_graph cores :
  graph (mapM (λ c, tf_.expand_dims c 0) cores)
  = replicate (length cores) OpExpandDims.
Proof.
  induction cores as [|c cores IH]; [done|]. cbn [mapM].
  rewrite (graph_bind_ok _ _ _ (expand_dims_ok c)).
  rewrite (graph_bind_ok _ _ _ (mapM_expand_dims cores)), IH.
  unfold tf_.expand_dims. rewrite ShapeFacts.expand_dims_0. cbn.
  by rewrite app_nil_r.
Qed.

(** Promotion to a batch never fails, keeps the raw shape and the element
    type, and adds one [expand_dims] per core of a plain [what]. *)
Lemma expand_batch_dim_promotes what :
  ∃ w, expand_batch_dim what = (Ok w, promotion_nodes what) ∧
       get_raw_shape w = get_raw_shape what ∧ dtype w = dtype what.
Proof.
  destruct what as [cores raw dt|cores raw b dt].
  - pose proof (mapM_expand_dims cores) as Hok.
    pose proof (mapM_expand_dims_graph cores) as Hg.
    unfold expand_batch_dim, promotion_nodes. cbn [is_TensorTrain].
    destruct (mapM (λ c, tf_.expand_dims c 0) cores) as [[cs|e] g];
      cbn in Hok, Hg; [|done].
    eexists. split; [cbn; by rewrite app_nil_r, Hg|done].
  - by exists (TensorTrainBatch cores raw b dt).
Qed.

Lemma raise_bind {A B} (e : error) (f : A → tf B) : raise e ≫= f = raise e.
Proof. reflexivity. Qed.

Lemma ret_bind {A B} (a : A) (f : A → tf B) : mret a ≫= f = f a.
Proof. unfold mret, tf_ret, mbind, tf_bind. by destruct (f a). Qed.

Section Checks.

Variable orthogonalize_tt_cores : tt_object → bool → tt_object.
Variable plain_batch_size : option nat.

(** What every operation does when the checks let the arguments through
    raises nothing the checks raise. *)
Lemma project_raises_after what where_ :
  check_arguments what where_ = mret () →
  raises_only not_argument_error
    (project orthogonalize_tt_cores plain_batch_size what where_).
Proof.
  intros Hc. unfold project. rewrite Hc, ret_bind.
  apply raises_only_bind; [apply lazy_batch_size_raises|intros b].
  apply raises_only_bind; [apply expand_batch_dim_raises|intros w].
  apply raises_only_bind; [apply prepare_rhs_raises|intros rhs].
  apply raises_only_bind; [apply prepare_lhs_raises|intros lhs].
  apply raises_only_bind; [|intros res; apply raises_only_ret].
  apply raises_only_for. intros k res. apply project_step_raises.
Qed.

Lemma project_matmul_raises_after what where_ matrix :
  check_arguments what where_ = mret () →
  raises_only not_argument_error
    (project_matmul orthogonalize_tt_cores plain_batch_size what where_
       matrix).
Proof.
  intros Hc. unfold project_matmul. rewrite Hc, ret_bind.
  apply raises_only_bind; [apply lazy_batch_size_raises|intros b].
  apply raises_only_bind; [apply expand_batch_dim_raises|intros w].
  apply raises_only_bind; [apply prepare_rhs_matmul_raises|intros rhs].
  apply raises_only_bind; [apply prepare_lhs_matmul_raises|intros lhs].
  apply raises_only_bind; [|intros res; apply raises_only_ret].
  apply raises_only_for. intros k res. apply project_matmul_step_raises.
Qed.

Lemma project_sum_raises_after what where_ weights :
  is_TensorTrain where_ = true →
  get_raw_shape where_ = get_raw_shape what →
  is_compatible_with (dtype where_) (dtype what) = true →
  raises_only not_argument_error
    (project_sum orthogonalize_tt_cores plain_batch_size what where_
       weights).
Proof.
  intros H1 H2 H3. unfold project_sum.
  destruct (expand_batch_dim_run what) as (w & g & Hrun & Hraw & Hdt & _).
  rewrite Hrun. intros e. rewrite (outcome_bind_ok _ _ w) by done.
  rewrite check_pass, ret_bind by congruence. revert e.
  apply raises_only_bind; [apply lazy_batch_size_raises|intros b].
  apply raises_only_bind; [apply prepare_rhs_raises|intros rhs].
  apply raises_only_bind; [apply prepare_lhs_raises|intros lhs].
  apply raises_only_bind; [|intros res; apply raises_only_ret].
  apply raises_only_for. intros k res. apply project_sum_step_raises.
Qed.

Lemma run_fails_before_contracting (c : call) e :
  check_arguments (call_what c) (call_where c) = raise e →
  fails_before_contracting (run orthogonalize_tt_cores plain_batch_size c) e.
Proof.
  intros Hc. destruct c as [what where_|what where_ weights|what where_ m];
    cbn in *.
  - unfold project. rewrite Hc. by split.
  - unfold project_sum.
    destruct (expand_batch_dim_run what) as (w & g & Hrun & Hraw & Hdt & Hg).
    assert (check_arguments w where_ = raise e) as Hc'.
    { unfold check_arguments in *. by rewrite Hraw, Hdt. }
    rewrite Hrun. split.
    + rewrite (outcome_bind_ok _ _ w) by done. by rewrite Hc'.
    + rewrite (graph_bind_ok _ _ w) by done. rewrite Hc'. cbn.
      by rewrite app_nil_r.
  - unfold project_matmul. rewrite Hc. by split.
Qed.

Lemma run_raises_after (c : call) :
  is_TensorTrain (call_where c) = true →
  get_raw_shape (call_where c) = get_raw_shape (call_what c) →
  is_compatible_with (dtype (call_where c)) (dtype (call_what c)) = true →
  raises_only not_argument_error
    (run orthogonalize_tt_cores plain_batch_size c).
Proof.
  intros H1 H2 H3.
  destruct c as [what where_|what where_ weights|what where_ m]; cbn in *.
  - by apply project_raises_after, check_pass.
  - by apply project_sum_raises_after.
  - by apply project_matmul_raises_after, check_pass.
Qed.

End Checks.

Section ChecksFirst.

Variable orthogonalize_tt_cores : tt_object → bool → tt_object.
Variable plain_batch_size : option nat.

(** A failed check ends the call with what was built before the checks. *)
Lemma run_fails_at_checks (c : call) e :
  check_arguments (call_what c) (call_where c) = raise e →
  run orthogonalize_tt_cores plain_batch_size c
  = (Raise e, built_before_checks c).
Proof.
  intros Hc. destruct c as [what where_|what where_ weights|what where_ m];
    cbn in *.
  - unfold project. by rewrite Hc.
  - unfold project_sum.
    destruct (expand_batch_dim_promotes what) as (w & Hrun & Hraw & Hdt).
    assert (check_arguments w where_ = raise e) as Hc'.
    { unfold check_arguments in *. by rewrite Hraw, Hdt. }
    rewrite Hrun. unfold mbind, tf_bind. cbn. rewrite Hc'. cbn.
    by rewrite app_nil_r.
  - unfold project_matmul. by rewrite Hc.
Qed.

End ChecksFirst.

(** [project] reads the batch size of [what] before it promotes it: on a
    plain [what] that passes the checks, the helper raises and nothing is
    built. *)
Lemma project_plain_what_raises orthogonalize_tt_cores what where_ :
  is_TensorTrain what = true →
  check_arguments what where_ = mret () →
  project orthogonalize_tt_cores None what where_
  = (Raise BatchSizeUnavailable, []).
Proof.
  intros Hplain Hc. unfold project. rewrite Hc, ret_bind.
  by destruct what.
Qed.

(** ** Where the gauge subtraction is applied *)

Section Adds.

Context {A B : Type}.
Implicit Types (m : tf A) (f : A → tf B).

Lemma adds_bind_l op m f : adds op m → adds op (m ≫= f).
Proof.
  intros Hm b Hb. apply outcome_bind_inv in Hb as (a & Ha & Hb).
  rewrite (graph_bind_ok _ _ a) by done. apply elem_of_app. left. eauto.
Qed.

Lemma adds_bind_r op m f : (∀ a, adds op (f a)) → adds op (m ≫= f).
Proof.
  intros Hf b Hb. apply outcome_bind_inv in Hb as (a & Ha & Hb).
  rewrite (graph_bind_ok _ _ a) by done. apply elem_of_app. right.
  by eapply Hf.
Qed.

End Adds.

Lemma adds_add_node op ins sh mk : adds op (add_node op ins sh mk).
Proof.
  intros t Ht. destruct sh; [|done]. cbn. apply list_elem_of_singleton. done.
Qed.

Lemma adds_only_not_in {A} op (m : tf A) :
  adds_only (λ o, o ≠ op) m → op ∉ graph m.
Proof.
  unfold adds_only. rewrite Forall_forall. intros H Hin. by apply (H op).
Qed.

Lemma project_sum_proj_core_subtracts d k mode_str another_mode_str
    output_batch_str weights lhs rhs tens_core left_tang_core :
  k < d - 1 →
  adds OpSubtract
    (project_sum_proj_core d k mode_str another_mode_str output_batch_str
       weights lhs rhs tens_core left_tang_core).
Proof.
  intros Hk. unfold project_sum_proj_core.
  destruct (Nat.ltb_spec k (d - 1)) as [_|?]; [|lia].
  apply adds_bind_l.
  do 4 (apply adds_bind_r; intros ?).
  destruct weights as [w|].
  all: do 2 (apply adds_bind_r; intros ?).
  all: apply adds_bind_l, adds_add_node.
Qed.

Lemma project_sum_proj_core_no_subtract d k mode_str another_mode_str
    output_batch_str weights lhs rhs tens_core left_tang_core :
  ¬ k < d - 1 →
  adds_only (λ o, o ≠ OpSubtract)
    (project_sum_proj_core d k mode_str another_mode_str output_batch_str
       weights lhs rhs tens_core left_tang_core).
Proof.
  intros Hk. unfold project_sum_proj_core.
  destruct (Nat.ltb_spec k (d - 1)) as [?|_]; [lia|].
  effects.
Qed.

Lemma extend_tangent_cores_no_subtract oib m n l r :
  adds_only (λ o, o ≠ OpSubtract) (extend_tangent_cores oib m n l r).
Proof. unfold extend_tangent_cores. effects. Qed.

Lemma assemble_core_no_subtract oib m n d k raw rr lr a b p el er :
  adds_only (λ o, o ≠ OpSubtract)
    (assemble_core oib m n d k raw rr lr a b p el er).
Proof. unfold assemble_core. effects. Qed.

(** ** Reading a successful run backwards *)

Lemma for_head_inv {S} i idxs body (s r : S) :
  outcome (for_ (i :: idxs) body s) = Ok r → ∃ s', outcome (body i s) = Ok s'.
Proof. cbn. intros (s' & H & _)%outcome_bind_inv. eauto. Qed.

Lemma for_each_inv {S} idxs body (s r : S) i :
  outcome (for_ idxs body s) = Ok r → i ∈ idxs →
  ∃ s1 s2, outcome (body i s1) = Ok s2.
Proof.
  revert s. induction idxs as [|j idxs IH]; intros s Hr Hin.
  - by apply elem_of_nil in Hin.
  - cbn in Hr. apply outcome_bind_inv in Hr as (s' & Hb & Hr).
    apply elem_of_cons in Hin as [->|Hin]; eauto.
Qed.

Lemma einsum_inv equation inputs t :
  outcome (tf_.einsum equation inputs) = Ok t →
  ∃ sh, Shape.einsum equation (get_shape <$> inputs) = Some sh ∧
        t = Einsum sh equation inputs.
Proof. unfold tf_.einsum. apply add_node_inv. Qed.

(** An operand accepted by [tf.einsum] has one axis per label. *)
Lemma einsum_operand equation inputs t ins out i ls x :
  outcome (tf_.einsum equation inputs) = Ok t →
  Shape.parse_equation equation = Some (ins, out) →
  ins !! i = Some ls → inputs !! i = Some x →
  ∃ e, ShapeFacts.labelled e ls (get_shape x) ∧
       Forall2 (ShapeFacts.labelled e) ins (get_shape <$> inputs).
Proof.
  intros (sh & Hsh & _)%einsum_inv Hp Hls Hx.
  apply ShapeFacts.einsum_sound in Hsh as (ins' & out' & e & Hp' & Hl & _).
  rewrite Hp in Hp'. injection Hp' as <- <-.
  exists e. split; [|done].
  eapply Forall2_lookup_lr; [exact Hl|exact Hls|].
  by rewrite list_lookup_fmap, Hx.
Qed.

Lemma einsum_operand_rank equation inputs t ins out i ls x :
  outcome (tf_.einsum equation inputs) = Ok t →
  Shape.parse_equation equation = Some (ins, out) →
  ins !! i = Some ls → inputs !! i = Some x →
  length (get_shape x) = length ls.
Proof.
  intros Ht Hp Hls Hx.
  destruct (einsum_operand _ _ _ _ _ _ _ _ Ht Hp Hls Hx) as (e & Hl & _).
  symmetry. by eapply Forall2_length.
Qed.

(** Inverts the binds of a hypothesis [H : outcome (m ≫= f) = Ok r]. *)
Ltac tf_inv H :=
  let a := fresh "a" in
  let Ha := fresh "Ha" in
  apply outcome_bind_inv in H as (a & Ha & H); cbv beta zeta in H.

(** The rank of operand [i] of some [tf.einsum] that succeeded. *)
Ltac operand_rank i :=
  match goal with
  | H : outcome (tf_.einsum _ _) = Ok _ |- length (get_shape _) = _ =>
      let Hlen := fresh "Hlen" in
      eapply (einsum_operand_rank _ _ _ _ _ i) in H as Hlen;
      [|vm_compute; reflexivity|reflexivity|reflexivity]; exact Hlen
  end.

Section OutputKind.

Local Open Scope string_scope.

(** A turn of the sweep of [project_sum] that returns with the output
    batch label [o] has contracted the weights as a two-axis operand. *)
Lemma project_sum_proj_core_weights d k (matrix_cores : bool) w lhs rhs
    tens_core left_tang_core o :
  k < d →
  outcome
    (project_sum_proj_core d k (if matrix_cores then "ij" else "i")
       (if matrix_cores then "rt" else "r") "o" (Some w) lhs rhs
       tens_core left_tang_core) = Ok o →
  length (get_shape w) = 2.
Proof.
  intros Hk H. unfold project_sum_proj_core in H.
  destruct (Nat.ltb_spec k (d - 1)) as [E1|E1].
  - tf_inv H. clear H. do 4 tf_inv Ha. tf_inv Ha. clear Ha.
    destruct matrix_cores.
    all: operand_rank 1.
  - tf_inv H. clear Ha.
    destruct (Nat.eqb_spec k (d - 1)) as [E2|E2]; [|lia].
    do 2 tf_inv H. clear H.
    destruct matrix_cores.
    all: operand_rank 2.
Qed.

Variable orthogonalize_tt_cores : tt_object → bool → tt_object.
Variable plain_batch_size : option nat.

(** What [project_sum] returns is built by [make_result] from cores the
    sweep returned. *)
Lemma project_sum_inv what where_ weights r :
  outcome
    (project_sum orthogonalize_tt_cores plain_batch_size what where_
       weights) = Ok r →
  ∃ w L R lhs rhs cores,
    outcome
      (for_ (range (ndims where_))
         (project_sum_step w where_ L R weights lhs rhs) []) = Ok cores ∧
    r = make_result (weights_output_is_batch weights)
          (default 0 (weights ≫= λ w, get_shape w !! 1)) cores where_.
Proof.
  intros H. unfold project_sum in H.
  do 6 tf_inv H. injection H as <-. eauto 10.
Qed.

Lemma project_sum_batch_weights what where_ weights r :
  0 < ndims where_ →
  outcome
    (project_sum orthogonalize_tt_cores plain_batch_size what where_
       weights) = Ok r →
  weights_output_is_batch weights = true →
  ∃ w s o, weights = Some w ∧ get_shape w = [s; o] ∧ 1 < o.
Proof.
  intros Hd (w' & L & R & lhs & rhs & cores & Hsweep & _)%project_sum_inv
    Hbatch.
  destruct weights as [w|]; [|done]. exists w.
  assert (length (get_shape w) = 2) as Hlen.
  { unfold range in Hsweep. destruct (ndims where_) as [|d] eqn:Ed; [lia|].
    apply for_head_inv in Hsweep as (res & Hstep).
    unfold project_sum_step in Hstep. rewrite Hbatch, Ed in Hstep.
    do 4 tf_inv Hstep.
    eapply (project_sum_proj_core_weights (S d) 0 (is_tt_matrix where_));
      [lia|exact Ha2]. }
  unfold weights_output_is_batch in Hbatch.
  destruct (get_shape w) as [|s [|o [|? ?]]]; try done.
  exists s, o. repeat split. cbn in Hbatch.
  destruct o as [|[|o]]; [done..|lia].
Qed.

End OutputKind.

(** ** What a successful run of [project_matmul] says about [matrix] *)

Lemma getitem_inv {A} (l : list A) i x :
  outcome (getitem l i) = Ok x → l !! i = Some x.
Proof. unfold getitem. destruct (l !! i); cbn; congruence. Qed.

Lemma concat_inv values axis t :
  outcome (tf_.concat values axis) = Ok t →
  ∃ sh, Shape.concat (get_shape <$> values) axis = Some sh ∧
        t = Concat sh values axis.
Proof. unfold tf_.concat. apply add_node_inv. Qed.

(** [tf.concat] of two tensors only accepts equal dimensions off [axis]. *)
Lemma concat2_inv a : ∀ b axis sh i,
  Shape.concat2 a b axis = Some sh → i ≠ axis → a !! i = b !! i.
Proof.
  induction a as [|x a IH]; intros [|y b] [|n] sh i H Hi; cbn in H;
    try discriminate.
  - case_decide; [|done]. subst. by destruct i.
  - destruct (Nat.eqb_spec x y) as [->|]; [|done].
    destruct (Shape.concat2 a b n) as [sh'|] eqn:E; [|done].
    destruct i as [|i]; [done|]. cbn. eapply IH; [exact E|lia].
Qed.

(** Reads the dimensions off a labelling of concrete labels. *)
Ltac labelled_inv :=
  unfold ShapeFacts.labelled in *;
  repeat match goal with
         | H : Forall2 _ (_ :: _) _ |- _ =>
             apply Forall2_cons_inv_l in H as (? & ? & ? & H & ?)
         | H : Forall2 _ [] _ |- _ => apply Forall2_nil_inv_l in H
         end;
  simplify_eq.

Tactic Notation "tf_inv_as" hyp(H) ident(a) ident(Ha) :=
  apply outcome_bind_inv in H as (a & Ha & H); cbv beta zeta in H.

Lemma matrix_core_fits_intro matrix ns k c m m' :
  tt_cores matrix !! k = Some c →
  get_shape c = [m; default 0 (ns !! k); default 0 (ns !! k); m'] →
  matrix_core_fits matrix ns k = true.
Proof.
  intros Hc Hsh. unfold matrix_core_fits. rewrite Hc, Hsh.
  by rewrite Nat.eqb_refl.
Qed.

Lemma elem_of_range n i : i < n → i ∈ range n.
Proof. intros H. unfold range. apply elem_of_seq. lia. Qed.

Lemma elem_of_range_down m i : 0 < i ≤ m → i ∈ range_down m 0.
Proof.
  intros H. unfold range_down. apply elem_of_reverse, elem_of_seq. lia.
Qed.

Section MatrixChecked.

Variables (what R L matrix : tt_object) (ns ms : list nat).
Variables (b d : nat) (tr lr rr : list nat).
Hypothesis what_wf : tt_wf what tr.
Hypothesis what_batch : batch_prefix what = [b].
Hypothesis what_raw : get_raw_shape what = [ns; ms].
Hypothesis what_ndims : ndims what = d.
Hypothesis L_wf : tt_wf L lr.
Hypothesis L_plain : batch_prefix L = [].
Hypothesis L_raw : get_raw_shape L = [ns; ms].
Hypothesis R_wf : tt_wf R rr.
Hypothesis R_plain : batch_prefix R = [].
Hypothesis R_raw : get_raw_shape R = [ns; ms].

Lemma matmul_ndims_L : ndims L = d.
Proof.
  rewrite <- what_ndims. eapply wf_same_ndims; eauto. congruence.
Qed.

Lemma matmul_ndims_R : ndims R = d.
Proof.
  rewrite <- what_ndims. eapply wf_same_ndims; eauto. congruence.
Qed.

Lemma what_core_at k c :
  tt_cores what !! k = Some c →
  get_shape c = [b; rk tr k; default 0 (ns !! k); default 0 (ms !! k);
                 rk tr (S k)].
Proof.
  intros Hc. destruct (wf_core what tr k what_wf) as (c' & Hc' & Hsh).
  { unfold ndims. by eapply lookup_lt_Some. }
  rewrite Hc in Hc'. injection Hc' as <-.
  by rewrite Hsh, what_batch, what_raw.
Qed.

Lemma L_core_at k c :
  tt_cores L !! k = Some c →
  get_shape c = [rk lr k; default 0 (ns !! k); default 0 (ms !! k);
                 rk lr (S k)].
Proof.
  intros Hc. destruct (wf_core L lr k L_wf) as (c' & Hc' & Hsh).
  { unfold ndims. by eapply lookup_lt_Some. }
  rewrite Hc in Hc'. injection Hc' as <-.
  by rewrite Hsh, L_plain, L_raw.
Qed.

Lemma R_core_at k c :
  tt_cores R !! k = Some c →
  get_shape c = [rk rr k; default 0 (ns !! k); default 0 (ms !! k);
                 rk rr (S k)].
Proof.
  intros Hc. destruct (wf_core R rr k R_wf) as (c' & Hc' & Hsh).
  { unfold ndims. by eapply lookup_lt_Some. }
  rewrite Hc in Hc'. injection Hc' as <-.
  by rewrite Hsh, R_plain, R_raw.
Qed.

Lemma rhs_matmul_turn_fits k rhs rhs' :
  outcome
    ((λ core_idx rhs,
        tens_core ← getitem (tt_cores what) core_idx;
        right_tang_core ← getitem (tt_cores R) core_idx;
        matrix_core ← getitem (tt_cores matrix) core_idx;
        next ← getslot rhs (core_idx + 1);
        t ← tf_.einsum "bije,cikf,sdef,sajkd->sabc"
              [matrix_core; right_tang_core; next; tens_core];
        setitem rhs core_idx (Some t)) k rhs) = Ok rhs' →
  matrix_core_fits matrix ns k = true.
Proof.
  intros H. cbv beta in H. do 5 tf_inv H. clear H.
  apply getitem_inv in Ha, Ha0, Ha1.
  apply what_core_at in Ha. apply R_core_at in Ha0.
  eapply (einsum_operand _ _ _ _ _ 0) in Ha3 as (e & Hm & Hall);
    [|vm_compute; reflexivity|reflexivity|reflexivity].
  cbn [fmap list_fmap] in Hall. rewrite Ha, Ha0 in Hall.
  labelled_inv. eapply matrix_core_fits_intro; eauto.
Qed.

Lemma lhs_matmul_turn_fits k lhs lhs' :
  outcome
    ((λ core_idx lhs,
        tens_core ← getitem (tt_cores what) core_idx;
        left_tang_core ← getitem (tt_cores L) core_idx;
        matrix_core ← getitem (tt_cores matrix) core_idx;
        prev ← getslot lhs core_idx;
        t ← tf_.einsum "bije,aikd,sabc,scjkf->sdef"
              [matrix_core; left_tang_core; prev; tens_core];
        setitem lhs (core_idx + 1) (Some t)) k lhs) = Ok lhs' →
  matrix_core_fits matrix ns k = true.
Proof.
  intros H. cbv beta in H. do 5 tf_inv H. clear H.
  apply getitem_inv in Ha, Ha0, Ha1.
  apply what_core_at in Ha. apply L_core_at in Ha0.
  eapply (einsum_operand _ _ _ _ _ 0) in Ha3 as (e & Hm & Hall);
    [|vm_compute; reflexivity|reflexivity|reflexivity].
  cbn [fmap list_fmap] in Hall. rewrite Ha, Ha0 in Hall.
  labelled_inv. eapply matrix_core_fits_intro; eauto.
Qed.

(** With one mode neither accumulator sweep runs; the only turn of the
    left to right sweep contracts the matrix core and concatenates the
    result with the left tangent core. *)
Lemma matmul_only_turn_fits where_ (oib : bool) n lhs rhs res res' :
  d = 1 → ndims where_ = 1 →
  outcome
    (project_matmul_step what where_ matrix L R oib n lhs rhs 0 res)
  = Ok res' →
  matrix_core_fits matrix ns 0 = true.
Proof.
  intros Hd Hw H. unfold project_matmul_step in H. rewrite Hw in H.
  tf_inv_as H tens_core Htens. tf_inv_as H matrix_core Hmat.
  tf_inv_as H left_tang_core Hleft. tf_inv_as H right_tang_core Hright.
  apply getitem_inv in Htens, Hmat, Hleft, Hright.
  apply what_core_at in Htens. apply L_core_at in Hleft.
  tf_inv_as H proj_core Hproj. tf_inv_as H ext Hext.
  destruct ext as [el er]. tf_inv_as H res_core Hres. clear H.
  (* the projection core *)
  unfold project_matmul_proj_core in Hproj.
  cbn [Nat.ltb Nat.leb Nat.sub] in Hproj.
  tf_inv_as Hproj none Hnone. injection Hnone as <-.
  cbn [Nat.eqb] in Hproj.
  tf_inv_as Hproj l Hl. tf_inv_as Hproj pc Hpc. injection Hproj as <-.
  apply einsum_inv in Hpc as (sh & Hsh & ->).
  apply ShapeFacts.einsum_sound in Hsh as (ins & out & e & Hp & Hall & Hout).
  vm_compute in Hp. injection Hp as <- <-.
  cbn [fmap list_fmap] in Hall. rewrite Htens in Hall.
  (* the tangent cores and the concatenation *)
  assert (get_shape el
          = (if oib then [n] else []) ++ get_shape left_tang_core) as Hel.
  { unfold extend_tangent_cores in Hext. destruct oib.
    - tf_inv_as Hext el1 Hel1. tf_inv_as Hext er1 Her1.
      tf_inv_as Hext el2 Hel2. tf_inv_as Hext er2 Her2.
      injection Hext as <- <-.
      apply add_node_inv in Hel1 as (s1 & Hs1 & ->).
      apply add_node_inv in Hel2 as (s3 & Hs3 & ->).
      rewrite ShapeFacts.expand_dims_0 in Hs1. injection Hs1 as <-.
      cbn [get_shape] in Hs3. rewrite Hleft in Hs3. cbn in Hs3.
      injection Hs3 as <-.
      by rewrite Hleft, !Nat.mul_1_r, Nat.add_0_r.
    - by injection Hext as <- <-. }
  unfold assemble_core in Hres. cbn [Nat.eqb] in Hres.
  tf_inv_as Hres pc' Hpc'. injection Hpc' as <-.
  apply concat_inv in Hres as (sh' & Hc & _).
  cbn [fmap list_fmap get_shape] in Hc. rewrite ShapeFacts.concat_pair in Hc.
  rewrite Hel, Hleft in Hc.
  labelled_inv. destruct oib.
  - apply (concat2_inv _ _ _ _ 2) in Hc; [|lia]. cbn in Hc.
    injection Hc as ->. eapply matrix_core_fits_intro; eauto.
  - apply (concat2_inv _ _ _ _ 4) in Hc; [|lia]. discriminate.
Qed.
End MatrixChecked.

Section MatrixFits.

Variable orthogonalize_tt_cores : tt_object → bool → tt_object.
Variable plain_batch_size : option nat.
Variables (what where_ matrix : tt_object) (tr wr lr rr ns ms : list nat).

Hypothesis where_wf : tt_wf where_ wr.
Hypothesis what_wf : tt_wf what tr.
Hypothesis same_raw : get_raw_shape where_ = get_raw_shape what.
Hypothesis what_raw : get_raw_shape what = [ns; ms].
Hypothesis left_ok :
  tangent_of where_ (orthogonalize_tt_cores where_ true) lr.
Hypothesis right_ok :
  tangent_of where_
    (orthogonalize_tt_cores (orthogonalize_tt_cores where_ true) false) rr.

(** [project_matmul] returns only if every core of [matrix] has the
    row and column mode sizes of the rows of [what]. *)
Lemma project_matmul_returns_fits r k :
  outcome
    (project_matmul orthogonalize_tt_cores plain_batch_size what where_
       matrix) = Ok r →
  k < ndims where_ → matrix_core_fits matrix ns k = true.
Proof.
  intros H Hk. unfold project_matmul in H.
  destruct left_ok as (HLp & HLraw & HLwf).
  destruct right_ok as (HRp & HRraw & HRwf).
  tf_inv_as H u Hchk. tf_inv_as H bs Hbs. tf_inv_as H w Hw.
  tf_inv_as H rhs Hrhs. tf_inv_as H lhs Hlhs. tf_inv_as H res Hres.
  clear H.
  destruct (expand_batch_dim_ok what tr what_wf)
    as (w' & Hw' & Hwf & Hwb & _ & Hwraw & _ & Hwd).
  rewrite Hw in Hw'. injection Hw' as <-.
  assert (ndims w = ndims where_) as Hd.
  { rewrite Hwd. symmetry. by eapply wf_same_ndims. }
  rewrite what_raw in Hwraw. rewrite same_raw, what_raw in HLraw, HRraw.
  set (L := orthogonalize_tt_cores where_ true) in *.
  set (R := orthogonalize_tt_cores L false) in *.
  assert (batch_prefix L = []) as HLb by (by destruct L).
  assert (batch_prefix R = []) as HRb by (by destruct R).
  destruct (decide (ndims where_ = 1)) as [H1|H1].
  - assert (k = 0) as -> by lia. rewrite H1 in Hres.
    apply for_head_inv in Hres as (res' & Hres).
    eapply (matmul_only_turn_fits w R L); eauto.
  - destruct k as [|k].
    + unfold prepare_lhs_matmul in Hlhs.
      tf_inv_as Hlhs ones Hones. tf_inv_as Hlhs lhs0 Hlhs0.
      eapply (for_each_inv _ _ _ _ 0) in Hlhs as (s1 & s2 & Hturn);
        [|apply elem_of_range; lia].
      eapply (lhs_matmul_turn_fits w L); eauto.
    + unfold prepare_rhs_matmul in Hrhs.
      tf_inv_as Hrhs ones Hones. tf_inv_as Hrhs rhs0 Hrhs0.
      eapply (for_each_inv _ _ _ _ (S k)) in Hrhs as (s1 & s2 & Hturn);
        [|apply elem_of_range_down; lia].
      eapply (rhs_matmul_turn_fits w R); eauto.
Qed.

End MatrixFits.

(** ** [project_matmul] on a plain [what] *)

(** A tensor returned by [tf.einsum] has one axis per output label. *)
Lemma einsum_result_rank equation inputs t ins out :
  outcome (tf_.einsum equation inputs) = Ok t →
  Shape.parse_equation equation = Some (ins, out) →
  length (get_shape t) = length out.
Proof.
  intros (sh & Hsh & ->)%einsum_inv Hp.
  apply ShapeFacts.einsum_sound in Hsh as (ins' & out' & e & Hp' & _ & Hl).
  rewrite Hp in Hp'. injection Hp' as <- <-.
  symmetry. by eapply Forall2_length.
Qed.

Lemma concat2_length a : ∀ b axis sh,
  Shape.concat2 a b axis = Some sh → length a = length b.
Proof.
  induction a as [|x a IH]; intros [|y b] [|n] sh H; cbn in H;
    try discriminate.
  - case_decide; [|done]. by subst.
  - destruct (Nat.eqb_spec x y) as [->|]; [|done].
    destruct (Shape.concat2 a b n) as [sh'|] eqn:E; [|done].
    cbn. f_equal. by eapply IH.
Qed.

Section PlainWhat.

Variables (what L : tt_object) (ns ms lr : list nat).
Hypothesis L_wf : tt_wf L lr.
Hypothesis L_plain : batch_prefix L = [].
Hypothesis L_raw : get_raw_shape L = [ns; ms].

(** The projection core of [project_matmul] always has the batch axis
    [s]: five axes. *)
Lemma project_matmul_proj_core_rank d k lhs rhs tens_core matrix_core
    left_tang_core o :
  k < d →
  outcome
    (project_matmul_proj_core d k lhs rhs tens_core matrix_core
       left_tang_core) = Ok o →
  ∃ t, o = Some t ∧ length (get_shape t) = 5.
Proof.
  intros Hk H. unfold project_matmul_proj_core in H.
  destruct (Nat.ltb_spec k (d - 1)) as [Hlt|Hge].
  - tf_inv_as H pc Hpc. do 6 tf_inv Hpc. tf_inv_as Hpc t Ht.
    injection Hpc as <-.
    eapply einsum_result_rank in Ht; [|vm_compute; reflexivity].
    destruct (Nat.eqb_spec k (d - 1)) as [->|_]; [lia|].
    injection H as <-. eauto.
  - tf_inv_as H pc Hpc. injection Hpc as <-.
    destruct (Nat.eqb_spec k (d - 1)) as [_|Hne]; [|lia].
    tf_inv_as H l Hl. tf_inv_as H t Ht. injection H as <-.
    eapply einsum_result_rank in Ht; [|vm_compute; reflexivity]. eauto.
Qed.

(** The first turn of the sweep of [project_matmul] returns only with a
    batch as [what]: otherwise it concatenates the five-axis projection
    core with the four-axis left tangent core. *)
Lemma project_matmul_first_turn_batch where_ matrix R (oib : bool) n lhs
    rhs res res' :
  0 < ndims where_ →
  outcome
    (project_matmul_step what where_ matrix L R oib n lhs rhs 0 res)
  = Ok res' →
  oib = true.
Proof.
  intros Hd H. destruct oib; [done|]. exfalso.
  unfold project_matmul_step in H.
  tf_inv_as H tens_core Htens. tf_inv_as H matrix_core Hmat.
  tf_inv_as H left_tang_core Hleft. tf_inv_as H right_tang_core Hright.
  apply getitem_inv in Hleft.
  destruct (wf_core L lr 0 L_wf) as (c' & Hc' & Hsh).
  { unfold ndims. by eapply lookup_lt_Some. }
  rewrite Hleft in Hc'. injection Hc' as <-.
  rewrite L_plain, L_raw in Hsh.
  tf_inv_as H proj_core Hproj. tf_inv_as H ext Hext.
  destruct ext as [el er]. tf_inv_as H res_core Hres. clear H.
  apply project_matmul_proj_core_rank in Hproj as (t & -> & Hlen);
    [|done].
  cbn in Hext. injection Hext as <- <-.
  unfold assemble_core in Hres. cbn [Nat.eqb] in Hres.
  tf_inv_as Hres pc' Hpc'. injection Hpc' as <-.
  apply concat_inv in Hres as (sh' & Hc & _).
  cbn [fmap list_fmap get_shape] in Hc. rewrite ShapeFacts.concat_pair in Hc.
  apply concat2_length in Hc. rewrite Hlen, Hsh in Hc. discriminate.
Qed.

End PlainWhat.

Section PlainWhatCall.

Variable orthogonalize_tt_cores : tt_object → bool → tt_object.
Variable plain_batch_size : option nat.

(** [project_matmul] never returns on a plain TT-matrix [what]. *)
Lemma project_matmul_plain_raises what where_ matrix wr lr ns ms :
  is_TensorTrain what = true →
  tt_wf where_ wr → get_raw_shape where_ = [ns; ms] →
  tangent_of where_ (orthogonalize_tt_cores where_ true) lr →
  ∃ e, outcome
         (project_matmul orthogonalize_tt_cores plain_batch_size what
            where_ matrix) = Raise e.
Proof.
  intros Hplain Hwhere Hraw (HLp & HLraw & HLwf).
  destruct (outcome _) as [r|e] eqn:H; [exfalso|by exists e].
  unfold project_matmul in H.
  tf_inv_as H u Hchk. tf_inv_as H bs Hbs. tf_inv_as H w Hw.
  tf_inv_as H rhs Hrhs. tf_inv_as H lhs Hlhs. tf_inv_as H res Hres.
  clear H. pose proof (wf_ndims _ _ Hwhere) as Hd.
  eapply (for_each_inv _ _ _ _ 0) in Hres as (s1 & s2 & Hturn);
    [|by apply elem_of_range].
  eapply (project_matmul_first_turn_batch _ _ ns ms lr) in Hturn;
    [|done|by destruct (orthogonalize_tt_cores where_ true)|congruence
     |done].
  by destruct what.
Qed.

End PlainWhatCall.

(** ** What a successful run of [project_sum] says about the weights *)

Section WeightsFit.

Local Open Scope string_scope.

(** The last turn of the sweep of [project_sum] contracts the weights
    with the last core of [what] under the shared batch label [s]. *)
Lemma project_sum_last_turn_weights d (matrix_cores oib : bool) w lhs rhs
    tens_core left_tang_core o b rest :
  0 < d → get_shape tens_core = b :: rest →
  outcome
    (project_sum_proj_core d (d - 1) (if matrix_cores then "ij" else "i")
       (if matrix_cores then "rt" else "r") (if oib then "o" else "")
       (Some w) lhs rhs tens_core left_tang_core) = Ok o →
  if oib then ∃ n, get_shape w = [b; n] else get_shape w = [b].
Proof.
  intros Hd Hsh H. unfold project_sum_proj_core in H.
  destruct (Nat.ltb_spec (d - 1) (d - 1)) as [?|_]; [lia|].
  tf_inv_as H none Hnone. clear Hnone.
  rewrite Nat.eqb_refl in H.
  tf_inv_as H l Hl. tf_inv_as H t Ht. clear H.
  destruct matrix_cores, oib.
  all: eapply (einsum_operand _ _ _ _ _ 2) in Ht as (e & Hw & Hall);
    [|vm_compute; reflexivity|reflexivity|reflexivity].
  all: cbn [fmap list_fmap] in Hall; rewrite Hsh in Hall.
  all: labelled_inv; eauto.
Qed.

End WeightsFit.

Section WeightsAccepted.

Variable orthogonalize_tt_cores : tt_object → bool → tt_object.
Variable plain_batch_size : option nat.

Lemma project_sum_returns_weights what where_ weights tr r :
  tt_wf what tr → 0 < ndims where_ →
  outcome
    (project_sum orthogonalize_tt_cores plain_batch_size what where_
       weights) = Ok r →
  weights_ok (promoted_batch_size what) weights.
Proof.
  intros Hwhat Hd H. destruct weights as [w|]; [|done].
  unfold project_sum in H.
  tf_inv_as H what' Hexp. tf_inv_as H u Hchk. tf_inv_as H bs Hbs.
  tf_inv_as H rhs Hrhs. tf_inv_as H lhs Hlhs. tf_inv_as H res Hres.
  clear H.
  destruct (expand_batch_dim_ok what tr Hwhat)
    as (w' & Hw' & Hwf & Hwb & _).
  rewrite Hexp in Hw'. injection Hw' as <-.
  eapply (for_each_inv _ _ _ _ (ndims where_ - 1)) in Hres
    as (s1 & s2 & Hturn); [|apply elem_of_range; lia].
  unfold project_sum_step in Hturn.
  tf_inv_as Hturn tens_core Htens. tf_inv_as Hturn left_tang_core Hleft.
  tf_inv_as Hturn right_tang_core Hright. tf_inv_as Hturn o Hproj.
  clear Hturn. apply getitem_inv in Htens.
  destruct (wf_core what' tr (ndims where_ - 1) Hwf) as (c & Hc & Hsh).
  { unfold ndims at 1. by eapply lookup_lt_Some. }
  rewrite Htens in Hc. injection Hc as <-. rewrite Hwb in Hsh.
  eapply project_sum_last_turn_weights in Hproj; [|done|exact Hsh].
  unfold weights_ok.
  destruct (weights_output_is_batch (Some w)) eqn:Hb.
  - destruct Hproj as (n & Hn). right. exists n. split; [|done].
    unfold weights_output_is_batch in Hb. rewrite Hn in Hb. cbn in Hb.
    destruct n as [|[|n]]; [done..|lia].
  - by left.
Qed.

End WeightsAccepted.

(** ** Concrete TT objects *)

Lemma tt_wf_check_sound tt ranks : tt_wf_check tt ranks = true → tt_wf tt ranks.
Proof.
  unfold tt_wf_check. rewrite !andb_true_iff, orb_true_iff.
  intros ((((((H1 & H2) & H3) & H4) & H5) & H6) & H7).
  constructor.
  - by apply Nat.ltb_lt.
  - by apply Nat.eqb_eq.
  - by apply Nat.eqb_eq.
  - by apply Nat.eqb_eq.
  - destruct H5 as [H5|H5]; apply Nat.eqb_eq in H5; auto.
  - apply Forall_forall. intros row Hin. rewrite forallb_forall in H6.
    apply Nat.eqb_eq, H6. by apply list_elem_of_In.
  - by apply bool_decide_eq_true in H7.
Qed.

(** On a well-formed plain point, the stand-in provider meets its contract. *)
Lemma keep_cores_tangent where_ ranks dir :
  is_TensorTrain where_ = true → tt_wf where_ ranks →
  tangent_of where_ (Sample.keep_cores where_ dir) ranks.
Proof. by intros H1 H2. Qed.

Lemma tangent_sum_ranks_lookup d lr rr k :
  k ≤ d →
  tangent_sum_ranks d lr rr !! k
  = Some (if (k =? 0) || (k =? d) then 1 else rk rr k + rk lr k).
Proof.
  intros Hk. unfold tangent_sum_ranks.
  by rewrite list_lookup_fmap, lookup_seq_lt by lia.
Qed.

(** * The claims *)

(** C1. Rank law, as the code has it: on every valid call with at least two
    modes, each of the three operations returns a TT object whose boundary
    ranks are 1 and whose rank at every interior cut [k] is the right
    tangent rank at [k] plus the left tangent rank at the same cut [k]. *)
Theorem rank_law orthogonalize_tt_cores plain_batch_size (c : call) :
  let where_ := call_where c in
  let left_tangent := orthogonalize_tt_cores where_ true in
  let right_tangent := orthogonalize_tt_cores left_tangent false in
  let lr := lazy_tt_ranks left_tangent in
  let rr := lazy_tt_ranks right_tangent in
  valid_call plain_batch_size c →
  tangent_of where_ left_tangent lr →
  tangent_of where_ right_tangent rr →
  2 ≤ ndims where_ →
  returns (run orthogonalize_tt_cores plain_batch_size c)
    (λ r, lazy_tt_ranks r !! 0 = Some 1 ∧
          lazy_tt_ranks r !! ndims where_ = Some 1 ∧
          length (lazy_tt_ranks r) = S (ndims where_) ∧
          ∀ k, 0 < k < ndims where_ →
               lazy_tt_ranks r !! k = Some (rk rr k + rk lr k)).
Proof.
  intros where_ L R lr rr Hvalid HL HR Hd.
  eapply returns_conseq; [by eapply run_ok|].
  intros r Hr. rewrite (projected_ranks _ _ _ _ _ Hd Hr).
  fold where_. rewrite !tangent_sum_ranks_lookup by lia.
  repeat split.
  - by rewrite (Nat.eqb_refl (ndims where_)), orb_true_r.
  - unfold tangent_sum_ranks. by rewrite length_fmap, length_seq.
  - intros k Hk. rewrite tangent_sum_ranks_lookup by lia.
    destruct (Nat.eqb_spec k 0) as [?|_]; [lia|].
    by destruct (Nat.eqb_spec k (ndims where_)) as [?|_]; [lia|].
Qed.

Lemma rank_law_witness :
  let c := Project Sample.what_batch_232 Sample.where_232 in
  valid_call None c ∧ 2 ≤ ndims (call_where c) ∧
  returns (run Sample.keep_cores None c)
    (λ r, lazy_tt_ranks r !! 0 = Some 1 ∧ lazy_tt_ranks r !! 3 = Some 1 ∧
          length (lazy_tt_ranks r) = 4 ∧
          ∀ k, 0 < k < 3 →
               lazy_tt_ranks r !! k
               = Some (rk [1; 2; 2; 1] k + rk [1; 2; 2; 1] k)).
Proof.
  intros c.
  assert (tt_wf Sample.where_232 [1; 2; 2; 1]) as Hwhere
    by (by apply tt_wf_check_sound).
  assert (valid_call None c) as Hvalid.
  { split; cbn; try done.
    - by exists [1; 2; 2; 1].
    - exists [1; 3; 3; 1]. by apply tt_wf_check_sound. }
  split; [exact Hvalid|]. split; [cbn; lia|].
  apply (rank_law Sample.keep_cores None c Hvalid).
  - by apply keep_cores_tangent.
  - by apply keep_cores_tangent.
  - cbn. lia.
Defined.

(** C1 as stated fails: in the scenario of section 8 of the spec, on a batch
    of four perturbations, the rank at cut 2 is 4, and not
    [right_tangent_rank[2] + left_tangent_rank[3]], which is 3. *)
Lemma rank_law_as_stated_fails :
  let where_ := Sample.where_232 in
  let left_tangent := Sample.keep_cores where_ true in
  let right_tangent := Sample.keep_cores left_tangent false in
  ∃ r, outcome (project Sample.keep_cores None Sample.what_batch_232 where_)
       = Ok r ∧
       lazy_tt_ranks r !! 2 = Some 4 ∧
       rk (lazy_tt_ranks right_tangent) 2 + rk (lazy_tt_ranks left_tangent) 3
       = 3.
Proof. eexists. split; [vm_compute; reflexivity|]. by vm_compute. Qed.



(** C3. [project] does not reproduce a point from itself: [where] is a plain
    TT object, and on a plain [what] [project] asks for the batch size
    (line 229) before it promotes [what] to a batch (line 244); the helper
    raises there, so [project(where, where)] raises, with [where]
    orthogonalised (lines 221-224) and no node of [project]'s own built. *)
Theorem project_on_itself_raises orthogonalize_tt_cores (where_ : tt_object) :
  let m := project orthogonalize_tt_cores None where_ where_ in
  is_TensorTrain where_ = true →
  outcome m = Raise BatchSizeUnavailable ∧ graph m = [].
Proof.
  intros m Hplain. unfold m.
  rewrite project_plain_what_raises; [done|done|].
  apply check_pass; [done|done|]. by apply bool_decide_eq_true.
Qed.

Lemma project_on_itself_raises_witness :
  let m :=
    project Sample.keep_cores None Sample.where_232 Sample.where_232 in
  outcome m = Raise BatchSizeUnavailable ∧ graph m = [].
Proof.
  apply (project_on_itself_raises Sample.keep_cores Sample.where_232).
  reflexivity.
Defined.

(** C6. Each of the three operations fails with the error of the first check
    that does not hold: [where] is not a single TT-tensor, else the raw
    shapes differ (the error carries both), else the element types are
    incompatible.  [project] and [project_matmul] have built nothing by
    then; [project_sum] has promoted [what] to a batch, and nothing else.
    When all three checks hold, no operation raises any of these errors. *)
Theorem argument_checks orthogonalize_tt_cores plain_batch_size (c : call) :
  let what := call_what c in
  let where_ := call_where c in
  let m := run orthogonalize_tt_cores plain_batch_size c in
  (is_TensorTrain where_ = false →
   m = (Raise (NotATensorTrain where_), built_before_checks c)) ∧
  (is_TensorTrain where_ = true →
   get_raw_shape where_ ≠ get_raw_shape what →
   m = (Raise (ShapesDoNotMatch (get_raw_shape where_) (get_raw_shape what)),
        built_before_checks c)) ∧
  (is_TensorTrain where_ = true →
   get_raw_shape where_ = get_raw_shape what →
   is_compatible_with (dtype where_) (dtype what) = false →
   m = (Raise (DtypesDoNotCoincide (dtype where_) (dtype what)),
        built_before_checks c)) ∧
  (is_TensorTrain where_ = true →
   get_raw_shape where_ = get_raw_shape what →
   is_compatible_with (dtype where_) (dtype what) = true →
   raises_only not_argument_error m) ∧
  Forall (λ o, is_contraction o = false) (built_before_checks c).
Proof.
  intros what where_ m. split; [|split; [|split; [|split]]].
  - intros H. by apply run_fails_at_checks, check_not_plain.
  - intros H1 H2. by apply run_fails_at_checks, check_shapes.
  - intros H1 H2 H3. by apply run_fails_at_checks, check_dtypes.
  - intros H1 H2 H3. by apply run_raises_after.
  - destruct c as [w x|w x ws|w x mx]; cbn; [done| |done].
    unfold promotion_nodes. destruct (is_TensorTrain w); [|done].
    by apply Forall_replicate.
Qed.

Lemma argument_checks_witness :
  run Sample.keep_cores None
    (Project Sample.what_batch_232 Sample.what_batch_232)
  = (Raise (NotATensorTrain Sample.what_batch_232), []) ∧
  run Sample.keep_cores None
    (ProjectSum Sample.what_batch_232 Sample.where_23 None)
  = (Raise (ShapesDoNotMatch [[2; 3]] [[2; 3; 2]]), []) ∧
  raises_only not_argument_error
    (run Sample.keep_cores None
       (Project Sample.what_batch_232 Sample.where_232)).
Proof.
  split; [|split].
  - by apply (argument_checks Sample.keep_cores None
                (Project Sample.what_batch_232 Sample.what_batch_232)).
  - by apply (argument_checks Sample.keep_cores None
                (ProjectSum Sample.what_batch_232 Sample.where_23 None)).
  - by apply (argument_checks Sample.keep_cores None
                (Project Sample.what_batch_232 Sample.where_232)).
Defined.

(** C6 as stated fails for [project_sum]: on a plain [what] with a batch as
    [where], the three cores of [what] have been given a batch axis, three
    nodes of the graph, when the first check raises. *)
Lemma project_sum_promotes_before_checks :
  let m :=
    project_sum Sample.keep_cores None Sample.what_232 Sample.what_batch_232
      None in
  outcome m = Raise (NotATensorTrain Sample.what_batch_232) ∧
  graph m = [OpExpandDims; OpExpandDims; OpExpandDims] ∧
  graph m ≠ [].
Proof. by vm_compute. Qed.

(** C7. [project_matmul] has no check of its own on [matrix]: a matrix with
    a core that is not a four-axis core with the row mode size of [what] as
    its row and column mode sizes gets through the argument checks, and the
    call then fails inside one of its contractions, with an error that is
    none of the errors of the argument checks. *)
Theorem matrix_rejected_by_contraction orthogonalize_tt_cores
    plain_batch_size (what where_ matrix : tt_object)
    (tr wr lr rr ns ms : list nat) (k : nat) :
  let left_tangent := orthogonalize_tt_cores where_ true in
  let right_tangent := orthogonalize_tt_cores left_tangent false in
  let m :=
    project_matmul orthogonalize_tt_cores plain_batch_size what where_
      matrix in
  is_TensorTrain where_ = true → tt_wf where_ wr → tt_wf what tr →
  get_raw_shape where_ = get_raw_shape what →
  is_compatible_with (dtype where_) (dtype what) = true →
  get_raw_shape what = [ns; ms] →
  tangent_of where_ left_tangent lr →
  tangent_of where_ right_tangent rr →
  k < ndims where_ → matrix_core_fits matrix ns k = false →
  check_arguments what where_ = mret () ∧
  ∃ e, outcome m = Raise e ∧ not_argument_error e.
Proof.
  intros L R m Hplain Hwhere Hwhat Hraw Hdt Hns HL HR Hk Hfits.
  assert (check_arguments what where_ = mret ()) as Hc
    by (by apply check_pass).
  split; [done|]. destruct (outcome m) as [r|e] eqn:E.
  - eapply (project_matmul_returns_fits orthogonalize_tt_cores
              plain_batch_size what where_ matrix tr wr lr rr ns ms)
      in E; eauto.
    congruence.
  - exists e. split; [done|].
    by eapply (project_matmul_raises_after orthogonalize_tt_cores
                 plain_batch_size what where_ matrix).
Qed.

Lemma matrix_rejected_by_contraction_witness :
  let m :=
    project_matmul Sample.keep_cores None Sample.what_matrix_batch
      Sample.where_matrix Sample.ill_sized_matrix in
  matrix_core_fits Sample.ill_sized_matrix [2; 3; 2] 0 = false ∧
  check_arguments Sample.what_matrix_batch Sample.where_matrix = mret () ∧
  ∃ e, outcome m = Raise e ∧ not_argument_error e.
Proof.
  intros m. split; [reflexivity|].
  assert (tt_wf Sample.where_matrix [1; 2; 2; 1]) as Hwhere
    by (by apply tt_wf_check_sound).
  apply (matrix_rejected_by_contraction Sample.keep_cores None
           Sample.what_matrix_batch Sample.where_matrix
           Sample.ill_sized_matrix [1; 3; 3; 1] [1; 2; 2; 1] [1; 2; 2; 1]
           [1; 2; 2; 1] [2; 3; 2] [2; 3; 2] 0); try done.
  - by apply tt_wf_check_sound.
  - cbn. lia.
Defined.

(** C7 as stated fails: a matrix whose column mode sizes [5, 3, 2] are not
    those of [what] passes the checks of [project_matmul], which raises only
    in the first contraction of the second sweep, when the two
    contractions of the first sweep are already in the graph. *)
Lemma matrix_mismatch_found_late :
  let m :=
    project_matmul Sample.keep_cores None Sample.what_matrix_batch
      Sample.where_matrix Sample.ill_sized_matrix in
  get_raw_shape Sample.ill_sized_matrix = [[2; 3; 2]; [5; 3; 2]] ∧
  get_raw_shape Sample.what_matrix_batch = [[2; 3; 2]; [2; 3; 2]] ∧
  outcome m
  = Raise (OpShapeError (OpEinsum "bije,aikd,sabc,scjkf->sdef")
             [[1; 2; 5; 1]; [1; 2; 2; 2]; [4; 1; 1; 1]; [4; 1; 2; 2; 3]]) ∧
  filter (λ o, is_contraction o = true) (graph m)
  = [OpEinsum "bije,cikf,sdef,sajkd->sabc";
     OpEinsum "bije,cikf,sdef,sajkd->sabc"] ∧
  ¬ ∃ e, fails_before_contracting m e.
Proof.
  intros m. split; [done|]. split; [done|]. split; [by vm_compute|].
  split; [by vm_compute|]. intros (e & _ & Hg).
  assert (OpEinsum "bije,cikf,sdef,sajkd->sabc" ∈ graph m) as Hin.
  { vm_compute. apply elem_of_cons. right. apply elem_of_cons. by left. }
  rewrite Forall_forall in Hg. by apply Hg in Hin.
Qed.

(** C8. One turn of the sweep of [project_sum] that returns has applied the
    gauge subtraction exactly when its index [k] is below [d - 1]: at every
    index but the last one, the first index 0 included. *)
Theorem gauge_subtraction_indices (what where_ L R : tt_object)
    (weights : option tensor) (lhs rhs : list (option tensor)) (k : nat)
    (res res' : list tensor) :
  let turn := project_sum_step what where_ L R weights lhs rhs k res in
  outcome turn = Ok res' →
  OpSubtract ∈ graph turn ↔ k < ndims where_ - 1.
Proof.
  intros turn Hok. split.
  - intros Hin. destruct (decide (k < ndims where_ - 1)) as [|Hk]; [done|].
    exfalso. revert Hin. apply adds_only_not_in.
    unfold turn, project_sum_step.
    pose proof (project_sum_proj_core_no_subtract (ndims where_) k) as H1.
    pose proof extend_tangent_cores_no_subtract as H2.
    pose proof assemble_core_no_subtract as H3.
    do 3 (apply adds_only_bind; [apply adds_only_getitem|intros ?]).
    apply adds_only_bind; [by apply H1|intros ?].
    apply adds_only_bind; [apply H2|intros [? ?]].
    apply adds_only_bind; [apply H3|intros ?]. apply adds_only_ret.
  - intros Hk. revert Hok. generalize res'. change (adds OpSubtract turn).
    unfold turn, project_sum_step.
    do 3 (apply adds_bind_r; intros ?).
    by apply adds_bind_l, project_sum_proj_core_subtracts.
Qed.

Lemma gauge_subtraction_indices_witness :
  let turn :=
    project_sum_step Sample.what_batch_23 Sample.where_23 Sample.where_23
      Sample.where_23 None Sample.lhs_23 Sample.rhs_23 1 [] in
  ∃ res', outcome turn = Ok res' ∧
          (OpSubtract ∈ graph turn ↔ 1 < ndims Sample.where_23 - 1).
Proof.
  intros turn. eexists. split; [vm_compute; reflexivity|].
  eapply gauge_subtraction_indices. vm_compute. reflexivity.
Defined.

(** C8 as stated fails: with two modes no index lies strictly between 0 and
    [d - 1], yet the turn at index 0 subtracts. *)
Lemma gauge_subtraction_at_first_index :
  let turn :=
    project_sum_step Sample.what_batch_23 Sample.where_23 Sample.where_23
      Sample.where_23 None Sample.lhs_23 Sample.rhs_23 0 [] in
  (∃ res', outcome turn = Ok res') ∧ OpSubtract ∈ graph turn ∧
  ¬ (0 < 0 < ndims Sample.where_23 - 1).
Proof.
  intros turn. split; [eexists; vm_compute; reflexivity|]. split.
  - apply list_elem_of_In. vm_compute. auto 20.
  - cbn. lia.
Qed.

(** With weights of shape [S x O], [O >= 2], and at least two modes,
    [project_sum] on a valid call returns a batch of size [O] of the raw
    shape of [where], whose cores carry the axis [O] in front of the shape
    of a projection core. *)
Theorem weighted_sums_batch orthogonalize_tt_cores plain_batch_size
    (what where_ : tt_object) (w : tensor) (n_s n_o : nat)
    (lr rr : list nat) :
  let left_tangent := orthogonalize_tt_cores where_ true in
  let right_tangent := orthogonalize_tt_cores left_tangent false in
  valid_call plain_batch_size (ProjectSum what where_ (Some w)) →
  tangent_of where_ left_tangent lr →
  tangent_of where_ right_tangent rr →
  get_shape w = [n_s; n_o] → 2 ≤ n_o → 2 ≤ ndims where_ →
  returns
    (project_sum orthogonalize_tt_cores plain_batch_size what where_ (Some w))
    (λ r, is_TensorTrainBatch r = true ∧ batch_size_attr r = n_o ∧
          n_s = promoted_batch_size what ∧
          get_raw_shape r = get_raw_shape where_ ∧
          ∀ k, k < ndims where_ →
               ∃ c, tt_cores r !! k = Some c ∧
                    get_shape c
                    = n_o :: res_shape (get_raw_shape where_) (ndims where_)
                               lr rr [] k).
Proof.
  intros L R Hvalid HL HR Hw Ho _.
  pose proof (run_ok orthogonalize_tt_cores plain_batch_size
                (ProjectSum what where_ (Some w)) lr rr Hvalid HL HR) as Hrun.
  assert (n_s = promoted_batch_size what) as Hs.
  { destruct Hvalid as [_ _ _ _ _ Hx]. cbn in Hx. rewrite Hw in Hx.
    destruct Hx as [Hx|(n & _ & Hx)]; [done|]. by injection Hx. }
  assert (output_prefix (Some w) = [n_o]) as Hpre.
  { unfold output_prefix, weights_output_is_batch. rewrite Hw. cbn.
    destruct n_o as [|[|n]]; [lia..|]. by rewrite Hw. }
  eapply returns_conseq; [exact Hrun|].
  cbn [call_where call_output_prefix run]. rewrite Hpre.
  intros r (Hb & Hraw & Hlen & Hcores).
  destruct r as [cores raw dt|cores raw bs dt]; [done|].
  cbn in Hb. injection Hb as ->. done.
Qed.

Lemma weighted_sums_batch_witness :
  let w := Placeholder "weights" [4; 5] in
  returns
    (project_sum Sample.keep_cores None Sample.what_batch_232
       Sample.where_232 (Some w))
    (λ r, is_TensorTrainBatch r = true ∧ batch_size_attr r = 5 ∧
          4 = promoted_batch_size Sample.what_batch_232 ∧
          get_raw_shape r = [[2; 3; 2]] ∧
          ∀ k, k < 3 →
               ∃ c, tt_cores r !! k = Some c ∧
                    get_shape c
                    = 5 :: res_shape [[2; 3; 2]] 3 [1; 2; 2; 1] [1; 2; 2; 1]
                             [] k).
Proof.
  intros w.
  assert (tt_wf Sample.where_232 [1; 2; 2; 1]) as Hwhere
    by (by apply tt_wf_check_sound).
  apply (weighted_sums_batch Sample.keep_cores None Sample.what_batch_232
           Sample.where_232 w 4 5 [1; 2; 2; 1] [1; 2; 2; 1]).
  - split; cbn; try done.
    + by exists [1; 2; 2; 1].
    + exists [1; 3; 3; 1]. by apply tt_wf_check_sound.
    + right. exists 5. split; [lia|done].
  - by apply keep_cores_tangent.
  - by apply keep_cores_tangent.
  - reflexivity.
  - lia.
  - cbn. lia.
Defined.

(** C9. With one column of weights [project_sum] returns no batch of size
    one: on weights of shape [4 x 1] the output is not taken as a batch
    (line 71), the weights are contracted under the one label [s], and
    [tf.einsum] rejects the two-axis operand. *)
Lemma weights_with_one_column_raise :
  let w := Placeholder "weights" [4; 1] in
  weights_output_is_batch (Some w) = false ∧
  outcome
    (project_sum Sample.keep_cores None Sample.what_batch_232
       Sample.where_232 (Some w))
  = Raise (OpShapeError (OpEinsum "saib,s->aib") [[4; 1; 2; 2]; [4; 1]]).
Proof. intros w. split; [done|]. by vm_compute. Qed.

(** C10. What [project_sum] returns is a batch exactly when the weights are
    a two-axis array whose second dimension exceeds 1, and then its batch
    size is that dimension; with the weights omitted or one per batch
    element it returns a plain [TensorTrain].  No batch of size one is ever
    returned, but not because a single TT-tensor is: on weights of shape
    [(S, 1)] the call raises, on well-formed arguments that pass the
    checks. *)
Theorem project_sum_output_kind orthogonalize_tt_cores plain_batch_size
    (what where_ : tt_object) (weights : option tensor)
    (tr wr lr rr : list nat) :
  let left_tangent := orthogonalize_tt_cores where_ true in
  let right_tangent := orthogonalize_tt_cores left_tangent false in
  let m :=
    project_sum orthogonalize_tt_cores plain_batch_size what where_
      weights in
  is_TensorTrain where_ = true → tt_wf where_ wr → tt_wf what tr →
  get_raw_shape where_ = get_raw_shape what →
  is_compatible_with (dtype where_) (dtype what) = true →
  tangent_of where_ left_tangent lr →
  tangent_of where_ right_tangent rr →
  (∀ r, outcome m = Ok r →
        (is_TensorTrainBatch r = true
         ↔ ∃ w s o, weights = Some w ∧ get_shape w = [s; o] ∧ 1 < o) ∧
        (is_TensorTrainBatch r = true →
         1 < batch_size_attr r ∧
         ∃ w s, weights = Some w ∧ get_shape w = [s; batch_size_attr r]) ∧
        (is_TensorTrainBatch r = false →
         weights = None
         ∨ ∃ w, weights = Some w ∧
                get_shape w = [promoted_batch_size what])) ∧
  (∀ w s, weights = Some w → get_shape w = [s; 1] →
          ∃ e, outcome m = Raise e ∧ not_argument_error e) ∧
  (2 ≤ ndims where_ → weights_ok (promoted_batch_size what) weights →
   ∃ r, outcome m = Ok r).
Proof.
  intros L R m Hplain Hwhere Hwhat Hraw Hdt HL HR.
  pose proof (wf_ndims _ _ Hwhere) as Hd.
  split; [|split].
  - intros r Hr.
    pose proof (project_sum_batch_weights _ _ _ _ _ _ Hd Hr) as Hw.
    pose proof (project_sum_returns_weights _ _ _ _ _ _ _ Hwhat Hd Hr) as Hok.
    apply project_sum_inv in Hr as (w' & L' & R' & lhs & rhs & cores & _ & ->).
    unfold make_result.
    destruct (weights_output_is_batch weights) eqn:Hb.
    + destruct (Hw eq_refl) as (w & s & o & -> & Hsh & Ho). cbn.
      rewrite Hsh. cbn. split; [|split; [eauto 10|done]].
      split; [eauto 10|done].
    + cbn. split; [|split; [done|]].
      * split; [done|].
        intros (w & s & o & -> & Hsh & Ho).
        unfold weights_output_is_batch in Hb.
        rewrite Hsh in Hb. cbn in Hb. destruct o as [|[|o]]; [lia..|done].
      * intros _. destruct weights as [w|]; [right|by left].
        exists w. split; [done|].
        destruct Hok as [Hsh|(n & Hn & Hsh)]; [done|].
        unfold weights_output_is_batch in Hb. rewrite Hsh in Hb. cbn in Hb.
        destruct n as [|[|n]]; [lia..|done].
  - intros w s -> Hsh.
    destruct (outcome m) as [r|e] eqn:E.
    + apply (project_sum_returns_weights _ _ _ _ _ _ _ Hwhat Hd) in E.
      cbn in E. rewrite Hsh in E.
      destruct E as [E|(n & Hn & E)]; [done|]. injection E as _ <-. lia.
    + exists e. split; [done|].
      by eapply (project_sum_raises_after orthogonalize_tt_cores
                   plain_batch_size what where_ (Some w)).
  - intros _ Hw.
    destruct (project_sum_ok orthogonalize_tt_cores plain_batch_size what
                where_ tr wr lr rr Hplain Hwhere Hwhat Hraw Hdt HL HR
                weights Hw) as (r & Hr & _).
    by exists r.
Qed.

Lemma project_sum_output_kind_witness :
  let weights := Some (Placeholder "weights" [4; 1]) in
  let m :=
    project_sum Sample.keep_cores None Sample.what_batch_23 Sample.where_23
      weights in
  (∀ r, outcome m = Ok r →
        (is_TensorTrainBatch r = true
         ↔ ∃ w s o, weights = Some w ∧ get_shape w = [s; o] ∧ 1 < o) ∧
        (is_TensorTrainBatch r = true →
         1 < batch_size_attr r ∧
         ∃ w s, weights = Some w ∧ get_shape w = [s; batch_size_attr r]) ∧
        (is_TensorTrainBatch r = false →
         weights = None
         ∨ ∃ w, weights = Some w ∧
                get_shape w = [promoted_batch_size Sample.what_batch_23])) ∧
  (∀ w s, weights = Some w → get_shape w = [s; 1] →
          ∃ e, outcome m = Raise e ∧ not_argument_error e) ∧
  (2 ≤ ndims Sample.where_23 →
   weights_ok (promoted_batch_size Sample.what_batch_23) weights →
   ∃ r, outcome m = Ok r).
Proof.
  intros weights m.
  assert (tt_wf Sample.where_23 [1; 2; 1]) as Hwhere
    by (by apply tt_wf_check_sound).
  apply (project_sum_output_kind Sample.keep_cores None Sample.what_batch_23
           Sample.where_23 weights [1; 3; 1] [1; 2; 1] [1; 2; 1] [1; 2; 1]).
  - reflexivity.
  - exact Hwhere.
  - by apply tt_wf_check_sound.
  - reflexivity.
  - reflexivity.
  - by apply keep_cores_tangent.
  - by apply keep_cores_tangent.
Defined.

(** * Further properties of the three operations *)

(** ** The batch axis *)



(** ** The accumulators *)

(** A loop that returns keeps what each of its turns keeps. *)
Lemma for_preserves {S} (P : S → Prop) idxs body (s r : S) :
  (∀ i s s', i ∈ idxs → P s → outcome (body i s) = Ok s' → P s') →
  P s → outcome (for_ idxs body s) = Ok r → P r.
Proof.
  revert s. induction idxs as [|j idxs IH]; intros s Hbody Hs Hr.
  - cbn in Hr. by injection Hr as <-.
  - cbn in Hr. apply outcome_bind_inv in Hr as (s' & Hb & Hr).
    eapply IH; [|eapply Hbody; [|exact Hs|exact Hb]|exact Hr].
    + intros i s1 s2 Hi. apply Hbody. by apply elem_of_cons; right.
    + apply elem_of_cons. by left.
Qed.

Lemma setitem_inv {A} (l l' : list A) i x :
  outcome (setitem l i x) = Ok l' → l' = <[i := x]> l ∧ i < length l.
Proof.
  unfold setitem. case_decide; cbn; [|discriminate]. by intros [= <-].
Qed.

Lemma elem_of_range_inv n i : i ∈ range n → i < n.
Proof. unfold range. rewrite elem_of_seq. lia. Qed.

Lemma elem_of_range_down_inv m i : i ∈ range_down m 0 → 0 < i ≤ m.
Proof. unfold range_down. rewrite elem_of_reverse, elem_of_seq. lia. Qed.

Lemma prepare_rhs_first_slot what R b d mode_str rhs :
  0 < d →
  outcome (prepare_rhs what R d b mode_str) = Ok rhs → rhs !! 0 = Some None.
Proof.
  intros Hd H. unfold prepare_rhs in H.
  tf_inv_as H ones Hones. tf_inv_as H rhs0 Hrhs0.
  apply setitem_inv in Hrhs0 as [-> _].
  revert H. apply (for_preserves (λ l, l !! 0 = Some None)).
  - intros i s s' Hi%elem_of_range_down_inv Hs Ht.
    do 4 tf_inv Ht. apply setitem_inv in Ht as [-> _].
    by rewrite list_lookup_insert_ne by lia.
  - rewrite list_lookup_insert_ne by lia.
    apply lookup_replicate_2. lia.
Qed.

Lemma prepare_lhs_last_slot what L b d mode_str lhs :
  0 < d →
  outcome (prepare_lhs what L d b mode_str) = Ok lhs → lhs !! d = Some None.
Proof.
  intros Hd H. unfold prepare_lhs in H.
  tf_inv_as H ones Hones. tf_inv_as H lhs0 Hlhs0.
  apply setitem_inv in Hlhs0 as [-> _].
  revert H. apply (for_preserves (λ l, l !! d = Some None)).
  - intros i s s' Hi%elem_of_range_inv Hs Ht.
    do 4 tf_inv Ht. apply setitem_inv in Ht as [-> _].
    by rewrite list_lookup_insert_ne by lia.
  - rewrite list_lookup_insert_ne by lia.
    apply lookup_replicate_2. lia.
Qed.

(** The accumulators of [project] and [project_sum], on a well-formed batch
    [what] of size [b] and well-formed plain tangent objects: [rhs] and [lhs]
    have [d + 1] slots; [rhs[k]] holds a tensor of shape
    [(b, tensor_rank_k, right_tangent_rank_k)] for [1 <= k <= d] and
    [rhs[0]] is left as [None]; [lhs[k]] holds a tensor of shape
    [(b, left_tangent_rank_k, tensor_rank_k)] for [0 <= k <= d - 1] and
    [lhs[d]] is left as [None]. *)
Theorem accumulators_filled (what L R : tt_object) (b : nat)
    (tr lr rr : list nat) :
  let d := ndims what in
  let raw := get_raw_shape what in
  let mode_str := if length raw =? 2 then "ij"%string else "i"%string in
  tt_wf what tr → batch_prefix what = [b] →
  tt_wf L lr → batch_prefix L = [] → get_raw_shape L = raw →
  tt_wf R rr → batch_prefix R = [] → get_raw_shape R = raw →
  returns (prepare_rhs what R d b mode_str)
    (λ rhs, length rhs = d + 1 ∧ rhs !! 0 = Some None ∧
            ∀ k, 1 ≤ k ≤ d →
                 ∃ t, rhs !! k = Some (Some t) ∧
                      get_shape t = [b; rk tr k; rk rr k]) ∧
  returns (prepare_lhs what L d b mode_str)
    (λ lhs, length lhs = d + 1 ∧ lhs !! d = Some None ∧
            ∀ k, k ≤ d - 1 →
                 ∃ t, lhs !! k = Some (Some t) ∧
                      get_shape t = [b; rk lr k; rk tr k]).
Proof.
  intros d raw mode_str Hw Hwb HL HLb HLraw HR HRb HRraw.
  pose proof (wf_ndims _ _ Hw) as Hd. split.
  - assert (returns (prepare_rhs what R d b mode_str) (rhs_filled b d tr rr 1))
      as (rhs & Hrhs & Hlen & Hk) by (eapply prepare_rhs_ok; eauto).
    exists rhs. split; [done|]. split; [done|]. split; [|done].
    by eapply prepare_rhs_first_slot.
  - assert (returns (prepare_lhs what L d b mode_str)
              (lhs_filled b d lr tr (d - 1)))
      as (lhs & Hlhs & Hlen & Hk) by (eapply prepare_lhs_ok; eauto).
    exists lhs. split; [done|]. split; [done|]. split; [|done].
    by eapply prepare_lhs_last_slot.
Qed.

Lemma accumulators_filled_witness :
  returns (prepare_rhs Sample.what_batch_23 Sample.where_23 2 4 "i")
    (λ rhs, length rhs = 2 + 1 ∧ rhs !! 0 = Some None ∧
            ∀ k, 1 ≤ k ≤ 2 →
                 ∃ t, rhs !! k = Some (Some t) ∧
                      get_shape t = [4; rk [1; 3; 1] k; rk [1; 2; 1] k]) ∧
  returns (prepare_lhs Sample.what_batch_23 Sample.where_23 2 4 "i")
    (λ lhs, length lhs = 2 + 1 ∧ lhs !! 2 = Some None ∧
            ∀ k, k ≤ 2 - 1 →
                 ∃ t, lhs !! k = Some (Some t) ∧
                      get_shape t = [4; rk [1; 2; 1] k; rk [1; 3; 1] k]).
Proof.
  apply (accumulators_filled Sample.what_batch_23 Sample.where_23
           Sample.where_23 4 [1; 3; 1] [1; 2; 1] [1; 2; 1]);
    try reflexivity; by apply tt_wf_check_sound.
Defined.

Lemma prepare_rhs_matmul_first_slot what R matrix b d rhs :
  0 < d →
  outcome (prepare_rhs_matmul what R matrix d b) = Ok rhs →
  rhs !! 0 = Some None.
Proof.
  intros Hd H. unfold prepare_rhs_matmul in H.
  tf_inv_as H ones Hones. tf_inv_as H rhs0 Hrhs0.
  apply setitem_inv in Hrhs0 as [-> _].
  revert H. apply (for_preserves (λ l, l !! 0 = Some None)).
  - intros i s s' Hi%elem_of_range_down_inv Hs Ht.
    do 5 tf_inv Ht. apply setitem_inv in Ht as [-> _].
    by rewrite list_lookup_insert_ne by lia.
  - rewrite list_lookup_insert_ne by lia.
    apply lookup_replicate_2. lia.
Qed.

Lemma prepare_lhs_matmul_last_slot what L matrix b d lhs :
  0 < d →
  outcome (prepare_lhs_matmul what L matrix d b) = Ok lhs →
  lhs !! d = Some None.
Proof.
  intros Hd H. unfold prepare_lhs_matmul in H.
  tf_inv_as H ones Hones. tf_inv_as H lhs0 Hlhs0.
  apply setitem_inv in Hlhs0 as [-> _].
  revert H. apply (for_preserves (λ l, l !! d = Some None)).
  - intros i s s' Hi%elem_of_range_inv Hs Ht.
    do 5 tf_inv Ht. apply setitem_inv in Ht as [-> _].
    by rewrite list_lookup_insert_ne by lia.
  - rewrite list_lookup_insert_ne by lia.
    apply lookup_replicate_2. lia.
Qed.

(** The accumulators of [project_matmul] carry the TT-rank of [matrix] as
    one more axis: on a well-formed batch of TT-matrices [what] of size [b]
    and a well-formed TT-matrix [matrix] over the row mode sizes of [what],
    [rhs[k]] has shape [(b, tensor_rank_k, matrix_rank_k,
    right_tangent_rank_k)] for [1 <= k <= d], [lhs[k]] has shape
    [(b, left_tangent_rank_k, matrix_rank_k, tensor_rank_k)] for
    [0 <= k <= d - 1], and [rhs[0]] and [lhs[d]] are left as [None]. *)
Theorem accumulators_filled_matmul (what L R matrix : tt_object)
    (ns ms : list nat) (b : nat) (tr lr rr mr : list nat) :
  let d := ndims what in
  tt_wf what tr → batch_prefix what = [b] → get_raw_shape what = [ns; ms] →
  tt_wf L lr → batch_prefix L = [] → get_raw_shape L = [ns; ms] →
  tt_wf R rr → batch_prefix R = [] → get_raw_shape R = [ns; ms] →
  tt_wf matrix mr → batch_prefix matrix = [] →
  get_raw_shape matrix = [ns; ns] →
  returns (prepare_rhs_matmul what R matrix d b)
    (λ rhs, length rhs = d + 1 ∧ rhs !! 0 = Some None ∧
            ∀ k, 1 ≤ k ≤ d →
                 ∃ t, rhs !! k = Some (Some t) ∧
                      get_shape t = [b; rk tr k; rk mr k; rk rr k]) ∧
  returns (prepare_lhs_matmul what L matrix d b)
    (λ lhs, length lhs = d + 1 ∧ lhs !! d = Some None ∧
            ∀ k, k ≤ d - 1 →
                 ∃ t, lhs !! k = Some (Some t) ∧
                      get_shape t = [b; rk lr k; rk mr k; rk tr k]).
Proof.
  intros d Hw Hwb Hwraw HL HLb HLraw HR HRb HRraw Hm Hmb Hmraw.
  pose proof (wf_ndims _ _ Hw) as Hd. split.
  - assert (returns (prepare_rhs_matmul what R matrix d b)
              (rhs_filled_matmul b d tr mr rr 1))
      as (rhs & Hrhs & Hlen & Hk) by (eapply (prepare_rhs_matmul_ok what R matrix what); eauto).
    exists rhs. split; [done|]. split; [done|]. split; [|done].
    by eapply prepare_rhs_matmul_first_slot.
  - assert (returns (prepare_lhs_matmul what L matrix d b)
              (lhs_filled_matmul b d lr mr tr (d - 1)))
      as (lhs & Hlhs & Hlen & Hk) by (eapply (prepare_lhs_matmul_ok what L matrix what); eauto).
    exists lhs. split; [done|]. split; [done|]. split; [|done].
    by eapply prepare_lhs_matmul_last_slot.
Qed.

Lemma accumulators_filled_matmul_witness :
  let what := Sample.what_matrix_batch in
  let point := Sample.where_matrix in
  returns (prepare_rhs_matmul what point Sample.identity_matrix 3 4)
    (λ rhs, length rhs = 3 + 1 ∧ rhs !! 0 = Some None ∧
            ∀ k, 1 ≤ k ≤ 3 →
                 ∃ t, rhs !! k = Some (Some t) ∧
                      get_shape t
                      = [4; rk [1; 3; 3; 1] k; rk [1; 1; 1; 1] k;
                         rk [1; 2; 2; 1] k]) ∧
  returns (prepare_lhs_matmul what point Sample.identity_matrix 3 4)
    (λ lhs, length lhs = 3 + 1 ∧ lhs !! 3 = Some None ∧
            ∀ k, k ≤ 3 - 1 →
                 ∃ t, lhs !! k = Some (Some t) ∧
                      get_shape t
                      = [4; rk [1; 2; 2; 1] k; rk [1; 1; 1; 1] k;
                         rk [1; 3; 3; 1] k]).
Proof.
  intros what point.
  apply (accumulators_filled_matmul what point point Sample.identity_matrix
           [2; 3; 2] [2; 3; 2] 4 [1; 3; 3; 1] [1; 2; 2; 1] [1; 2; 2; 1]
           [1; 1; 1; 1]);
    try reflexivity; by apply tt_wf_check_sound.
Defined.

(** ** The weights [project_sum] accepts *)



(** ** The arguments [project_matmul] accepts *)

Lemma check_arguments_inv what where_ u :
  outcome (check_arguments what where_) = Ok u →
  is_TensorTrain where_ = true ∧
  get_raw_shape where_ = get_raw_shape what ∧
  is_compatible_with (dtype where_) (dtype what) = true.
Proof.
  unfold check_arguments.
  destruct (is_TensorTrain where_); [|discriminate]. cbn.
  case_bool_decide as Hraw; [discriminate|].
  destruct (is_compatible_with _ _); [|discriminate].
  intros _. split; [done|]. split; [|done].
  by destruct (decide (get_raw_shape where_ = get_raw_shape what)).
Qed.

(** The projection core of [project_matmul] contracts the core of [what]
    under five labels. *)
Lemma project_matmul_proj_core_operand d k lhs rhs tens_core matrix_core
    left_tang_core o :
  k < d →
  outcome
    (project_matmul_proj_core d k lhs rhs tens_core matrix_core
       left_tang_core) = Ok o →
  length (get_shape tens_core) = 5.
Proof.
  intros Hk H. unfold project_matmul_proj_core in H.
  destruct (Nat.ltb_spec k (d - 1)) as [Hlt|Hge].
  - tf_inv_as H pc Hpc. clear H. tf_inv_as Hpc l Hl. tf_inv_as Hpc t Ht.
    clear Hpc. operand_rank 0.
  - tf_inv_as H pc Hpc. clear Hpc.
    destruct (Nat.eqb_spec k (d - 1)) as [_|Hne]; [|lia].
    tf_inv_as H l Hl. tf_inv_as H t Ht. clear H. operand_rank 2.
Qed.

Section MatmulDomain.

Variable orthogonalize_tt_cores : tt_object → bool → tt_object.
Variable plain_batch_size : option nat.

Lemma project_matmul_returns_domain what where_ matrix tr wr lr r :
  tt_wf what tr → tt_wf where_ wr →
  tangent_of where_ (orthogonalize_tt_cores where_ true) lr →
  outcome
    (project_matmul orthogonalize_tt_cores plain_batch_size what where_
       matrix) = Ok r →
  is_TensorTrainBatch what = true ∧ is_tt_matrix what = true.
Proof.
  intros Hwhat Hwhere (HLp & HLraw & HLwf) H.
  unfold project_matmul in H.
  tf_inv_as H u Hchk. tf_inv_as H bs Hbs. tf_inv_as H w Hw.
  tf_inv_as H rhs Hrhs. tf_inv_as H lhs Hlhs. tf_inv_as H res Hres.
  clear H. pose proof (wf_ndims _ _ Hwhere) as Hd.
  apply check_arguments_inv in Hchk as (_ & Hraw & _).
  destruct (expand_batch_dim_ok what tr Hwhat)
    as (w' & Hw' & Hwf & Hwb & _ & Hwraw & _).
  rewrite Hw in Hw'. injection Hw' as <-.
  eapply (for_each_inv _ _ _ _ 0) in Hres as (s1 & s2 & Hturn);
    [|by apply elem_of_range].
  assert (length (get_raw_shape what) = 2) as Hrows.
  { unfold project_matmul_step in Hturn.
    tf_inv_as Hturn tens_core Htens. tf_inv_as Hturn matrix_core Hmat.
    tf_inv_as Hturn left_tang_core Hleft.
    tf_inv_as Hturn right_tang_core Hright. tf_inv_as Hturn o Hproj.
    clear Hturn. apply getitem_inv in Htens.
    destruct (wf_core w tr 0 Hwf) as (c & Hc & Hsh).
    { unfold ndims. by eapply lookup_lt_Some. }
    rewrite Htens in Hc. injection Hc as <-.
    apply project_matmul_proj_core_operand in Hproj; [|done].
    rewrite Hsh, Hwb, Hwraw in Hproj. unfold core_shape, mode_sizes in Hproj.
    cbn in Hproj. rewrite length_app, length_fmap in Hproj.
    cbn in Hproj. lia. }
  split; [|by apply Nat.eqb_eq].
  destruct (get_raw_shape what) as [|ns [|ms [|? ?]]] eqn:E; try done.
  eapply (project_matmul_first_turn_batch _ _ ns ms lr) in Hturn;
    [|done|by destruct (orthogonalize_tt_cores where_ true)|congruence
     |done].
  by destruct what.
Qed.

End MatmulDomain.

(** [project_matmul] returns only on a batch of TT-matrices: on well-formed
    [what] and [where], a plain [what] or a TT-tensor [what] makes it
    raise. *)
Theorem project_matmul_needs_batch_of_matrices orthogonalize_tt_cores
    plain_batch_size (what where_ matrix : tt_object) (tr wr lr : list nat) :
  let left_tangent := orthogonalize_tt_cores where_ true in
  let m :=
    project_matmul orthogonalize_tt_cores plain_batch_size what where_
      matrix in
  tt_wf what tr → tt_wf where_ wr →
  tangent_of where_ left_tangent lr →
  is_TensorTrainBatch what = false ∨ is_tt_matrix what = false →
  ∃ e, outcome m = Raise e.
Proof.
  intros L m Hwhat Hwhere HL Hno.
  destruct (outcome m) as [r|e] eqn:E; [|by exists e].
  apply (project_matmul_returns_domain orthogonalize_tt_cores
           plain_batch_size what where_ matrix tr wr lr r Hwhat Hwhere HL)
    in E as [H1 H2].
  destruct Hno; congruence.
Qed.

Lemma project_matmul_needs_batch_of_matrices_witness :
  ∃ e, outcome
         (project_matmul Sample.keep_cores None Sample.what_batch_232
            Sample.where_232 Sample.identity_matrix) = Raise e.
Proof.
  assert (tt_wf Sample.where_232 [1; 2; 2; 1]) as Hwhere
    by (by apply tt_wf_check_sound).
  apply (project_matmul_needs_batch_of_matrices Sample.keep_cores None
           Sample.what_batch_232 Sample.where_232 Sample.identity_matrix
           [1; 3; 3; 1] [1; 2; 2; 1] [1; 2; 2; 1]).
  - by apply tt_wf_check_sound.
  - exact Hwhere.
  - by apply keep_cores_tangent.
  - right. reflexivity.
Defined.

(** ** The size of the graph *)



Section Builds.

Context {A B : Type}.
Variable w : tf_op → nat.
Implicit Types (m : tf A) (f : A → tf B).





End Builds.

Section BuildsOps.

Variable w : tf_op → nat.








End BuildsOps.








Section Costs.

Variable w : tf_op → nat.
Variable ce : nat.
Hypothesis w_einsum : ∀ equation, w (OpEinsum equation) = ce.

Local Open Scope string_scope.
Local Open Scope nat_scope.



















End Costs.


Section Census.

Variable orthogonalize_tt_cores : tt_object → bool → tt_object.
Variable plain_batch_size : option nat.
Variables (c : call) (lr rr : list nat).

Hypothesis valid : valid_call plain_batch_size c.
Hypothesis left_ok :
  tangent_of (call_where c) (orthogonalize_tt_cores (call_where c) true) lr.
Hypothesis right_ok :
  tangent_of (call_where c)
    (orthogonalize_tt_cores (orthogonalize_tt_cores (call_where c) true)
       false) rr.




End Census.









(** ** The result as a TT object *)

Lemma rk_tangent_sum_ranks d lr rr k :
  k ≤ d →
  rk (tangent_sum_ranks d lr rr) k
  = if (k =? 0) || (k =? d) then 1 else rk rr k + rk lr k.
Proof.
  intros Hk. unfold rk at 1. by rewrite tangent_sum_ranks_lookup.
Qed.

(** With at least two modes, a projection is a well-formed TT object over
    the summed tangent ranks. *)
Lemma projected_wf where_ wr lr rr opre r :
  tt_wf where_ wr → 2 ≤ ndims where_ → projected where_ lr rr opre r →
  tt_wf r (tangent_sum_ranks (ndims where_) lr rr).
Proof.
  intros Hwhere Hd (Hpre & Hraw & Hlen & Hcores).
  assert (ndims r = ndims where_) as Hn by done.
  pose proof (rk_tangent_sum_ranks (ndims where_) lr rr) as Hrk.
  assert (length (tangent_sum_ranks (ndims where_) lr rr)
          = S (ndims where_)) as Hranks.
  { unfold tangent_sum_ranks. by rewrite length_fmap, length_seq. }
  generalize dependent (tangent_sum_ranks (ndims where_) lr rr).
  intros ranks Hrk Hranks. split.
  - lia.
  - by rewrite Hn.
  - by rewrite Hrk by lia.
  - rewrite Hn, Hrk by lia. by rewrite Nat.eqb_refl, orb_true_r.
  - rewrite Hraw. exact (wf_raw _ _ Hwhere).
  - rewrite Hraw, Hn. exact (wf_rows _ _ Hwhere).
  - apply list_eq. intros k. rewrite !list_lookup_fmap, Hn.
    destruct (decide (k < ndims where_)) as [Hk|Hk].
    + destruct (Hcores k Hk) as (c & Hc & Hsh).
      rewrite Hc, lookup_seq_lt by done. cbn. f_equal.
      rewrite Hsh, Hpre, Hraw. unfold res_shape, core_shape.
      rewrite !Hrk by lia.
      replace (k =? ndims where_) with false
        by (symmetry; apply Nat.eqb_neq; lia).
      rewrite orb_false_r. do 4 f_equal.
      destruct (Nat.ltb_spec 0 k), (Nat.eqb_spec k (ndims where_ - 1)),
        (Nat.eqb_spec (S k) 0), (Nat.eqb_spec (S k) (ndims where_));
        cbn [orb andb]; (done || lia).
    + rewrite (lookup_ge_None_2 (tt_cores r)) by lia.
      by rewrite lookup_seq_ge by lia.
Qed.

(** With at least two modes, what each of the three operations returns on a
    valid call is a well-formed TT object: consecutive cores agree on the
    rank between them, the boundary ranks are 1, and the ranks are the sums
    of the tangent ranks. *)
Theorem result_well_formed orthogonalize_tt_cores plain_batch_size (c : call)
    (lr rr : list nat) :
  let where_ := call_where c in
  let left_tangent := orthogonalize_tt_cores where_ true in
  let right_tangent := orthogonalize_tt_cores left_tangent false in
  valid_call plain_batch_size c →
  tangent_of where_ left_tangent lr →
  tangent_of where_ right_tangent rr →
  2 ≤ ndims where_ →
  returns (run orthogonalize_tt_cores plain_batch_size c)
    (λ r, tt_wf r (tangent_sum_ranks (ndims where_) lr rr) ∧
          get_raw_shape r = get_raw_shape where_).
Proof.
  intros where_ L R Hvalid HL HR Hd.
  eapply returns_conseq; [by eapply run_ok|].
  intros r Hr. destruct Hvalid as [_ [wr Hwr] _ _ _ _].
  split; [by eapply projected_wf|apply Hr].
Qed.

Lemma result_well_formed_witness :
  let c := Project Sample.what_batch_232 Sample.where_232 in
  returns (run Sample.keep_cores None c)
    (λ r, tt_wf r (tangent_sum_ranks 3 [1; 2; 2; 1] [1; 2; 2; 1]) ∧
          get_raw_shape r = [[2; 3; 2]]).
Proof.
  intros c.
  assert (tt_wf Sample.where_232 [1; 2; 2; 1]) as Hwhere
    by (by apply tt_wf_check_sound).
  apply (result_well_formed Sample.keep_cores None c [1; 2; 2; 1]
           [1; 2; 2; 1]).
  - split; cbn; try done.
    + by exists [1; 2; 2; 1].
    + exists [1; 3; 3; 1]. by apply tt_wf_check_sound.
  - by apply keep_cores_tangent.
  - by apply keep_cores_tangent.
  - cbn. lia.
Defined.

(** What an operation returns carries the element type of [where]. *)
Lemma run_dtype orthogonalize_tt_cores plain_batch_size (c : call) r :
  outcome (run orthogonalize_tt_cores plain_batch_size c) = Ok r →
  dtype r = dtype (call_where c).
Proof.
  destruct c as [what where_|what where_ weights|what where_ matrix];
    cbn [run call_where]; intros H.
  - unfold project in H. do 6 tf_inv H. injection H as <-.
    unfold make_result. by destruct (is_TensorTrainBatch _).
  - unfold project_sum in H. do 6 tf_inv H. injection H as <-.
    unfold make_result. by destruct (weights_output_is_batch _).
  - unfold project_matmul in H. do 6 tf_inv H. injection H as <-.
    unfold make_result. by destruct (is_TensorTrainBatch _).
Qed.

Lemma projected_core_shapes where_ lr rr opre r r' :
  projected where_ lr rr opre r → projected where_ lr rr opre r' →
  get_shape <$> tt_cores r' = get_shape <$> tt_cores r.
Proof.
  intros (_ & _ & Hlen & Hcores) (_ & _ & Hlen' & Hcores').
  apply list_eq. intros k. rewrite !list_lookup_fmap.
  destruct (decide (k < ndims where_)) as [Hk|Hk].
  - destruct (Hcores k Hk) as (c & -> & Hsh).
    destruct (Hcores' k Hk) as (c' & -> & Hsh'). cbn. congruence.
  - by rewrite !lookup_ge_None_2 by lia.
Qed.

(** A batch of projections can be projected again, a single projection
    cannot: with at least two modes, when what an operation returns on a
    valid call is a batch, [project] accepts it as [what] at the same point
    and returns a batch of the same size and core shapes; when it is a plain
    TT object ([project_sum] without an output batch), [project] raises on
    it as on every plain [what], before it builds a node of its own. *)
Theorem projection_projected_again orthogonalize_tt_cores plain_batch_size
    (c : call) (lr rr : list nat) :
  let where_ := call_where c in
  let left_tangent := orthogonalize_tt_cores where_ true in
  let right_tangent := orthogonalize_tt_cores left_tangent false in
  valid_call plain_batch_size c →
  tangent_of where_ left_tangent lr →
  tangent_of where_ right_tangent rr →
  2 ≤ ndims where_ →
  returns (run orthogonalize_tt_cores plain_batch_size c)
    (λ r, (is_TensorTrainBatch r = true →
           returns (project orthogonalize_tt_cores plain_batch_size r where_)
             (λ r', batch_prefix r' = batch_prefix r ∧
                    get_shape <$> tt_cores r' = get_shape <$> tt_cores r)) ∧
          (is_TensorTrain r = true →
           project orthogonalize_tt_cores None r where_
           = (Raise BatchSizeUnavailable, []))).
Proof.
  intros where_ L R Hvalid HL HR Hd.
  destruct (run_ok orthogonalize_tt_cores plain_batch_size c lr rr Hvalid
              HL HR) as (r & Hr & Hproj).
  exists r. split; [done|].
  pose proof Hvalid as [Hplain [wr Hwr] _ _ _ _].
  assert (get_raw_shape where_ = get_raw_shape r) as Hraw
    by (symmetry; apply Hproj).
  assert (is_compatible_with (dtype where_) (dtype r) = true) as Hdt.
  { rewrite (run_dtype _ _ _ _ Hr). by apply bool_decide_eq_true. }
  split.
  - intros Hbatch.
    assert (valid_call plain_batch_size (Project r where_)) as Hvalid'.
    { split; cbn [call_where call_what call_extra]; try done.
      - by exists wr.
      - eexists. by eapply projected_wf.
      - intros Hp. by destruct r. }
    destruct (run_ok orthogonalize_tt_cores plain_batch_size
                (Project r where_) lr rr Hvalid' HL HR)
      as (r' & Hr' & Hproj').
    exists r'. split; [done|]. cbn [call_where call_output_prefix] in Hproj'.
    assert ((if is_TensorTrainBatch r then [batch_size_attr r] else [])
            = call_output_prefix c) as Hpre.
    { destruct Hproj as (Hp & _). rewrite <- Hp. by destruct r. }
    rewrite Hpre in Hproj'. split.
    + destruct Hproj as (-> & _). apply Hproj'.
    + by eapply projected_core_shapes.
  - intros Hp. apply project_plain_what_raises; [done|].
    by apply check_pass.
Qed.

Lemma projection_projected_again_witness :
  let c := Project Sample.what_batch_232 Sample.where_232 in
  returns (run Sample.keep_cores None c)
    (λ r, (is_TensorTrainBatch r = true →
           returns (project Sample.keep_cores None r Sample.where_232)
             (λ r', batch_prefix r' = batch_prefix r ∧
                    get_shape <$> tt_cores r' = get_shape <$> tt_cores r)) ∧
          (is_TensorTrain r = true →
           project Sample.keep_cores None r Sample.where_232
           = (Raise BatchSizeUnavailable, []))).
Proof.
  intros c.
  assert (tt_wf Sample.where_232 [1; 2; 2; 1]) as Hwhere
    by (by apply tt_wf_check_sound).
  apply (projection_projected_again Sample.keep_cores None c [1; 2; 2; 1]
           [1; 2; 2; 1]).
  - split; cbn; try done.
    + by exists [1; 2; 2; 1].
    + exists [1; 3; 3; 1]. by apply tt_wf_check_sound.
  - by apply keep_cores_tangent.
  - by apply keep_cores_tangent.
  - cbn. lia.
Defined.

(** ** The constructor and the one-mode case *)

(** What the constructor refuses has broken [tt_wf]. *)
Lemma constructor_accepts_wf r :
  constructor_accepts r = true → tt_wf r (lazy_tt_ranks r).
Proof. apply tt_wf_check_sound. Qed.

Lemma tt_wf_check_complete tt ranks :
  tt_wf tt ranks → tt_wf_check tt ranks = true.
Proof.
  intros [H1 H2 H3 H4 H5 H6 H7]. unfold tt_wf_check.
  rewrite !andb_true_iff, orb_true_iff.
  repeat split.
  - by apply Nat.ltb_lt.
  - by apply Nat.eqb_eq.
  - by apply Nat.eqb_eq.
  - by apply Nat.eqb_eq.
  - destruct H5 as [H5|H5]; [left|right]; by apply Nat.eqb_eq.
  - apply forallb_forall. intros row Hin. apply Nat.eqb_eq.
    rewrite Forall_forall in H6. by apply H6, list_elem_of_In.
  - by apply bool_decide_eq_true.
Qed.

(** With one mode the operations hand the constructor a single core whose
    trailing rank is 2, which it refuses; with at least two modes it
    accepts what they hand it. *)
Theorem one_mode_refused orthogonalize_tt_cores plain_batch_size
    (c : call) (lr rr : list nat) :
  let where_ := call_where c in
  let left_tangent := orthogonalize_tt_cores where_ true in
  let right_tangent := orthogonalize_tt_cores left_tangent false in
  let m := run orthogonalize_tt_cores plain_batch_size c in
  valid_call plain_batch_size c →
  tangent_of where_ left_tangent lr →
  tangent_of where_ right_tangent rr →
  (ndims where_ = 1 →
   returns m (λ r, length (tt_cores r) = 1 ∧ lazy_tt_ranks r = [1; 2]) ∧
   outcome (constructed m) = Raise CoresNotValid) ∧
  (2 ≤ ndims where_ → outcome (constructed m) = outcome m).
Proof.
  intros where_ L R m Hvalid HL HR.
  destruct (run_ok orthogonalize_tt_cores plain_batch_size c lr rr Hvalid
              HL HR) as (r & Hr & Hproj).
  fold m in Hr. pose proof Hvalid as [_ [wr Hwr] _ _ _ _]. split.
  - intros Hd.
    assert (lazy_tt_ranks r = [1; 2]) as Hranks.
    { destruct HR as (_ & HRraw & HRwf). destruct HL as (_ & HLraw & HLwf).
      eapply projected_ranks_one_mode; [done| | |done].
      - pose proof (wf_last _ _ HRwf) as H.
        by rewrite (wf_same_ndims R rr where_ wr), Hd in H.
      - pose proof (wf_last _ _ HLwf) as H.
        by rewrite (wf_same_ndims L lr where_ wr), Hd in H. }
    assert (length (tt_cores r) = 1) as Hlen.
    { destruct Hproj as (_ & _ & Hlen & _). by rewrite Hlen. }
    split; [by exists r|].
    unfold constructed. rewrite (outcome_bind_ok _ _ r) by done.
    destruct (constructor_accepts r) eqn:E; [|done].
    apply constructor_accepts_wf in E. pose proof (wf_last _ _ E) as Hl.
    unfold ndims in Hl. by rewrite Hlen, Hranks in Hl.
  - intros Hd. unfold constructed. rewrite (outcome_bind_ok _ _ r) by done.
    rewrite Hr. unfold constructor_accepts. unfold where_ in *.
    rewrite (projected_ranks _ _ _ _ _ Hd Hproj).
    by rewrite (tt_wf_check_complete _ _ (projected_wf _ _ _ _ _ _ Hwr Hd Hproj)).
Qed.

Lemma one_mode_refused_witness :
  let c := ProjectSum Sample.where_2 Sample.where_2 None in
  let m := run Sample.keep_cores None c in
  (ndims Sample.where_2 = 1 →
   returns m (λ r, length (tt_cores r) = 1 ∧ lazy_tt_ranks r = [1; 2]) ∧
   outcome (constructed m) = Raise CoresNotValid) ∧
  (2 ≤ ndims Sample.where_2 → outcome (constructed m) = outcome m).
Proof.
  intros c m.
  assert (tt_wf Sample.where_2 [1; 1]) as Hwhere
    by (by apply tt_wf_check_sound).
  apply (one_mode_refused Sample.keep_cores None c [1; 1] [1; 1]).
  - split; cbn; try done; by exists [1; 1].
  - by apply keep_cores_tangent.
  - by apply keep_cores_tangent.
Defined.

(** ** Promotion and the batch size *)

Lemma bind_ext_ok {A B} (m : tf A) (f g : A → tf B) :
  (∀ a, outcome m = Ok a → f a = g a) → m ≫= f = m ≫= g.
Proof.
  destruct m as [[a|e] ops]; unfold mbind, tf_bind; cbn; [|done].
  intros H. by rewrite (H a).
Qed.

Lemma expand_batch_dim_batch what w :
  outcome (expand_batch_dim what) = Ok w → is_TensorTrainBatch w = true.
Proof.
  destruct what as [cores raw dt|cores raw bs dt]; cbn.
  - intros H. tf_inv_as H cores' Hc. by injection H as <-.
  - by intros [= <-].
Qed.

(** [project_sum] promotes [what] to a batch before it reads the batch
    size, so the helper [shapes.lazy_batch_size] is only ever asked about a
    batch: whatever it would answer on a plain TT object, [project_sum]
    computes the same result and builds the same graph. *)
Theorem project_sum_reads_batch_size_after_promotion orthogonalize_tt_cores
    (plain_batch_size plain_batch_size' : option nat)
    (what where_ : tt_object) (weights : option tensor) :
  project_sum orthogonalize_tt_cores plain_batch_size what where_ weights
  = project_sum orthogonalize_tt_cores plain_batch_size' what where_ weights.
Proof.
  unfold project_sum. apply bind_ext_ok. intros w Hw%expand_batch_dim_batch.
  f_equal. by destruct w.
Qed.
